(** * BuildNet3D-dataset: the segmented-mesh analysis engine

    A shallow embedding of
      - [buildnet3d_dataset/post_process_segmentation.py]
      - [buildnet3d_dataset/mesh_tools/mesh_utils.py]
      - [buildnet3d_dataset/mesh_tools/segmented_3D_model.py]
      - [Dataset._read_segmentation_info] of
        [buildnet3d_dataset/blender_scripts/dataset.py]
    and the properties of the natural-language specification that concern
    them, followed by further properties of the same code.

    Conventions of the embedding.
      - Python exceptions are values of [Py.exn]; a function that can raise
        returns a [Py.result].
      - numpy/pandas floating-point columns are exact rationals ([Q]); the one
        IEEE behaviour the code depends on, division by zero of numpy scalars
        (which warns and yields inf or nan instead of raising), is made
        explicit by [Np.npfloat], and so is the nan that this division
        stores in the three face normal columns of a face of zero area
        ([Segmented.normal_columns]).  Rounding is not modelled.  Where the source
        takes a square root and an arccosine ([check_angles]) the rational
        form is related to the source's formula over the reals.
      - colour channels are integers ([Z]), as read from the [.ply] file and
        the palette json.
      - a pandas DataFrame is the list of its rows; a row of the face table
        carries its index label ([idx]).
      - a networkx graph is used by the code only through its node set; a
        component graph is the [gset] of its nodes. *)

From Stdlib Require Import Reals Qreals.
From Stdlib Require Import ZArith QArith Qabs Qminmax Lia Psatz List Ascii String Permutation.
From stdpp Require Import base decidable option list sets gmap strings pretty.

Local Open Scope string_scope.
Local Open Scope list_scope.

(** ** Python results and exceptions *)

Module Py.

Inductive exn : Type :=
| RuntimeError (msg : string)
| UncorrectedMeshes (count : nat)
| NotImplementedError (msg : string)
| ValueError (msg : string)
| IndexError (msg : string)
| KeyError (msg : string).

Inductive result (A : Type) : Type :=
| Ok (a : A)
| Raise (e : exn).

Arguments Ok {A} a.
Arguments Raise {A} e.

Definition bind {A B : Type} (r : result A) (k : A → result B) : result B :=
  match r with
  | Ok a => k a
  | Raise e => Raise e
  end.

Definition raises {A : Type} (r : result A) : Prop :=
  match r with
  | Ok _ => False
  | Raise _ => True
  end.

(** [[f(x) for x in l]] where [f] can raise: the first exception wins. *)
Fixpoint mapM {A B : Type} (f : A → result B) (l : list A) : result (list B) :=
  match l with
  | [] => Ok []
  | x :: r =>
      match f x with
      | Raise e => Raise e
      | Ok y =>
          match mapM f r with
          | Raise e => Raise e
          | Ok ys => Ok (y :: ys)
          end
      end
  end.

End Py.

Import Py.

Notation "'try!' x ':=' r 'in' k" := (Py.bind r (fun x => k))
  (at level 10, x name, r at level 100, k at level 200).

(** ** numpy scalars and small vectors *)

Module Np.

(** A numpy float: a finite value, or one of the IEEE specials that a
    division by zero produces. *)
Inductive npfloat : Type :=
| Finite (q : Q)
| PosInf
| NegInf
| NaN.

(** [np.divide a b] and [a / b] on numpy scalars: a zero divisor raises
    nothing; the quotient is nan for 0/0 and a signed infinity otherwise. *)
Definition np_divide (a b : Q) : npfloat :=
  if Qeq_bool b 0 then
    match (a ?= 0)%Q with
    | Eq => NaN
    | Gt => PosInf
    | Lt => NegInf
    end
  else Finite (a / b).

(** [x < q] and [x > q] on a numpy float: comparisons with nan are False. *)
Definition np_lt (x : npfloat) (q : Q) : bool :=
  match x with
  | Finite a => negb (Qle_bool q a)
  | NegInf => true
  | PosInf => false
  | NaN => false
  end.

Definition np_gt (x : npfloat) (q : Q) : bool :=
  match x with
  | Finite a => negb (Qle_bool a q)
  | PosInf => true
  | NegInf => false
  | NaN => false
  end.

(** [x != q] and [x >= q] on a numpy float: nan differs from every number
    and is not ordered with any. *)
Definition np_ne (x : npfloat) (q : Q) : bool :=
  match x with
  | Finite a => negb (Qeq_bool a q)
  | PosInf => true
  | NegInf => true
  | NaN => true
  end.

Definition np_ge (x : npfloat) (q : Q) : bool :=
  match x with
  | Finite a => Qle_bool q a
  | PosInf => true
  | NegInf => false
  | NaN => false
  end.

Definition rtol_default : Q := 1 # 100000.
Definition atol_default : Q := 1 # 100000000.

(** [np.isclose(a, b, rtol, atol)]: [|a - b| <= atol + rtol * |b|]. *)
Definition np_isclose (a b rtol atol : Q) : bool :=
  Qle_bool (Qabs (a - b)) (atol + rtol * Qabs b).

(** A row of an (n, 3) array. *)
Record vec3 : Type := V3 { vx : Q; vy : Q; vz : Q }.

Definition vsub (a b : vec3) : vec3 :=
  V3 (vx a - vx b) (vy a - vy b) (vz a - vz b).

Definition vadd (a b : vec3) : vec3 :=
  V3 (vx a + vx b) (vy a + vy b) (vz a + vz b).

Definition vscale (k : Q) (a : vec3) : vec3 :=
  V3 (k * vx a) (k * vy a) (k * vz a).

(** [np.cross] on 3-vectors. *)
Definition cross (a b : vec3) : vec3 :=
  V3 (vy a * vz b - vz a * vy b)
     (vz a * vx b - vx a * vz b)
     (vx a * vy b - vy a * vx b).

(** [np.dot] on 3-vectors. *)
Definition dot (a b : vec3) : Q :=
  vx a * vx b + vy a * vy b + vz a * vz b.

Definition vec_is_zero (a : vec3) : bool :=
  Qeq_bool (vx a) 0 && Qeq_bool (vy a) 0 && Qeq_bool (vz a) 0.

(** [np.sum] of a list of scalars. *)
Definition np_sum (l : list Q) : Q := fold_left Qplus l 0%Q.

(** [np.min] / [np.max] along axis 0 of a list of scalars; numpy raises
    [ValueError] on an empty reduction. *)
Definition np_min_Q (l : list Q) : result Q :=
  match l with
  | [] => Raise (ValueError "zero-size array to reduction operation minimum which has no identity")
  | x :: r => Ok (fold_left Qmin r x)
  end.

Definition np_max_Q (l : list Q) : result Q :=
  match l with
  | [] => Raise (ValueError "zero-size array to reduction operation maximum which has no identity")
  | x :: r => Ok (fold_left Qmax r x)
  end.

Definition np_min_Z (l : list Z) : result Z :=
  match l with
  | [] => Raise (ValueError "zero-size array to reduction operation minimum which has no identity")
  | x :: r => Ok (fold_left Z.min r x)
  end.

End Np.

Import Np.

(** ** post_process_segmentation.py *)

Module PostProcess.

(** An RGB triple (a row of the colour array, a palette entry). *)
Definition color : Type := Z * Z * Z.

Definition color_eqb (a b : color) : bool :=
  let '(r1, g1, b1) := a in
  let '(r2, g2, b2) := b in
  (r1 =? r2)%Z && (g1 =? g2)%Z && (b1 =? b2)%Z.

(** [pixel_dict]: an insertion-ordered dict from a colour to the list of the
    indices where it occurs. *)
Definition pixel_dict_t : Type := list (color * list nat).

(** One pass of the first loop:
    [if pixel_tuple in pixel_dict.keys(): pixel_dict[pixel_tuple].append(i)
     else: pixel_dict[pixel_tuple] = [i]]. *)
Fixpoint pixel_dict_add (d : pixel_dict_t) (pixel : color) (i : nat) : pixel_dict_t :=
  match d with
  | [] => [(pixel, [i])]
  | (k, indices) :: rest =>
      if color_eqb k pixel then (k, indices ++ [i]) :: rest
      else (k, indices) :: pixel_dict_add rest pixel i
  end.

(** [for i, pixel in enumerate(arr): ...], started at index [i]. *)
Fixpoint pixel_dict_loop (i : nat) (arr : list color) (d : pixel_dict_t) : pixel_dict_t :=
  match arr with
  | [] => d
  | pixel :: rest => pixel_dict_loop (S i) rest (pixel_dict_add d pixel i)
  end.

(** [np.sum((mandatory_colors - np.array(pixel_value)) ** 2, axis=1)], one
    entry per palette colour. *)
Definition sq_distance (pixel_value c : color) : Z :=
  let '(r1, g1, b1) := c in
  let '(r2, g2, b2) := pixel_value in
  ((r1 - r2) ^ 2 + (g1 - g2) ^ 2 + (b1 - b2) ^ 2)%Z.

Definition distances (mandatory_colors : list color) (pixel_value : color) : list Z :=
  map (sq_distance pixel_value) mandatory_colors.

(** [np.where(distances == m)[0][0]]: the first position holding [m]. *)
Fixpoint first_where (m : Z) (ds : list Z) : option nat :=
  match ds with
  | [] => None
  | x :: r => if (x =? m)%Z then Some 0%nat else S <$> first_where m r
  end.

(** The right-hand side of the assignment in the second loop:
    [mandatory_colors[np.where(distances == np.min(distances))[0][0]]].
    With an empty palette the reduction (for an empty list already the
    broadcast of the subtraction) raises [ValueError]. *)
Definition closest_color (mandatory_colors : list color) (pixel_value : color) : result color :=
  let ds := distances mandatory_colors pixel_value in
  try! m := np_min_Z ds in
  match first_where m ds with
  | None => Raise (IndexError "index 0 is out of bounds for axis 0 with size 0")
  | Some j =>
      match mandatory_colors !! j with
      | None => Raise (IndexError "list index out of range")
      | Some c => Ok c
      end
  end.

(** [arr[indices] = value]: the in-place store at each listed index. *)
Definition set_indices (arr : list color) (indices : list nat) (value : color) : list color :=
  fold_left (fun a i => <[i := value]> a) indices arr.

(** [for pixel_value, indices in pixel_dict.items(): ...]. *)
Fixpoint assign_loop (mandatory_colors : list color) (d : pixel_dict_t)
    (arr : list color) : result (list color) :=
  match d with
  | [] => Ok arr
  | (pixel_value, indices) :: rest =>
      try! c := closest_color mandatory_colors pixel_value in
      assign_loop mandatory_colors rest (set_indices arr indices c)
  end.

Definition color_quantization (arr : list color) (mandatory_colors : list color)
    : result (list color) :=
  let pixel_dict := pixel_dict_loop 0 arr [] in
  assign_loop mandatory_colors pixel_dict arr.

(** Specification-level notions: the colour that quantization stores for
    [p], and the two halves of the invariant of [pixel_dict]. *)
Definition nearest (mc : list color) (p : color) : color :=
  match closest_color mc p with
  | Ok c => c
  | Raise _ => p
  end.

Definition dict_sound (arr : list color) (d : pixel_dict_t) : Prop :=
  ∀ k indices j, (k, indices) ∈ d → j ∈ indices → arr !! j = Some k.

Definition dict_covers (n : nat) (arr : list color) (d : pixel_dict_t) : Prop :=
  ∀ j c, (j < n)%nat → arr !! j = Some c → ∃ indices, (c, indices) ∈ d ∧ j ∈ indices.

(** *** color_quantization_img *)

(** An image: an array of shape (w, h, channels) as the list of its rows, a
    row being the list of its pixels and a pixel the list of its channels. *)
Definition image : Type := list (list (list Z)).

(** [img[:, :, 0:3]]. *)
Definition keep_rgb_channels (img : image) : image :=
  map (map (take 3)) img.

(** One row of the array that [np.reshape(img, (w * h, 3))] returns. *)
Definition pixel_color (pixel : list Z) : result color :=
  match pixel with
  | [r; g; b] => Ok (r, g, b)
  | _ => Raise (ValueError "cannot reshape array")
  end.

(** [np.reshape(img, (w * h, 3))]: the pixels in row-major order; an array
    whose last axis is shorter than 3 has not the size of the new shape. *)
Definition reshape_to_pixels (img : image) : result (list color) :=
  mapM pixel_color (concat img).

(** [np.reshape(arr, (w, h, 3))]: [w] rows of [h] pixels in row-major
    order. *)
Fixpoint reshape_to_rows (w h : nat) (arr : list color) : list (list color) :=
  match w with
  | O => []
  | S w' => take h arr :: reshape_to_rows w' h (drop h arr)
  end.

Definition color_quantization_img (img : image) (mandatory_colors : list color)
    : result (list (list color)) :=
  let img := keep_rgb_channels img in
  let w := length img in
  let h := length (hd [] img) in
  try! pixels := reshape_to_pixels img in
  try! pixels := color_quantization pixels mandatory_colors in
  Ok (reshape_to_rows w h pixels).

(** The first three channels of a pixel, as a colour. *)
Definition rgb_of_pixel (pixel : list Z) : color :=
  (nth 0 pixel 0%Z, nth 1 pixel 0%Z, nth 2 pixel 0%Z).

End PostProcess.

(** ** mesh_tools/mesh_utils.py *)

Module MeshUtils.

(** [npsumdot(arr1, arr2, axis=1)] on one face: the dot product of the face
    normal with one vertex normal. *)
Definition npsumdot (a b : vec3) : Q := dot a b.

(** One entry of [check_angles]:
    [np.arccos(dot / (|f| * |v|)) > np.pi / 2].
    The square roots of the two magnitudes are not rational, so the test is
    embedded by its sign form: the angle exceeds [pi / 2] exactly when the dot
    product is negative.  [arccos_check] below is the test as the source
    writes it, over the reals, and [more_than_90_degrees_arccos] proves the
    two equal.  (When a magnitude is zero numpy's 0/0 is nan and the
    comparison is False; the dot product is then 0, and [0 < 0] is False as
    well.) *)
Definition more_than_90_degrees (face_normal vertex_normal : vec3) : bool :=
  negb (Qle_bool 0 (npsumdot face_normal vertex_normal)).

(** The three vertex normals of a face: one [(3, 3)] slice of
    [vertex_normals], its last axis being the vertices v1, v2, v3. *)
Definition vertex_normals_t : Type := vec3 * vec3 * vec3.

(** A row of the boolean [(n, 3)] array that [check_angles] returns. *)
Definition angle_row : Type := bool * bool * bool.

Definition check_angles_row (face_normal : vec3) (vn : vertex_normals_t) : angle_row :=
  let '(a, b, c) := vn in
  (more_than_90_degrees face_normal a,
   more_than_90_degrees face_normal b,
   more_than_90_degrees face_normal c).

(** [check_angles(face_normals, vertex_normals)], the two arrays zipped along
    their first axis: a batch is the list of its faces. *)
Definition check_angles (faces : list (vec3 * vertex_normals_t)) : list angle_row :=
  map (fun fv => check_angles_row (fst fv) (snd fv)) faces.

(** [np.any(row)] along axis 1. *)
Definition any_row (r : angle_row) : bool :=
  let '(a, b, c) := r in a || b || c.

(** [np.any(angle_check)] over the whole array. *)
Definition np_any (rows : list angle_row) : bool := existsb any_row rows.

(** [np.sum(np.any(angle_check, axis=1))]. *)
Definition count_any (rows : list angle_row) : nat :=
  length (List.filter any_row rows).

(** One face of the batch: row i of [AB], [AC], [A_normal], [B_normal] and
    [C_normal]. *)
Record triangle : Type := Triangle {
  AB : vec3;
  AC : vec3;
  A_normal : vec3;
  B_normal : vec3;
  C_normal : vec3
}.

Definition vertex_normals_of (t : triangle) : vertex_normals_t :=
  (A_normal t, B_normal t, C_normal t).

(** [face_normals[mask, :] = face_normals[mask, :] * -1]. *)
Definition flip_masked (face_normals : list vec3) (mask : list bool) : list vec3 :=
  zip_with (fun n (m : bool) => if m then vscale (-1) n else n) face_normals mask.

Definition triangle_face_normals (batch : list triangle) : result (list vec3) :=
  let face_normals := map (fun t => cross (AB t) (AC t)) batch in
  let vertex_normals := map vertex_normals_of batch in
  let angle_check := check_angles (zip face_normals vertex_normals) in
  if np_any angle_check then
    let mask := map any_row angle_check in
    let face_normals := flip_masked face_normals mask in
    let angle_check_2 := check_angles (zip face_normals vertex_normals) in
    if np_any angle_check_2 then
      let count := count_any angle_check in
      Raise (UncorrectedMeshes count)
    else Ok face_normals
  else Ok face_normals.

(** [domain]: the 3x2 array of the extents; column 0 holds the minima and
    column 1 the maxima. *)
Record box : Type := Box { lo : vec3; hi : vec3 }.

(** [np.all((v >= domain[:, 0]) & (v <= domain[:, 1]))] for one vertex. *)
Definition in_domain (domain : box) (v : vec3) : bool :=
  (Qle_bool (vx (lo domain)) (vx v) && Qle_bool (vx v) (vx (hi domain)))
  && (Qle_bool (vy (lo domain)) (vy v) && Qle_bool (vy v) (vy (hi domain)))
  && (Qle_bool (vz (lo domain)) (vz v) && Qle_bool (vz v) (vz (hi domain))).

(** Boolean-mask indexing, [arr[mask]]. *)
Fixpoint mask_select {A : Type} (arr : list A) (mask : list bool) : list A :=
  match arr, mask with
  | x :: arr', m :: mask' =>
      if m then x :: mask_select arr' mask' else mask_select arr' mask'
  | _, _ => []
  end.

(** Boolean-mask assignment, [results[mask] = values]. *)
Fixpoint mask_assign {A : Type} (results : list A) (mask : list bool) (values : list A)
    : list A :=
  match results, mask with
  | r :: results', m :: mask' =>
      if m then
        match values with
        | v :: values' => v :: mask_assign results' mask' values'
        | [] => r :: mask_assign results' mask' []
        end
      else r :: mask_assign results' mask' values
  | _, _ => results
  end.

Definition np_neg (x : npfloat) : npfloat :=
  match x with
  | Finite q => Finite (- q)
  | PosInf => NegInf
  | NegInf => PosInf
  | NaN => NaN
  end.

(** The normal of the plane through the three rows of [plane_points]. *)
Definition plane_normal (plane_points : vec3 * vec3 * vec3) : vec3 :=
  let '(p0, p1, p2) := plane_points in
  cross (vsub p1 p0) (vsub p2 p0).

(** [np.isclose(vector @ normal, 0, atol=1e-6)] for one edge. *)
Definition vector_on_plane (normal : vec3) (edge : vec3 * vec3) : bool :=
  np_isclose (dot (vsub (snd edge) (fst edge)) normal) 0 rtol_default (1 # 1000000).

(** [t] for one edge that is not parallel to the plane. *)
Definition line_parameter (normal : vec3) (d : Q) (edge : vec3 * vec3) : npfloat :=
  np_neg (np_divide (dot (fst edge) normal + d)
                    (dot (vsub (snd edge) (fst edge)) normal)).

(** [line_crosses_plane]: all True, then False where [t < 0], then False
    where [t > 1]. *)
Definition crosses (t : npfloat) : bool :=
  let c := true in
  let c := if np_lt t 0 then false else c in
  let c := if np_gt t 1 then false else c in
  c.

(** [find_if_line_and_plane_intersect(vertices_1, vertices_2, plane_points,
    domain)]; an edge is the pair of row i of [vertices_1] and of
    [vertices_2].  The statement under [if np.all(normal == 0):] builds a
    [RuntimeError] and drops it: there is no [raise]. *)
Definition find_if_line_and_plane_intersect (edges : list (vec3 * vec3))
    (plane_points : vec3 * vec3 * vec3) (domain : box) : result (list bool) :=
  let normal := plane_normal plane_points in
  let _dropped :=
    if vec_is_zero normal
    then Some (RuntimeError "plane points provided create line or point.")
    else None in
  let d := (- dot normal (fst (fst plane_points)))%Q in
  let on_plane := map (vector_on_plane normal) edges in
  let vertices_1_in_domain := map (fun e => in_domain domain (fst e)) edges in
  let vertices_2_in_domain := map (fun e => in_domain domain (snd e)) edges in
  let line_on_plane_in_domain :=
    zip_with andb (zip_with andb on_plane vertices_1_in_domain) vertices_2_in_domain in
  let results := line_on_plane_in_domain in
  if (length (List.filter (fun b : bool => b) on_plane) =? length results)%nat then Ok results
  else
    let other_points := map negb on_plane in
    let t := map (line_parameter normal d) (mask_select edges other_points) in
    let line_crosses_plane := map crosses t in
    Ok (mask_assign results other_points line_crosses_plane).

(** Specification-level notions for [triangle_face_normals]: the face
    normals before and after the flip, and the number of faces on which some
    vertex normal still disagrees after the flip. *)
Definition raw_face_normals (batch : list triangle) : list vec3 :=
  map (fun t => cross (AB t) (AC t)) batch.

Definition flagged_before_flip (batch : list triangle) : list angle_row :=
  check_angles (zip (raw_face_normals batch) (map vertex_normals_of batch)).

Definition flipped_face_normals (batch : list triangle) : list vec3 :=
  flip_masked (raw_face_normals batch) (map any_row (flagged_before_flip batch)).

Definition flagged_after_flip (batch : list triangle) : list angle_row :=
  check_angles (zip (flipped_face_normals batch) (map vertex_normals_of batch)).

Definition unresolved_after_flip (batch : list triangle) : nat :=
  count_any (flagged_after_flip batch).

(** Specification-level notion for [find_if_line_and_plane_intersect]: the
    entry of the returned mask for one edge. *)
Definition edge_intersects (plane_points : vec3 * vec3 * vec3) (domain : box)
    (edge : vec3 * vec3) : bool :=
  let normal := plane_normal plane_points in
  let d := (- dot normal (fst (fst plane_points)))%Q in
  if vector_on_plane normal edge
  then in_domain domain (fst edge) && in_domain domain (snd edge)
  else crosses (line_parameter normal d edge).

(** Per-face forms of the arrays of [triangle_face_normals]. *)
Definition face_row_before (t : triangle) : angle_row :=
  check_angles_row (cross (AB t) (AC t)) (vertex_normals_of t).

Definition face_flipped (t : triangle) : vec3 :=
  if any_row (face_row_before t)
  then vscale (-1) (cross (AB t) (AC t))
  else cross (AB t) (AC t).

Definition face_row_after (t : triangle) : angle_row :=
  check_angles_row (face_flipped t) (vertex_normals_of t).

(** The batch on which the reported count and the number of unresolved
    faces differ: two faces with normal (0, 0, 1); the vertex normals of the
    first all point down (the flip resolves it), those of the second point
    down, up and up (no sign agrees with all three). *)
Definition two_flagged_one_unresolved : list triangle :=
  [ Triangle (V3 1 0 0) (V3 0 1 0) (V3 0 0 (-1)) (V3 0 0 (-1)) (V3 0 0 (-1));
    Triangle (V3 1 0 0) (V3 0 1 0) (V3 0 0 (-1)) (V3 0 0 1) (V3 0 0 1) ].

(** Three collinear plane points, a domain box and an edge inside it. *)
Definition collinear_plane_points : vec3 * vec3 * vec3 :=
  (V3 0 0 0, V3 1 0 0, V3 2 0 0).

Definition unit_box : box := Box (V3 0 0 0) (V3 1 1 1).

Definition diagonal_edge : vec3 * vec3 := (V3 0 0 0, V3 1 1 1).

(** [check_angles] over the reals, as the source computes one entry:
    [np.linalg.norm], the cosine [dot / (|f| * |v|)], the two
    [np.isclose] clamps (default tolerances) and [np.arccos(...) > np.pi / 2]. *)
Definition norm (a : vec3) : R := sqrt (Q2R (dot a a)).

Definition isclose_R (a b : R) : bool :=
  if Rle_dec (Rabs (a - b)) (Q2R atol_default + Q2R rtol_default * Rabs b)
  then true else false.

Definition clamp (c : R) : R :=
  let c := if isclose_R c 1 then 1%R else c in
  let c := if isclose_R c (-1) then (-1)%R else c in
  c.

Definition cos_angle (face_normal vertex_normal : vec3) : R :=
  (Q2R (npsumdot face_normal vertex_normal)
   / (norm face_normal * norm vertex_normal))%R.

Definition arccos_check (face_normal vertex_normal : vec3) : Prop :=
  (acos (clamp (cos_angle face_normal vertex_normal)) > PI / 2)%R.

(** A face whose vertex normals lie strictly on both sides of its plane:
    the cross product is more than 90 degrees from one of them and its
    opposite is more than 90 degrees from another. *)
Definition vertex_normals_disagree (t : triangle) : Prop :=
  let n := cross (AB t) (AC t) in
  (dot n (A_normal t) < 0 ∨ dot n (B_normal t) < 0 ∨ dot n (C_normal t) < 0)%Q
  ∧ (0 < dot n (A_normal t) ∨ 0 < dot n (B_normal t) ∨ 0 < dot n (C_normal t))%Q.

(** The same face with its two edge vectors exchanged, that is, with the
    opposite winding order. *)
Definition swap_winding (t : triangle) : triangle :=
  Triangle (AC t) (AB t) (A_normal t) (B_normal t) (C_normal t).

(** Componentwise equality of two vectors as rational numbers. *)
Definition vec_equiv (a b : vec3) : Prop :=
  (vx a == vx b ∧ vy a == vy b ∧ vz a == vz b)%Q.

(** The plane equation [dot(normal, p) + d] at a point: zero on the plane
    through the plane points, of one sign on each side of it. *)
Definition plane_side (plane_points : vec3 * vec3 * vec3) (p : vec3) : Q :=
  let normal := plane_normal plane_points in
  let d := (- dot normal (fst (fst plane_points)))%Q in
  (dot normal p + d)%Q.

(** An edge with its two endpoints exchanged. *)
Definition reverse_edge (edge : vec3 * vec3) : vec3 * vec3 :=
  (snd edge, fst edge).

End MeshUtils.

(** ** networkx: the connected components of an edge list *)

Module Nx.

(** The rows of [graph_df]: (source, target) pairs. *)
Definition edgelist : Type := list (nat * nat).

(** The nodes of [nx.from_pandas_edgelist(graph_df)] in the order in which
    the edges add them.  A node is listed once per occurrence; iterating over
    the graph skips the repetitions, since a repeated node has been seen. *)
Definition node_order (es : edgelist) : list nat :=
  flat_map (fun e => [fst e; snd e]) es.

(** The nodes adjacent to a node of [seen]; the graph is undirected. *)
Definition adjacent (es : edgelist) (seen : gset nat) : gset nat :=
  list_to_set
    (flat_map (fun e => (if decide (fst e ∈ seen) then [snd e] else [])
                        ++ (if decide (snd e ∈ seen) then [fst e] else []))
              es).

(** [fuel] levels of the breadth-first search. *)
Fixpoint bfs_levels (fuel : nat) (es : edgelist) (seen : gset nat) : gset nat :=
  match fuel with
  | O => seen
  | S fuel' => bfs_levels fuel' es (seen ∪ adjacent es seen)
  end.

(** [_plain_bfs(G, source)]: the set of nodes reachable from [source].  Each
    level that is not the last adds a node, and the graph has at most
    [length (node_order es)] nodes, so that many levels reach them all. *)
Definition plain_bfs (es : edgelist) (source : nat) : gset nat :=
  bfs_levels (length (node_order es)) es {[source]}.

(** [for v in G: if v not in seen: c = _plain_bfs(G, v); seen.update(c);
    yield c]. *)
Fixpoint components_from (es : edgelist) (order : list nat) (seen : gset nat)
    : list (gset nat) :=
  match order with
  | [] => []
  | v :: rest =>
      if decide (v ∈ seen) then components_from es rest seen
      else
        let c := plain_bfs es v in
        c :: components_from es rest (seen ∪ c)
  end.

(** [nx.connected_components(G)]; a component is the set of its nodes. *)
Definition connected_components (es : edgelist) : list (gset nat) :=
  components_from es (node_order es) ∅.

(** Specification-level notions: an edge joins [u] and [v]; a set of nodes
    is closed when no edge leaves it; [v] is reachable from [u]. *)
Definition joined (es : edgelist) (u v : nat) : Prop :=
  (u, v) ∈ es ∨ (v, u) ∈ es.

Definition closed (es : edgelist) (c : gset nat) : Prop :=
  ∀ u v, joined es u v → u ∈ c → v ∈ c.

Inductive reachable (es : edgelist) (u : nat) : nat → Prop :=
| reachable_refl : reachable es u u
| reachable_step v w : reachable es u v → joined es v w → reachable es u w.

(** [pairwise R l]: [R] holds between every two entries of [l] at
    different positions. *)
Fixpoint pairwise {A : Type} (R : A → A → Prop) (l : list A) : Prop :=
  match l with
  | [] => True
  | x :: r => (∀ y, y ∈ r → R x y) ∧ pairwise R r
  end.

End Nx.

(** ** mesh_tools/segmented_3D_model.py *)

Module Segmented.

Import PostProcess MeshUtils.

(** A row of [self._points], the vertex table; its index is its position in
    the list.  The columns x, y, z are [pos], nx, ny, nz are [normal], red,
    green, blue are [rgb].  The column [seg_class] is created by
    [_assign_classes], which first sets it to the empty string. *)
Record Point : Type := MkPoint {
  pos : vec3;
  normal : vec3;
  rgb : color;
  seg_class : string
}.

(** An entry of the segmentation mapping json:
    ["class": {"ID": int, "RGB": [r, g, b]}]. *)
Record ClassInfo : Type := MkClassInfo { ID : Z; RGB : color }.

(** The parsed json object: an insertion-ordered dict. *)
Definition segmentation_map_t : Type := list (string * ClassInfo).

(** [seg_map.pop("background", None)]. *)
Definition pop_background (seg_map : segmentation_map_t) : segmentation_map_t :=
  List.filter (fun kv => negb (String.eqb (fst kv) "background")) seg_map.

Definition set_rgb (p : Point) (c : color) : Point :=
  MkPoint (pos p) (normal p) c (seg_class p).

Definition set_seg_class (p : Point) (cls : string) : Point :=
  MkPoint (pos p) (normal p) (rgb p) cls.

(** [_fix_vertex_colors]: the three colour columns are replaced by the
    columns of the quantized array.  The channels of the file and of the
    palette are integers from 0 to 255, for which the store into the uint8
    columns changes nothing. *)
Definition _fix_vertex_colors (seg_map : segmentation_map_t) (points : list Point)
    : result (list Point) :=
  let rgb_arr := map rgb points in
  try! rgb_fixed :=
    color_quantization rgb_arr (map (fun kv => RGB (snd kv)) seg_map) in
  Ok (zip_with set_rgb points rgb_fixed).

(** One pass of the loop of [_assign_classes]: the rows whose three colour
    columns equal the entry's RGB get its class. *)
Definition assign_class (points : list Point) (entry : string * ClassInfo) : list Point :=
  let '(cls, info) := entry in
  let '(red, green, blue) := RGB info in
  map (fun p =>
         let '(r, g, b) := rgb p in
         if (r =? red)%Z && (g =? green)%Z && (b =? blue)%Z
         then set_seg_class p cls else p)
      points.

Definition _assign_classes (seg_map : segmentation_map_t) (points : list Point)
    : list Point :=
  fold_left assign_class seg_map (map (fun p => set_seg_class p "") points).

(** A row of [self._meshes]: the three vertex ids of a triangle. *)
Record Mesh : Type := MkMesh { id_v1 : nat; id_v2 : nat; id_v3 : nat }.

(** The attributes that the left merge on [id_v<k>] adds for one vertex:
    the row of the vertex table, or NaN in every added column when the id is
    not in its index. *)
Definition merged_vertex (points : list Point) (id : nat) : option Point :=
  points !! id.

(** [x.seg_class_v1 == x.seg_class_v2] on a merged row; NaN equals nothing. *)
Definition seg_class_eq (a b : option Point) : bool :=
  match a, b with
  | Some p, Some q => String.eqb (seg_class p) (seg_class q)
  | _, _ => false
  end.

(** The row-wise test of [_get_segmented_mesh_info]. *)
Definition same_class (points : list Point) (m : Mesh) : bool :=
  seg_class_eq (merged_vertex points (id_v1 m)) (merged_vertex points (id_v2 m))
  && seg_class_eq (merged_vertex points (id_v2 m)) (merged_vertex points (id_v3 m)).

(** The attributes of one vertex of a face: [id_v<k>] and the merged
    position, normal and colour columns. *)
Record FaceVertex : Type := MkFaceVertex {
  vid : nat;
  vpos : vec3;
  vnormal : vec3;
  vrgb : color
}.

(** A row of the table returned by [_get_segmented_mesh_info]; [idx] is its
    index label. *)
Record MeshInfo : Type := MkMeshInfo {
  idx : nat;
  v1 : FaceVertex;
  v2 : FaceVertex;
  v3 : FaceVertex;
  face_class : string
}.

Definition face_vertex (id : nat) (p : Point) : FaceVertex :=
  MkFaceVertex id (pos p) (normal p) (rgb p).

(** The merged row of face [i], with [seg_class = seg_class_v1]. *)
Definition merged_row (points : list Point) (i : nat) (m : Mesh) : option MeshInfo :=
  match merged_vertex points (id_v1 m), merged_vertex points (id_v2 m),
        merged_vertex points (id_v3 m) with
  | Some p1, Some p2, Some p3 =>
      Some (MkMeshInfo i (face_vertex (id_v1 m) p1) (face_vertex (id_v2 m) p2)
                       (face_vertex (id_v3 m) p3) (seg_class p1))
  | _, _, _ => None
  end.

(** [_get_segmented_mesh_info]: the three left merges, the row-wise test
    and, when it holds on all rows, the column [seg_class = seg_class_v1]. *)
Definition _get_segmented_mesh_info (points : list Point) (meshes : list Mesh)
    : result (list MeshInfo) :=
  if forallb (same_class points) meshes then
    mapM (fun im =>
            match merged_row points (fst im) (snd im) with
            | Some row => Ok row
            | None => Raise (KeyError "seg_class_v1")
            end)
         (imap (fun i m => (i, m)) meshes)
  else
    Raise (NotImplementedError
             "Way to handle mesh faces with vertices of different semantic class has not been implemented, not possible to caluclate WWR").

(** The columns face_normal_x, face_normal_y and face_normal_z of a row of
    the face table: three numbers, or nan in the three of them.
    [_add_triangle_face_normals] divides each face normal by its norm; the
    normal of a face of zero area is the zero vector, its norm is 0, and
    numpy's 0/0 warns and stores nan in the three columns. *)
Inductive normal_columns : Type :=
| FiniteNormal (n : vec3)
| NaNNormal.

Definition normal_x (n : normal_columns) : npfloat :=
  match n with
  | FiniteNormal v => Finite (vx v)
  | NaNNormal => NaN
  end.

Definition normal_y (n : normal_columns) : npfloat :=
  match n with
  | FiniteNormal v => Finite (vy v)
  | NaNNormal => NaN
  end.

Definition normal_z (n : normal_columns) : npfloat :=
  match n with
  | FiniteNormal v => Finite (vz v)
  | NaNNormal => NaN
  end.

(** A row of [self._mesh_df] once [_add_triangle_face_normals] has added the
    columns face_normal_x, face_normal_y, face_normal_z ([face_normal], the
    unit normal) and [face_normal_magnitude].  The two are data of the row:
    their computation divides by a square root. *)
Record MeshRow : Type := MkMeshRow {
  info : MeshInfo;
  face_normal : normal_columns;
  face_normal_magnitude : Q
}.

(** The rows of the three face normal columns that are not nan, in order:
    what [nunique()] and the keys of [groupby] (both with [dropna=True], the
    default) are computed from. *)
Definition finite_normals (df : list MeshRow) : list vec3 :=
  omap (fun r => match face_normal r with
                 | FiniteNormal n => Some n
                 | NaNNormal => None
                 end) df.

Definition row_class (r : MeshRow) : string := face_class (info r).
Definition row_idx (r : MeshRow) : nat := idx (info r).

(** The rows of [graph_df] in [_get_connected_meshes_list]: the v1-v2 edges
    of all rows, then the v2-v3 edges, then the v3-v1 edges. *)
Definition graph_df (mesh_df_slice : list MeshRow) : Nx.edgelist :=
  map (fun r => (vid (v1 (info r)), vid (v2 (info r)))) mesh_df_slice
  ++ map (fun r => (vid (v2 (info r)), vid (v3 (info r)))) mesh_df_slice
  ++ map (fun r => (vid (v3 (info r)), vid (v1 (info r)))) mesh_df_slice.

Definition _get_connected_meshes_list (mesh_df_slice : list MeshRow) : list (gset nat) :=
  Nx.connected_components (graph_df mesh_df_slice).

Definition vec_eqb (a b : vec3) : bool :=
  Qeq_bool (vx a) (vx b) && Qeq_bool (vy a) (vy b) && Qeq_bool (vz a) (vz b).

(** [Series.nunique()] of a float column. *)
Fixpoint unique_Q (l : list Q) : list Q :=
  match l with
  | [] => []
  | q :: r => if existsb (Qeq_bool q) r then unique_Q r else q :: unique_Q r
  end.

Definition nunique (l : list Q) : nat := length (unique_Q l).

(** [DataFrame.drop_duplicates()] on the (id, x, y, z) rows: the first of
    equal rows is kept. *)
Fixpoint drop_duplicates_from (seen rows : list (nat * vec3)) : list (nat * vec3) :=
  match rows with
  | [] => []
  | r :: rest =>
      if existsb (fun s => Nat.eqb (fst s) (fst r) && vec_eqb (snd s) (snd r)) seen
      then drop_duplicates_from seen rest
      else r :: drop_duplicates_from (r :: seen) rest
  end.

Definition drop_duplicates (rows : list (nat * vec3)) : list (nat * vec3) :=
  drop_duplicates_from [] rows.

(** [np.min(a, axis=0)] and [np.max(a, axis=0)] of an (n, 3) array. *)
Definition np_min_axis0 (a : list vec3) : result vec3 :=
  try! mx := np_min_Q (map vx a) in
  try! my := np_min_Q (map vy a) in
  try! mz := np_min_Q (map vz a) in
  Ok (V3 mx my mz).

Definition np_max_axis0 (a : list vec3) : result vec3 :=
  try! mx := np_max_Q (map vx a) in
  try! my := np_max_Q (map vy a) in
  try! mz := np_max_Q (map vz a) in
  Ok (V3 mx my mz).

(** [np.mean(domain, axis=1)]. *)
Definition domain_mean (d : box) : vec3 :=
  V3 ((vx (lo d) + vx (hi d)) / 2) ((vy (lo d) + vy (hi d)) / 2)
     ((vz (lo d) + vz (hi d)) / 2).

(** *** class BuildingWall *)

Record BuildingWall : Type := MkBuildingWall {
  wall_mesh_df : list MeshRow;
  wall_points : list (nat * vec3);
  domain : box;
  center : vec3;
  direction : normal_columns;
  area : Q;
  wall_wwr : option npfloat
}.

(** The (id, x, y, z) rows of the three vertices, concatenated. *)
Definition gathered_vertices (wall_mesh_df : list MeshRow) : list (nat * vec3) :=
  drop_duplicates
    (map (fun r => (vid (v1 (info r)), vpos (v1 (info r)))) wall_mesh_df
     ++ map (fun r => (vid (v2 (info r)), vpos (v2 (info r)))) wall_mesh_df
     ++ map (fun r => (vid (v3 (info r)), vpos (v3 (info r)))) wall_mesh_df).

(** [BuildingWall.__init__(wall_mesh_df)]; [wwr] is not set yet.  [nunique()]
    counts the values of a column that are not nan; [direction] is the three
    columns of the first row as they are. *)
Definition BuildingWall_init (wall_mesh_df : list MeshRow) : result BuildingWall :=
  if negb ((nunique (map vx (finite_normals wall_mesh_df)) =? 1)%nat)
     || negb ((nunique (map vy (finite_normals wall_mesh_df)) =? 1)%nat)
     || negb ((nunique (map vz (finite_normals wall_mesh_df)) =? 1)%nat)
  then Raise (RuntimeError
                "`mesh_df` passe to BuildingWall.__inti__ did not contain meshes facing only one direction")
  else
    let points := gathered_vertices wall_mesh_df in
    try! mins := np_min_axis0 (map snd points) in
    try! maxs := np_max_axis0 (map snd points) in
    let domain := Box mins maxs in
    let center := domain_mean domain in
    match wall_mesh_df with
    | [] => Raise (IndexError "index 0 is out of bounds for axis 0 with size 0")
    | first :: _ =>
        let direction := face_normal first in
        let area := (np_sum (map face_normal_magnitude wall_mesh_df) / 2)%Q in
        Ok (MkBuildingWall wall_mesh_df points domain center direction area None)
    end.

(** [BuildingWall.set_wwr(windows_area)]: a division of numpy scalars. *)
Definition set_wwr (wall : BuildingWall) (windows_area : Q) : BuildingWall :=
  MkBuildingWall (wall_mesh_df wall) (wall_points wall) (domain wall) (center wall)
                 (direction wall) (area wall)
                 (Some (np_divide windows_area (area wall))).

(** *** class Segmented3DModel *)

Record Segmented3DModel : Type := MkSegmented3DModel {
  _points : list Point;
  _mesh_df : list MeshRow;
  _window_graphs : list (gset nat);
  _building_walls : list BuildingWall
}.

Definition is_class (cls : string) (r : MeshRow) : bool :=
  String.eqb (row_class r) cls.

(** [_get_all_wall_area]; a nan differs from 0, so that a wall row whose
    normal is nan is one of [side_walls]. *)
Definition _get_all_wall_area (mesh_df : list MeshRow) : Q :=
  let normals := List.filter (is_class "wall") mesh_df in
  let cond := fun r => np_ne (normal_x (face_normal r)) 0
                       || np_ne (normal_y (face_normal r)) 0 in
  let side_walls := List.filter cond normals in
  (np_sum (map face_normal_magnitude side_walls) / 2)%Q.

(** [_get_all_roof_area]; [nan >= 0] is False. *)
Definition _get_all_roof_area (mesh_df : list MeshRow) : Q :=
  let normals := List.filter (is_class "roof") mesh_df in
  let cond := fun r => np_ge (normal_z (face_normal r)) 0 in
  let roof_top := List.filter cond normals in
  (np_sum (map face_normal_magnitude roof_top) / 2)%Q.

(** [self._points.loc[nodes, ["x", "y", "z"]]]: a label that is not in the
    index raises [KeyError]. *)
Definition points_loc (points : list Point) (nodes : list nat) : result (list vec3) :=
  mapM (fun n => match points !! n with
                 | Some p => Ok (pos p)
                 | None => Raise (KeyError "not in index")
                 end) nodes.

(** [_get_window_area_from_component_graph]: the largest of the products of
    two of the three extents of the bounding box. *)
Definition _get_window_area_from_component_graph (points : list Point)
    (graph : gset nat) : result Q :=
  let nodes := elements graph in
  try! node_locations := points_loc points nodes in
  try! mins := np_min_axis0 node_locations in
  try! maxs := np_max_axis0 node_locations in
  let mx := (vx maxs - vx mins)%Q in
  let my := (vy maxs - vy mins)%Q in
  let mz := (vz maxs - vz mins)%Q in
  np_max_Q [ (mx * my)%Q; (mx * mz)%Q; (my * mz)%Q ].

(** [_get_all_window_area]. *)
Definition _get_all_window_area (points : list Point) (window_graphs : list (gset nat))
    : result Q :=
  try! window_areas :=
    mapM (_get_window_area_from_component_graph points) window_graphs in
  Ok (np_sum window_areas).

(** The cached property [wwr]: a division of numpy scalars. *)
Definition wwr (model : Segmented3DModel) : result npfloat :=
  let wall_area := _get_all_wall_area (_mesh_df model) in
  try! windows_area := _get_all_window_area (_points model) (_window_graphs model) in
  Ok (np_divide windows_area wall_area).

(** The three-way uniqueness key of [groupby]: the triple of the face
    normal columns, compared column by column; nan equals nothing, itself
    included. *)
Definition same_direction (a b : normal_columns) : bool :=
  match a, b with
  | FiniteNormal x, FiniteNormal y => vec_eqb x y
  | _, _ => false
  end.

Definition direction_leb (a b : vec3) : bool :=
  if Qeq_bool (vx a) (vx b) then
    if Qeq_bool (vy a) (vy b) then Qle_bool (vz a) (vz b)
    else Qle_bool (vy a) (vy b)
  else Qle_bool (vx a) (vx b).

(** The distinct keys, and their sorting ([groupby] sorts the group keys). *)
Fixpoint distinct_directions (l : list vec3) : list vec3 :=
  match l with
  | [] => []
  | k :: r =>
      if existsb (vec_eqb k) r then distinct_directions r
      else k :: distinct_directions r
  end.

Fixpoint insert_direction (k : vec3) (sorted : list vec3) : list vec3 :=
  match sorted with
  | [] => [k]
  | k' :: rest =>
      if direction_leb k k' then k :: sorted else k' :: insert_direction k rest
  end.

Definition sort_directions (l : list vec3) : list vec3 :=
  fold_right insert_direction [] l.

Definition group_keys (df : list MeshRow) : list vec3 :=
  sort_directions (distinct_directions (finite_normals df)).

(** [df.groupby(["face_normal_x", "face_normal_y", "face_normal_z"])]: one
    group per distinct key, the rows of a group in their order in [df].
    With [dropna=True], the default, a row that has nan in a key column gives
    no key and is in no group. *)
Definition groupby_face_normal (df : list MeshRow) : list (list MeshRow) :=
  map (fun k => List.filter
                  (fun r => same_direction (face_normal r) (FiniteNormal k)) df)
      (group_keys df).

(** The filter of [_get_building_walls]: wall class, and a normal that is
    not purely vertical; a nan differs from 1 and from -1. *)
Definition is_vertical_wall (r : MeshRow) : bool :=
  is_class "wall" r
  && np_ne (normal_z (face_normal r)) 1
  && np_ne (normal_z (face_normal r)) (-1).

(** [mask]: the rows of the group whose three vertex ids are nodes of the
    component. *)
Definition all_vertices_in (nodes : gset nat) (r : MeshRow) : bool :=
  bool_decide (vid (v1 (info r)) ∈ nodes)
  && bool_decide (vid (v2 (info r)) ∈ nodes)
  && bool_decide (vid (v3 (info r)) ∈ nodes).

(** The body of the loop over the groups. *)
Definition walls_of_group (group : list MeshRow) : result (list BuildingWall) :=
  let connected_components := _get_connected_meshes_list group in
  if (length connected_components =? 1)%nat then
    try! wall := BuildingWall_init group in
    Ok [wall]
  else
    mapM (fun component =>
            let component_mesh_df := List.filter (all_vertices_in component) group in
            BuildingWall_init component_mesh_df)
         connected_components.

Definition _get_building_walls (mesh_df : list MeshRow) : result (list BuildingWall) :=
  let wall_df := List.filter is_vertical_wall mesh_df in
  try! walls := mapM walls_of_group (groupby_face_normal wall_df) in
  Ok (concat walls).

(** A row of [windows_mesh_edges]: id_v1, id_v2 and the two positions. *)
Record WindowEdge : Type := MkWindowEdge {
  edge_id_v1 : nat;
  edge_id_v2 : nat;
  edge_p1 : vec3;
  edge_p2 : vec3
}.

Definition windows_mesh_edges (mesh_df : list MeshRow) : list WindowEdge :=
  let windows_mesh_df := List.filter (is_class "window") mesh_df in
  map (fun r => MkWindowEdge (vid (v1 (info r))) (vid (v2 (info r)))
                             (vpos (v1 (info r))) (vpos (v2 (info r)))) windows_mesh_df
  ++ map (fun r => MkWindowEdge (vid (v2 (info r))) (vid (v3 (info r)))
                                (vpos (v2 (info r))) (vpos (v3 (info r)))) windows_mesh_df
  ++ map (fun r => MkWindowEdge (vid (v3 (info r))) (vid (v1 (info r)))
                                (vpos (v3 (info r))) (vpos (v1 (info r)))) windows_mesh_df.

(** The three points of the probe plane of a wall whose direction is
    [wall_direction]. *)
Definition probe_plane (wall : BuildingWall) (wall_direction : vec3) : vec3 * vec3 * vec3 :=
  let plane_vector_1 := vsub (hi (domain wall)) (center wall) in
  let plane_vector_2 := cross plane_vector_1 wall_direction in
  let plane_point_1 := hi (domain wall) in
  let plane_point_2 := center wall in
  let plane_point_3 := vadd (center wall) plane_vector_2 in
  (plane_point_1, plane_point_2, plane_point_3).

(** The ids of the two endpoints of the edges that the mask selects. *)
Definition wall_nodes_of (edges : list WindowEdge) (intersecting_edges : list bool)
    : gset nat :=
  list_to_set
    (map edge_id_v1 (mask_select edges intersecting_edges)
     ++ map edge_id_v2 (mask_select edges intersecting_edges)).

(** [_get_windows_on_wall].  When the direction of the wall is nan the
    cross product [plane_vector_2], the third plane point and with them the
    normal and [d] of the plane are nan: in [find_if_line_and_plane_intersect]
    no edge is close to the plane ([np.isclose(nan, 0)] is False), every [t]
    is nan, neither [t < 0] nor [t > 1] holds, and every edge is reported. *)
Definition _get_windows_on_wall (mesh_df : list MeshRow) (window_graphs : list (gset nat))
    (wall : BuildingWall) : result (list (gset nat)) :=
  let edges := windows_mesh_edges mesh_df in
  try! intersecting_edges :=
    match direction wall with
    | FiniteNormal wall_direction =>
        find_if_line_and_plane_intersect
          (map (fun e => (edge_p1 e, edge_p2 e)) edges)
          (probe_plane wall wall_direction) (domain wall)
    | NaNNormal => Ok (map (fun _ => true) edges)
    end in
  let wall_nodes := wall_nodes_of edges intersecting_edges in
  Ok (List.filter (fun window => (0 <? size (wall_nodes ∩ window))%nat) window_graphs).

(** The body of the loop of [_set_wwr_per_wall] for one wall. *)
Definition set_wwr_of_wall (points : list Point) (mesh_df : list MeshRow)
    (window_graphs : list (gset nat)) (wall : BuildingWall) : result BuildingWall :=
  try! windows_subgraph_list := _get_windows_on_wall mesh_df window_graphs wall in
  try! windows_area :=
    mapM (_get_window_area_from_component_graph points) windows_subgraph_list in
  Ok (set_wwr wall (np_sum windows_area)).

Definition _set_wwr_per_wall (points : list Point) (mesh_df : list MeshRow)
    (window_graphs : list (gset nat)) (walls : list BuildingWall)
    : result (list BuildingWall) :=
  mapM (set_wwr_of_wall points mesh_df window_graphs) walls.

(** The last four statements of [Segmented3DModel.__init__], from the face
    table with its normals on. *)
Definition init_from_mesh_df (points : list Point) (mesh_df : list MeshRow)
    : result Segmented3DModel :=
  let windows_df := List.filter (is_class "window") mesh_df in
  let window_graphs := _get_connected_meshes_list windows_df in
  try! building_walls := _get_building_walls mesh_df in
  try! building_walls := _set_wwr_per_wall points mesh_df window_graphs building_walls in
  Ok (MkSegmented3DModel points mesh_df window_graphs building_walls).

(** The first statements of [Segmented3DModel.__init__], up to the vertex
    classes. *)
Definition classified_points (seg_map : segmentation_map_t) (points : list Point)
    : result (list Point) :=
  let seg_map := pop_background seg_map in
  try! points := _fix_vertex_colors seg_map points in
  Ok (_assign_classes seg_map points).

(** Specification-level notions for the wall partition: the wall-class
    rows that [_get_building_walls] leaves out (a purely vertical normal),
    and the tables that the loop body hands to [BuildingWall]. *)
Definition is_horizontal_wall (r : MeshRow) : bool :=
  is_class "wall" r
  && (negb (np_ne (normal_z (face_normal r)) 1)
      || negb (np_ne (normal_z (face_normal r)) (-1))).

Definition wall_tables_of_group (group : list MeshRow) : list (list MeshRow) :=
  let connected_components := _get_connected_meshes_list group in
  if (length connected_components =? 1)%nat then [group]
  else map (fun component => List.filter (all_vertices_in component) group)
           connected_components.

(** *** A scene with two coplanar wall patches and one window

    Two unit squares in the plane x = 0 that share no vertex (y in [0, 1] and
    y in [2, 3]), each made of two wall triangles of unit normal (1, 0, 0),
    and one window triangle in the plane z = 1/4 that passes through the
    plane x = 0 between them (y in [5/4, 7/4]). *)
Definition scene_wall_rgb : color := (128, 128, 128)%Z.
Definition scene_window_rgb : color := (0, 0, 255)%Z.

Definition scene_points : list Point :=
  [ MkPoint (V3 0 0 0) (V3 1 0 0) scene_wall_rgb "wall";
    MkPoint (V3 0 1 0) (V3 1 0 0) scene_wall_rgb "wall";
    MkPoint (V3 0 1 1) (V3 1 0 0) scene_wall_rgb "wall";
    MkPoint (V3 0 0 1) (V3 1 0 0) scene_wall_rgb "wall";
    MkPoint (V3 0 2 0) (V3 1 0 0) scene_wall_rgb "wall";
    MkPoint (V3 0 3 0) (V3 1 0 0) scene_wall_rgb "wall";
    MkPoint (V3 0 3 1) (V3 1 0 0) scene_wall_rgb "wall";
    MkPoint (V3 0 2 1) (V3 1 0 0) scene_wall_rgb "wall";
    MkPoint (V3 (-1 # 10) (5 # 4) (1 # 4)) (V3 0 0 1) scene_window_rgb "window";
    MkPoint (V3 (1 # 10) (5 # 4) (1 # 4)) (V3 0 0 1) scene_window_rgb "window";
    MkPoint (V3 (1 # 10) (7 # 4) (1 # 4)) (V3 0 0 1) scene_window_rgb "window" ].

Definition scene_meshes : list Mesh :=
  [ MkMesh 0 1 2; MkMesh 0 2 3; MkMesh 4 5 6; MkMesh 4 6 7; MkMesh 8 9 10 ].

(** The unit normal and the magnitude of cross(v2 - v1, v3 - v1) of each
    face of the scene. *)
Definition scene_face_normals : list (vec3 * Q) :=
  [ (V3 1 0 0, 1%Q); (V3 1 0 0, 1%Q); (V3 1 0 0, 1%Q); (V3 1 0 0, 1%Q);
    (V3 0 0 1, 1 # 10) ].

Definition scene_mesh_df : list MeshRow :=
  match _get_segmented_mesh_info scene_points scene_meshes with
  | Ok rows => zip_with (fun row nm => MkMeshRow row (FiniteNormal (fst nm)) (snd nm))
                        rows scene_face_normals
  | Raise _ => []
  end.

Definition scene_window : gset nat := {[ 8%nat; 9%nat; 10%nat ]}.

(** The scene without its walls: the window row alone. *)
Definition scene_windows_only : list MeshRow :=
  List.filter (is_class "window") scene_mesh_df.

(** The quotient of numpy scalars by a zero divisor. *)
Definition quotient_by_zero (numerator : Q) : npfloat :=
  match (numerator ?= 0)%Q with
  | Eq => NaN
  | Gt => PosInf
  | Lt => NegInf
  end.

(** A model of the window alone, and a wall of area 0. *)
Definition windows_only_model : Segmented3DModel :=
  MkSegmented3DModel scene_points scene_windows_only [scene_window] [].

Definition empty_wall : BuildingWall :=
  MkBuildingWall [] [] (Box (V3 0 0 0) (V3 0 0 0)) (V3 0 0 0)
                 (FiniteNormal (V3 1 0 0)) 0 None.

(** Per-vertex forms of [_assign_classes]: one pass of the loop on one row,
    and the whole loop on one row. *)
Definition assign_class_row (p : Point) (entry : string * ClassInfo) : Point :=
  let '(cls, info) := entry in
  let '(red, green, blue) := RGB info in
  let '(r, g, b) := rgb p in
  if (r =? red)%Z && (g =? green)%Z && (b =? blue)%Z
  then set_seg_class p cls else p.

Definition classify_row (seg_map : segmentation_map_t) (p : Point) : Point :=
  fold_left assign_class_row seg_map (set_seg_class p "").

(** A face with two wall vertices and one window vertex of the scene. *)
Definition scene_mixed_face : Mesh := MkMesh 0 1 8.

(** The palette of the scene, with a background entry. *)
Definition scene_segmentation_map : segmentation_map_t :=
  [ ("background", MkClassInfo 0 (0, 0, 0)%Z);
    ("wall", MkClassInfo 1 scene_wall_rgb);
    ("window", MkClassInfo 2 scene_window_rgb) ].

(** Two vertices with noisy colours. *)
Definition noisy_points : list Point :=
  [ MkPoint (V3 0 0 0) (V3 1 0 0) (120, 130, 125)%Z "";
    MkPoint (V3 0 1 0) (V3 1 0 0) (3, 2, 250)%Z "" ].

(** The three vertex positions of a face. *)
Definition row_vertices (r : MeshRow) : list vec3 :=
  [ vpos (v1 (info r)); vpos (v2 (info r)); vpos (v3 (info r)) ].

(** The two faces of the first wall patch of the scene. *)
Definition scene_first_patch : list MeshRow := take 2 scene_mesh_df.

(** The three vertex ids of a face. *)
Definition row_vertex_ids (r : MeshRow) : list nat :=
  [ vid (v1 (info r)); vid (v2 (info r)); vid (v3 (info r)) ].

(** A face normal of length one. *)
Definition unit_normal (r : MeshRow) : Prop :=
  match face_normal r with
  | FiniteNormal n => (vx n * vx n + vy n * vy n + vz n * vz n == 1)%Q
  | NaNNormal => False
  end.

(** Specification-level notions for the wall partition: a wall-class row
    whose face normal columns are nan, which is the row of a wall face of zero
    area, and a table made of the first wall patch of the scene and of such a
    face (its second and third vertex are the same vertex). *)
Definition has_finite_normal (r : MeshRow) : bool :=
  match face_normal r with
  | FiniteNormal _ => true
  | NaNNormal => false
  end.

Definition is_degenerate_wall (r : MeshRow) : bool :=
  is_class "wall" r && negb (has_finite_normal r).

Definition degenerate_wall_face : MeshRow :=
  MkMeshRow
    (MkMeshInfo 5
       (MkFaceVertex 0 (V3 0 0 0) (V3 1 0 0) scene_wall_rgb)
       (MkFaceVertex 1 (V3 0 1 0) (V3 1 0 0) scene_wall_rgb)
       (MkFaceVertex 1 (V3 0 1 0) (V3 1 0 0) scene_wall_rgb)
       "wall")
    NaNNormal 0.

Definition degenerate_mesh_df : list MeshRow :=
  scene_first_patch ++ [degenerate_wall_face].

(** The largest of the areas of the three faces of a box. *)
Definition largest_face (b : box) : Q :=
  let mx := (vx (hi b) - vx (lo b))%Q in
  let my := (vy (hi b) - vy (lo b))%Q in
  let mz := (vz (hi b) - vz (lo b))%Q in
  Qmax (Qmax (mx * my) (mx * mz)) (my * mz).

(** The scene as a model, before its walls are built. *)
Definition scene_model : Segmented3DModel :=
  MkSegmented3DModel scene_points scene_mesh_df [scene_window] [].

(** The first statements of [_add_triangle_face_normals]: row i of [AB],
    [AC], [A_normal], [B_normal] and [C_normal], and the call of
    [triangle_face_normals].  What follows in the source, the norm of each
    normal and the division by it, takes a square root. *)
Definition triangle_of_row (row : MeshInfo) : triangle :=
  Triangle (vsub (vpos (v2 row)) (vpos (v1 row)))
           (vsub (vpos (v3 row)) (vpos (v1 row)))
           (vnormal (v1 row)) (vnormal (v2 row)) (vnormal (v3 row)).

Definition face_normals_of_mesh_df (mesh_df : list MeshInfo) : result (list vec3) :=
  triangle_face_normals (map triangle_of_row mesh_df).

End Segmented.

(** ** blender_scripts/dataset.py: the segmentation mapping *)

Module Dataset.

(** A value returned by [json.load]. *)
#[warnings="-register-all"]
Inductive json : Type :=
| JNull
| JBool (b : bool)
| JInt (z : Z)
| JFloat (q : Q)
| JStr (s : string)
| JList (l : list json)
| JDict (d : list (string * json)).

(** The errors of [_read_segmentation_info]: a failed [assert] with the
    fixed part of its message, a missing key, a value that is not
    subscriptable by a key. *)
Inductive error : Type :=
| AssertionError (msg : string)
| KeyError (key : string)
| TypeError (msg : string).

Inductive outcome (A : Type) : Type :=
| Return (a : A)
| Fail (e : error).

Arguments Return {A} a.
Arguments Fail {A} e.

Definition and_then {A B : Type} (r : outcome A) (k : A → outcome B) : outcome B :=
  match r with
  | Return a => k a
  | Fail e => Fail e
  end.

(** [assert cond, msg]. *)
Definition assert (cond : bool) (msg : string) : outcome unit :=
  if cond then Return tt else Fail (AssertionError msg).

(** [d[key]] on a dict given by its items. *)
Fixpoint dict_get {V : Type} (d : list (string * V)) (key : string) : option V :=
  match d with
  | [] => None
  | (k, v) :: rest => if String.eqb k key then Some v else dict_get rest key
  end.

(** [d[key] = value]: a key that is present keeps its place. *)
Fixpoint dict_set {V : Type} (d : list (string * V)) (key : string) (value : V)
    : list (string * V) :=
  match d with
  | [] => [(key, value)]
  | (k, v) :: rest =>
      if String.eqb k key then (k, value) :: rest
      else (k, v) :: dict_set rest key value
  end.

(** [val_dict[key]] on a json value. *)
Definition getitem (val_dict : json) (key : string) : outcome json :=
  match val_dict with
  | JDict d =>
      match dict_get d key with
      | Some v => Return v
      | None => Fail (KeyError key)
      end
  | JList _ => Fail (TypeError "list indices must be integers or slices, not str")
  | JStr _ => Fail (TypeError "string indices must be integers, not 'str'")
  | _ => Fail (TypeError "object is not subscriptable")
  end.

(** [isinstance(v, int)]; [bool] is a subclass of [int]. *)
Definition isinstance_int (v : json) : bool :=
  match v with
  | JInt _ | JBool _ => true
  | _ => false
  end.

(** The integer that an [int] is as a member of a set and as a dividend;
    [True == 1] and [False == 0]. *)
Definition int_value (v : json) : Z :=
  match v with
  | JInt z => z
  | JBool true => 1
  | _ => 0
  end.

(** [isinstance(v, tuple) | isinstance(v, list)]. *)
Definition isinstance_list (v : json) : bool :=
  match v with
  | JList _ => true
  | _ => false
  end.

Definition list_of (v : json) : list json :=
  match v with
  | JList l => l
  | _ => []
  end.

(** An entry of the returned mapping: ["ID"] and the normalised ["RGB"]. *)
Record ClassEntry : Type := MkClassEntry {
  entry_ID : json;
  entry_RGB : Q * Q * Q
}.

(** The state of the loop. *)
Record state : Type := MkState {
  return_mapping : list (string * ClassEntry);
  id_set : gset Z;
  total_num_ids : nat
}.

(** The three asserts of [for i in range(3)]. *)
Definition assert_channels (class_rgb : list json) : outcome unit :=
  match class_rgb with
  | [r; g; b] =>
      and_then (assert (isinstance_int r)
                  "RGB code must have three integer values.") (fun _ =>
      and_then (assert (isinstance_int g)
                  "RGB code must have three integer values.") (fun _ =>
      assert (isinstance_int b) "RGB code must have three integer values."))
  | _ => Return tt
  end.

(** The channels divided by 255, as exact rationals. *)
Definition normalised (class_rgb : list json) : Q * Q * Q :=
  (inject_Z (int_value (nth 0 class_rgb JNull)) / 255,
   inject_Z (int_value (nth 1 class_rgb JNull)) / 255,
   inject_Z (int_value (nth 2 class_rgb JNull)) / 255)%Q.

(** The body of [for key_1, val_dict in seg_mapping.items()]. *)
Definition loop_body (st : state) (item : string * json) : outcome state :=
  let '(key_1, val_dict) := item in
  and_then (getitem val_dict "ID") (fun class_id =>
  and_then (getitem val_dict "RGB") (fun class_rgb =>
  and_then (assert (isinstance_int class_id) "ID must be an integer.") (fun _ =>
  let id_set := id_set st ∪ {[ int_value class_id ]} in
  let total_num_ids := S (total_num_ids st) in
  and_then (assert (isinstance_list class_rgb) "RGB code must be tuple or list.") (fun _ =>
  and_then (assert (length (list_of class_rgb) =? 3)%nat
              "RGB code must have three values.") (fun _ =>
  and_then (assert_channels (list_of class_rgb)) (fun _ =>
  let entry := MkClassEntry class_id (normalised (list_of class_rgb)) in
  Return (MkState (dict_set (return_mapping st) key_1 entry) id_set total_num_ids))))))).

Fixpoint loop (items : list (string * json)) (st : state) : outcome state :=
  match items with
  | [] => Return st
  | item :: rest => and_then (loop_body st item) (loop rest)
  end.

(** [_read_segmentation_info], from the parsed file; the warnings about
    unused keys change nothing. *)
Definition _read_segmentation_info (seg_mapping : list (string * json))
    : outcome (list (string * ClassEntry)) :=
  and_then (loop seg_mapping (MkState [] ∅ 0)) (fun st =>
  and_then (assert (size (id_set st) =? total_num_ids st)%nat
              "Invalid class IDs. All classes must have unique IDs.") (fun _ =>
  Return (return_mapping st))).

(** Specification-level notion: a well-formed class of the mapping and the
    entry it yields. *)
Definition well_formed (val_dict : json) (entry : ClassEntry) : Prop :=
  ∃ d class_id r g b,
    val_dict = JDict d
    ∧ dict_get d "ID" = Some class_id
    ∧ isinstance_int class_id = true
    ∧ dict_get d "RGB" = Some (JList [r; g; b])
    ∧ isinstance_int r = true ∧ isinstance_int g = true ∧ isinstance_int b = true
    ∧ entry = MkClassEntry class_id
                (inject_Z (int_value r) / 255, inject_Z (int_value g) / 255,
                 inject_Z (int_value b) / 255)%Q.

(** The state of the loop after one more well-formed class. *)
Definition add_class (st : state) (key : string) (entry : ClassEntry) : state :=
  MkState (dict_set (return_mapping st) key entry)
          (id_set st ∪ {[ int_value (entry_ID entry) ]})
          (S (total_num_ids st)).

(** A mapping that yields the expected mapping of [test_read_segmentation]. *)
Definition mock_segmentation_mapping : list (string * json) :=
  [ ("background", JDict [("ID", JInt 0); ("RGB", JList [JInt 0; JInt 0; JInt 0])]);
    ("wall", JDict [("ID", JInt 1); ("RGB", JList [JInt 0; JInt 255; JInt 255])]);
    ("window", JDict [("ID", JInt 2); ("RGB", JList [JInt 50; JInt 10; JInt 75])]);
    ("roof", JDict [("ID", JInt 3); ("RGB", JList [JInt 125; JInt 200; JInt 20])]);
    ("other_class", JDict [("ID", JInt 4); ("RGB", JList [JInt 255; JInt 0; JInt 0])]) ].

(** Two classes whose IDs are equal as integers: [True == 1]. *)
Definition clashing_segmentation_mapping : list (string * json) :=
  [ ("wall", JDict [("ID", JBool true); ("RGB", JList [JInt 0; JInt 255; JInt 255])]);
    ("window", JDict [("ID", JInt 1); ("RGB", JList [JInt 50; JInt 10; JInt 75])]) ].

End Dataset.

(** ** The record written by [write_out_building_wall_wwr] *)

Module WallReport.

Import MeshUtils Segmented.

(** What building the record can raise: an error of the model, or the
    missing attribute of a wall whose wwr has not been set. *)
Inductive report_exn : Type :=
| ModelError (e : exn)
| AttributeError (msg : string).

(** A value of [json_dict]. *)
Inductive report_entry : Type :=
| Overall (wwr : npfloat)
| Wall (center : list Q) (direction : list npfloat) (domain : list (list Q))
       (wwr : npfloat) (area : Q).

(** [v.tolist()] of a vector, of the direction of a wall, and of the 3x2
    array of a domain. *)
Definition tolist (v : vec3) : list Q := [vx v; vy v; vz v].

Definition direction_tolist (n : normal_columns) : list npfloat :=
  [normal_x n; normal_y n; normal_z n].

Definition domain_tolist (d : box) : list (list Q) :=
  [ [vx (lo d); vx (hi d)]; [vy (lo d); vy (hi d)]; [vz (lo d); vz (hi d)] ].

(** The dict of one wall; [wall.wwr] exists once [set_wwr] has run. *)
Definition wall_entry (wall : BuildingWall) : report_exn + report_entry :=
  match wall_wwr wall with
  | Some ratio =>
      inr (Wall (tolist (center wall)) (direction_tolist (direction wall))
                (domain_tolist (domain wall)) ratio (area wall))
  | None => inl (AttributeError "'BuildingWall' object has no attribute 'wwr'")
  end.

(** [for i, wall in enumerate(self._building_walls)], from index [i]; the
    key [f"{i}"] is the decimal numeral of [i]. *)
Fixpoint report_walls (i : nat) (walls : list BuildingWall)
    (json_dict : list (string * report_entry))
    : report_exn + list (string * report_entry) :=
  match walls with
  | [] => inr json_dict
  | wall :: rest =>
      match wall_entry wall with
      | inl e => inl e
      | inr entry => report_walls (S i) rest (Dataset.dict_set json_dict (pretty i) entry)
      end
  end.

(** [write_out_building_wall_wwr] up to the [json_dict] that it dumps; the
    directory and the file are created from it by [json.dump]. *)
Definition write_out_json_dict (model : Segmented3DModel)
    : report_exn + list (string * report_entry) :=
  match wwr model with
  | Raise e => inl (ModelError e)
  | Ok ratio =>
      report_walls 0 (_building_walls model)
                   (Dataset.dict_set [] "overall" (Overall ratio))
  end.

(** Specification-level notions: a string of decimal digits, and the items
    of the walls from index [i]. *)
Definition is_digit (c : Ascii.ascii) : bool :=
  existsb (Ascii.eqb c)
          ["0"; "1"; "2"; "3"; "4"; "5"; "6"; "7"; "8"; "9"]%char.

Fixpoint all_digits (s : string) : bool :=
  match s with
  | EmptyString => true
  | String c rest => is_digit c && all_digits rest
  end.

Fixpoint wall_items (i : nat) (walls : list BuildingWall) (ratios : list npfloat)
    : list (string * report_entry) :=
  match walls, ratios with
  | wall :: walls', ratio :: ratios' =>
      (pretty i, Wall (tolist (center wall)) (direction_tolist (direction wall))
                      (domain_tolist (domain wall)) ratio (area wall))
      :: wall_items (S i) walls' ratios'
  | _, _ => []
  end.

(** The scene with its walls built and their ratios set. *)
Definition scene_built_model : Segmented3DModel :=
  match init_from_mesh_df scene_points scene_mesh_df with
  | Ok model => model
  | Raise _ => scene_model
  end.

End WallReport.

(** * Properties *)

(** ** Colour quantization *)

Section ColorQuantization.

Import PostProcess.

Lemma color_eqb_eq (a b : color) : color_eqb a b = true ↔ a = b.
Proof.
  destruct a as [[r1 g1] b1], b as [[r2 g2] b2]; simpl.
  rewrite !andb_true_iff, !Z.eqb_eq. split.
  - intros [[-> ->] ->]; reflexivity.
  - intros H; injection H; auto.
Qed.

Lemma sq_distance_nonneg (p c : color) : (0 ≤ sq_distance p c)%Z.
Proof. destruct p as [[? ?] ?], c as [[? ?] ?]; simpl; nia. Qed.

Lemma sq_distance_zero (p c : color) : sq_distance p c = 0%Z ↔ c = p.
Proof.
  destruct p as [[r2 g2] b2], c as [[r1 g1] b1]; simpl. split.
  - intros H.
    assert (r1 - r2 = 0)%Z by nia.
    assert (g1 - g2 = 0)%Z by nia.
    assert (b1 - b2 = 0)%Z by nia.
    f_equal; [f_equal|]; lia.
  - intros H; injection H as -> -> ->. lia.
Qed.

Lemma fold_min_le (l : list Z) (x : Z) :
  (fold_left Z.min l x ≤ x)%Z ∧ ∀ y, y ∈ l → (fold_left Z.min l x ≤ y)%Z.
Proof.
  revert x; induction l as [|a l IH]; intros x; simpl.
  - split; [lia | intros y Hy; inversion Hy].
  - destruct (IH (Z.min x a)) as [H1 H2]. split; [lia|].
    intros y Hy. apply elem_of_cons in Hy as [->|Hy]; [lia | auto].
Qed.

Lemma fold_min_in (l : list Z) (x : Z) :
  fold_left Z.min l x = x ∨ fold_left Z.min l x ∈ l.
Proof.
  revert x; induction l as [|a l IH]; intros x; simpl; [left; reflexivity|].
  destruct (IH (Z.min x a)) as [H|H].
  - rewrite H. destruct (Z.min_spec x a) as [[_ ->]|[_ ->]]; [left | right; left]; reflexivity.
  - right; right; exact H.
Qed.

Lemma first_where_Some (m : Z) (ds : list Z) :
  m ∈ ds →
  ∃ j, first_where m ds = Some j ∧ ds !! j = Some m
       ∧ ∀ i x, (i < j)%nat → ds !! i = Some x → x ≠ m.
Proof.
  induction ds as [|x r IH]; intros Hin; [inversion Hin|]. simpl.
  destruct (Z.eqb_spec x m) as [->|Hne].
  - exists 0%nat. split; [reflexivity|]. split; [reflexivity|]. intros i y Hi; lia.
  - apply elem_of_cons in Hin as [->|Hin]; [congruence|].
    destruct (IH Hin) as (j & Hj & Hl & Hfirst). exists (S j). rewrite Hj.
    repeat split; try assumption; try reflexivity.
    intros [|i] y Hi Hy; simpl in Hy.
    + injection Hy as <-; exact Hne.
    + apply (Hfirst i y); [lia | exact Hy].
Qed.

(** On a non-empty palette the closest colour exists, is a palette entry at
    least as near as every other entry, and is the first such entry. *)
Lemma closest_color_Ok (mc : list color) (p : color) :
  mc ≠ [] →
  ∃ c, closest_color mc p = Ok c ∧ c ∈ mc
       ∧ ∀ c', c' ∈ mc → (sq_distance p c ≤ sq_distance p c')%Z.
Proof.
  intros Hne. unfold closest_color.
  remember (distances mc p) as ds eqn:Hds.
  destruct ds as [|x r].
  { destruct mc; [congruence | discriminate]. }
  cbn [np_min_Z Py.bind].
  pose proof (fold_min_le r x) as [Hle1 Hle2].
  assert (Hm : fold_left Z.min r x ∈ x :: r).
  { destruct (fold_min_in r x) as [->|H]; [left | right; exact H]. }
  destruct (first_where_Some _ _ Hm) as (j & -> & Hj & _).
  rewrite Hds in Hj. unfold distances in Hj. rewrite list_lookup_fmap in Hj.
  destruct (mc !! j) as [c|] eqn:Hc; simpl in Hj; [|discriminate].
  injection Hj as Hj. exists c. split; [reflexivity|]. split.
  - eapply list_elem_of_lookup_2; eassumption.
  - intros c' Hc'. rewrite Hj.
    assert (Hin : sq_distance p c' ∈ x :: r).
    { rewrite Hds. apply list_elem_of_fmap. exists c'; split; [reflexivity | exact Hc']. }
    apply elem_of_cons in Hin as [->|Hin]; [exact Hle1 | apply Hle2; exact Hin].
Qed.

(** A colour that is a palette entry is its own closest colour. *)
Lemma closest_color_self (mc : list color) (p : color) :
  p ∈ mc → closest_color mc p = Ok p.
Proof.
  intros Hin. assert (Hne : mc ≠ []) by (intros ->; inversion Hin).
  destruct (closest_color_Ok mc p Hne) as (c & -> & _ & Hmin).
  f_equal. apply sq_distance_zero.
  pose proof (Hmin p Hin) as H. pose proof (sq_distance_nonneg p c).
  assert (sq_distance p p = 0%Z) by (apply sq_distance_zero; reflexivity). lia.
Qed.

Lemma pixel_dict_add_sound d p i k indices j :
  (k, indices) ∈ pixel_dict_add d p i → j ∈ indices →
  (∃ indices0, (k, indices0) ∈ d ∧ j ∈ indices0) ∨ (k = p ∧ j = i).
Proof.
  induction d as [|[k0 is0] rest IH]; simpl; intros Hin Hj.
  - apply list_elem_of_singleton in Hin. injection Hin as -> ->.
    apply list_elem_of_singleton in Hj. right; auto.
  - destruct (color_eqb k0 p) eqn:E.
    + apply color_eqb_eq in E as ->.
      apply elem_of_cons in Hin as [Hin|Hin].
      * injection Hin as -> ->. apply elem_of_app in Hj as [Hj|Hj].
        -- left. exists is0. split; [left | exact Hj].
        -- apply list_elem_of_singleton in Hj. right; auto.
      * left. exists indices. split; [right; exact Hin | exact Hj].
    + apply elem_of_cons in Hin as [Hin|Hin].
      * injection Hin as -> ->. left. exists is0. split; [left | exact Hj].
      * destruct (IH Hin Hj) as [(is1 & H1 & H2)|H]; [|right; exact H].
        left. exists is1. split; [right; exact H1 | exact H2].
Qed.

Lemma pixel_dict_add_keeps d p i k indices j :
  (k, indices) ∈ d → j ∈ indices →
  ∃ indices', (k, indices') ∈ pixel_dict_add d p i ∧ j ∈ indices'.
Proof.
  induction d as [|[k0 is0] rest IH]; simpl; intros Hin Hj; [inversion Hin|].
  destruct (color_eqb k0 p) eqn:E.
  - apply elem_of_cons in Hin as [Hin|Hin].
    + injection Hin as -> ->. exists (is0 ++ [i]). split; [left|].
      apply elem_of_app; left; exact Hj.
    + exists indices. split; [right; exact Hin | exact Hj].
  - apply elem_of_cons in Hin as [Hin|Hin].
    + injection Hin as -> ->. exists is0. split; [left | exact Hj].
    + destruct (IH Hin Hj) as (is1 & H1 & H2). exists is1. split; [right; exact H1 | exact H2].
Qed.

Lemma pixel_dict_add_new d p i :
  ∃ indices', (p, indices') ∈ pixel_dict_add d p i ∧ i ∈ indices'.
Proof.
  induction d as [|[k0 is0] rest IH]; simpl.
  - exists [i]. split; left.
  - destruct (color_eqb k0 p) eqn:E.
    + apply color_eqb_eq in E as ->. exists (is0 ++ [i]). split; [left|].
      apply elem_of_app; right; left.
    + destruct IH as (is1 & H1 & H2). exists is1. split; [right; exact H1 | exact H2].
Qed.

Lemma pixel_dict_loop_inv (arr rest : list color) (i : nat) (d : pixel_dict_t) :
  (∀ j c, rest !! j = Some c → arr !! (i + j)%nat = Some c) →
  dict_sound arr d → dict_covers i arr d →
  dict_sound arr (pixel_dict_loop i rest d)
  ∧ dict_covers (i + length rest) arr (pixel_dict_loop i rest d).
Proof.
  revert i d; induction rest as [|p rest IH]; intros i d Hrest Hs Hc; simpl.
  - rewrite Nat.add_0_r. split; assumption.
  - assert (Hp : arr !! i = Some p).
    { specialize (Hrest 0%nat p eq_refl). rewrite Nat.add_0_r in Hrest. exact Hrest. }
    replace (i + S (length rest))%nat with (S i + length rest)%nat by lia.
    apply IH.
    + intros j c Hj. replace (S i + j)%nat with (i + S j)%nat by lia.
      apply Hrest. exact Hj.
    + intros k indices j Hin Hj.
      destruct (pixel_dict_add_sound _ _ _ _ _ _ Hin Hj) as [(is0 & H1 & H2)|[-> ->]].
      * eapply Hs; eassumption.
      * exact Hp.
    + intros j c Hj Hl. destruct (decide (j = i)) as [->|Hne].
      * rewrite Hp in Hl. injection Hl as <-. apply pixel_dict_add_new.
      * destruct (Hc j c ltac:(lia) Hl) as (is0 & H1 & H2).
        eapply pixel_dict_add_keeps; eassumption.
Qed.

Lemma pixel_dict_spec (arr : list color) :
  dict_sound arr (pixel_dict_loop 0 arr [])
  ∧ dict_covers (length arr) arr (pixel_dict_loop 0 arr []).
Proof.
  apply (pixel_dict_loop_inv arr arr 0 []).
  - intros j c H; exact H.
  - intros k indices j Hin; inversion Hin.
  - intros j c Hj; lia.
Qed.

Lemma set_indices_length arr indices v :
  length (set_indices arr indices v) = length arr.
Proof.
  unfold set_indices. revert arr; induction indices as [|i r IH]; intros arr; simpl;
    [reflexivity|]. rewrite IH. apply length_insert.
Qed.

Lemma set_indices_lookup_in arr indices v j :
  j ∈ indices → (j < length arr)%nat → set_indices arr indices v !! j = Some v.
Proof.
  unfold set_indices. revert arr; induction indices as [|i r IH]; intros arr Hin Hlt;
    [inversion Hin|]. simpl.
  destruct (decide (j ∈ r)) as [Hr|Hr].
  - apply IH; [exact Hr | rewrite length_insert; exact Hlt].
  - apply elem_of_cons in Hin as [->|Hin]; [|contradiction].
    clear IH. assert (H : <[i:=v]> arr !! i = Some v) by (apply list_lookup_insert_eq; exact Hlt).
    revert H. generalize (<[i:=v]> arr). induction r as [|i' r IH]; intros a Ha; simpl; [exact Ha|].
    apply IH.
    + intros Hi. apply Hr. right; exact Hi.
    + rewrite list_lookup_insert_ne; [exact Ha|]. intros ->. apply Hr; left.
Qed.

Lemma set_indices_lookup_notin arr indices v j :
  j ∉ indices → set_indices arr indices v !! j = arr !! j.
Proof.
  unfold set_indices. revert arr; induction indices as [|i r IH]; intros arr Hnin; simpl;
    [reflexivity|].
  rewrite IH by (intros H; apply Hnin; right; exact H).
  apply list_lookup_insert_ne. intros ->. apply Hnin; left.
Qed.

Lemma covered_dec (d : pixel_dict_t) (j : nat) :
  (∃ k indices, (k, indices) ∈ d ∧ j ∈ indices)
  ∨ ¬ (∃ k indices, (k, indices) ∈ d ∧ j ∈ indices).
Proof.
  induction d as [|[k0 is0] rest IH].
  - right. intros (k & indices & Hin & _). inversion Hin.
  - destruct (decide (j ∈ is0)) as [Hj|Hj].
    + left. exists k0, is0. split; [left | exact Hj].
    + destruct IH as [(k & indices & Hin & H)|IH].
      * left. exists k, indices. split; [right; exact Hin | exact H].
      * right. intros (k & indices & Hin & H).
        apply elem_of_cons in Hin as [Hin|Hin].
        -- injection Hin as -> ->. contradiction.
        -- apply IH. exists k, indices. split; assumption.
Qed.

Lemma assign_loop_spec (mc : list color) (arr0 : list color) (d : pixel_dict_t) :
  mc ≠ [] → dict_sound arr0 d →
  ∀ arr, length arr = length arr0 →
  ∃ arr', assign_loop mc d arr = Ok arr' ∧ length arr' = length arr0
    ∧ ∀ j, ((∃ k indices, (k, indices) ∈ d ∧ j ∈ indices) →
              arr' !! j = nearest mc <$> arr0 !! j)
         ∧ ((¬ ∃ k indices, (k, indices) ∈ d ∧ j ∈ indices) → arr' !! j = arr !! j).
Proof.
  intros Hne. induction d as [|[k indices] rest IH]; intros Hs arr Hlen; simpl.
  - exists arr. split; [reflexivity|]. split; [exact Hlen|]. intros j. split.
    + intros (k & indices & Hin & _). inversion Hin.
    + reflexivity.
  - destruct (closest_color_Ok mc k Hne) as (c & Hc & _). rewrite Hc. simpl.
    assert (Hs' : dict_sound arr0 rest).
    { intros k' is' j Hin Hj. eapply Hs; [right; exact Hin | exact Hj]. }
    destruct (IH Hs' (set_indices arr indices c)) as (arr' & Hr & Hlen' & Hspec).
    { rewrite set_indices_length. exact Hlen. }
    exists arr'. split; [exact Hr|]. split; [exact Hlen'|]. intros j.
    destruct (Hspec j) as [Hcov Hnot]. split.
    + intros (k' & is' & Hin & Hj).
      destruct (covered_dec rest j) as [Hrc|Hrc].
      * apply Hcov. exact Hrc.
      * rewrite (Hnot Hrc).
        apply elem_of_cons in Hin as [Hin|Hin].
        -- injection Hin as -> ->.
           assert (Hk : arr0 !! j = Some k) by (eapply Hs; [left | exact Hj]).
           rewrite Hk. simpl. unfold nearest. rewrite Hc.
           apply set_indices_lookup_in; [exact Hj|].
           rewrite Hlen. eapply lookup_lt_Some; exact Hk.
        -- exfalso. apply Hrc. exists k', is'. split; assumption.
    + intros Hn. rewrite Hnot.
      * apply set_indices_lookup_notin. intros Hj. apply Hn.
        exists k, indices. split; [left | exact Hj].
      * intros (k' & is' & Hin & Hj). apply Hn. exists k', is'. split; [right; exact Hin | exact Hj].
Qed.

End ColorQuantization.

Section ColorQuantizationSpec.

Import PostProcess.

(** Quantization replaces every colour by its closest palette entry. *)
Lemma color_quantization_spec (arr mc : list color) :
  mc ≠ [] → color_quantization arr mc = Ok (map (nearest mc) arr).
Proof.
  intros Hne. unfold color_quantization.
  destruct (pixel_dict_spec arr) as [Hs Hc].
  destruct (assign_loop_spec mc arr _ Hne Hs arr eq_refl) as (arr' & -> & Hlen & Hspec).
  f_equal. apply list_eq. intros j. rewrite list_lookup_fmap.
  destruct (arr !! j) as [c|] eqn:Hj.
  - destruct (Hspec j) as [H _]. rewrite H, Hj; [reflexivity|].
    destruct (Hc j c) as (indices & H1 & H2); [eapply lookup_lt_Some; exact Hj | exact Hj|].
    exists c, indices. split; assumption.
  - simpl. apply lookup_ge_None. rewrite Hlen. apply lookup_ge_None. exact Hj.
Qed.

Lemma nearest_in_palette (mc : list color) (p : color) :
  mc ≠ [] → nearest mc p ∈ mc.
Proof.
  intros Hne. unfold nearest.
  destruct (closest_color_Ok mc p Hne) as (c & -> & Hc & _). exact Hc.
Qed.

Lemma pixel_dict_loop_nonempty (arr : list color) (i : nat) (d : pixel_dict_t) :
  arr ≠ [] ∨ d ≠ [] → pixel_dict_loop i arr d ≠ [].
Proof.
  revert i d; induction arr as [|p rest IH]; intros i d [H|H]; simpl; try congruence.
  - apply IH. right. destruct d as [|[k0 is0] d]; simpl; [discriminate|].
    destruct (color_eqb k0 p); discriminate.
  - apply IH. right. destruct d as [|[k0 is0] d]; simpl; [discriminate|].
    destruct (color_eqb k0 p); discriminate.
Qed.

(** With no reference colour the second loop fails on its first entry. *)
Lemma assign_loop_empty_palette (d : pixel_dict_t) (arr : list color) :
  d ≠ [] → ∃ msg, assign_loop [] d arr = Raise (ValueError msg).
Proof.
  destruct d as [|[k indices] rest]; [congruence|]. intros _.
  cbn [assign_loop closest_color distances map np_min_Z Py.bind].
  eexists. reflexivity.
Qed.

(** C7. Empty palette: on every non-empty colour array, quantization with a
    palette of zero reference colours fails; the exception is numpy's
    [ValueError] (the spec's ConfigurationError kind), raised by the distance
    computation of the first pixel group. *)
Theorem color_quantization_empty_palette_fails (arr : list color) :
  arr ≠ [] →
  ∃ msg, color_quantization arr [] = Raise (ValueError msg).
Proof.
  intros Hne. unfold color_quantization.
  apply assign_loop_empty_palette.
  apply pixel_dict_loop_nonempty. left. exact Hne.
Qed.

Lemma color_quantization_empty_palette_fails_witness :
  ∃ msg, color_quantization [(255, 0, 0)%Z; (1, 2, 3)%Z] [] = Raise (ValueError msg).
Proof. apply color_quantization_empty_palette_fails. discriminate. Defined.

(** Colours of the palette are fixed by [nearest]. *)
Lemma map_nearest_fixed (arr mc : list color) :
  (∀ c, c ∈ arr → c ∈ mc) → map (nearest mc) arr = arr.
Proof.
  intros Hall. induction arr as [|c arr IH]; [reflexivity|]. cbn [map]. f_equal.
  - unfold nearest. rewrite closest_color_self; [reflexivity|]. apply Hall; left.
  - apply IH. intros c' Hc'. apply Hall; right; exact Hc'.
Qed.

(** C8. Idempotence: when every colour of the array already equals some
    palette entry, quantization returns the array unchanged. *)
Theorem color_quantization_idempotent (arr mc : list color) :
  mc ≠ [] →
  (∀ c, c ∈ arr → c ∈ mc) →
  color_quantization arr mc = Ok arr.
Proof.
  intros Hne Hall. rewrite color_quantization_spec by exact Hne. f_equal.
  apply map_nearest_fixed. exact Hall.
Qed.

Lemma color_quantization_idempotent_witness :
  color_quantization [(0, 0, 255)%Z; (255, 0, 0)%Z; (0, 0, 255)%Z]
                     [(255, 0, 0)%Z; (0, 255, 0)%Z; (0, 0, 255)%Z]
  = Ok [(0, 0, 255)%Z; (255, 0, 0)%Z; (0, 0, 255)%Z].
Proof.
  apply color_quantization_idempotent; [discriminate|].
  intros c Hc. repeat (apply elem_of_cons in Hc as [->|Hc]); try (inversion Hc; fail).
  - right; right; left.
  - left.
  - right; right; left.
Defined.

(** Quantizing the output of a quantization changes nothing. *)
Corollary color_quantization_twice (arr mc : list color) :
  mc ≠ [] →
  color_quantization (map (nearest mc) arr) mc = Ok (map (nearest mc) arr).
Proof.
  intros Hne. rewrite color_quantization_spec by exact Hne. f_equal.
  apply map_nearest_fixed.
  intros c Hc. apply list_elem_of_fmap in Hc as (p & -> & _).
  apply nearest_in_palette; exact Hne.
Qed.

(** Ties are broken by palette order. *)
Example color_quantization_tie :
  color_quantization [(5, 0, 0)%Z] [(10, 0, 0)%Z; (0, 0, 0)%Z] = Ok [(10, 0, 0)%Z].
Proof. reflexivity. Qed.

End ColorQuantizationSpec.

(** ** Face normals and the line-plane test *)

Section MeshUtilsSpec.

Import MeshUtils.

Local Open Scope Q_scope.

Lemma Qle_bool_false (x y : Q) : Qle_bool x y = false ↔ y < x.
Proof.
  rewrite <- not_true_iff_false, Qle_bool_iff. split.
  - apply Qnot_le_lt.
  - intros H1 H2. apply (Qlt_not_le _ _ H1 H2).
Qed.

Lemma dot_vscale_l (k : Q) (a b : vec3) : dot (vscale k a) b == k * dot a b.
Proof. unfold dot, vscale; simpl. ring. Qed.

Lemma dot_comm (a b : vec3) : dot a b == dot b a.
Proof. unfold dot. ring. Qed.

Lemma more_than_90_degrees_iff (f v : vec3) :
  more_than_90_degrees f v = true ↔ dot f v < 0.
Proof.
  unfold more_than_90_degrees, npsumdot.
  rewrite negb_true_iff. apply Qle_bool_false.
Qed.

(** After the flip the face normal is on the other side of each vertex
    normal. *)
Lemma more_than_90_degrees_flip (f v : vec3) :
  more_than_90_degrees (vscale (-1) f) v = true ↔ 0 < dot f v.
Proof.
  rewrite more_than_90_degrees_iff, dot_vscale_l. split; intros H; lra.
Qed.

(** The regression vectors of [test_check_angles]. *)
Example check_angles_test :
  check_angles
    [ (V3 1 0 0, (V3 1 2 0, V3 (-1) 2 0, V3 1 2 10));
      (V3 (-1) 0 0, (V3 0 10 10, V3 (-1) (-1) (-1), V3 2 0 0));
      (V3 0 0 1, (V3 2 2 (-2), V3 0 0 1, V3 0 1 1));
      (V3 1 2 0, (V3 (-1) 1 0, V3 (-1) 1 10, V3 (-1) 0 2));
      (V3 0 (-5) 9, (V3 (-1) 2 (-1), V3 1 4 5, V3 25 (-4) (-4)));
      (V3 (-2) (-3) (-4), (V3 0 (-1) 0, V3 2 (-1) (-5), V3 1 2 (-2))) ]
  = [ (false, true, false); (false, false, true); (true, false, false);
      (false, false, true); (true, false, true); (false, false, false) ].
Proof. vm_compute. reflexivity. Qed.

(** The first four faces of [test_triangle_face_normals]. *)
Example triangle_face_normals_test :
  triangle_face_normals
    [ Triangle (V3 1 0 0) (V3 0 1 0) (V3 0 0 1) (V3 0 0 1) (V3 0 0 1);
      Triangle (V3 0 1 0) (V3 1 0 0) (V3 0 0 1) (V3 0 0 1) (V3 0 0 1);
      Triangle (V3 1 1 0) (V3 0 1 1) (V3 2 (-2) (-2)) (V3 0 (-2) 3) (V3 2 0 1);
      Triangle (V3 0 1 1) (V3 1 1 0) (V3 2 (-2) (-2)) (V3 0 (-2) 3) (V3 2 0 1) ]
  = Ok [ V3 0 0 1; V3 0 0 1; V3 1 (-1) 1; V3 1 (-1) 1 ].
Proof. vm_compute. reflexivity. Qed.

Lemma flagged_before_flip_map (batch : list triangle) :
  flagged_before_flip batch = map face_row_before batch.
Proof.
  unfold flagged_before_flip, raw_face_normals, check_angles.
  induction batch as [|t batch IH]; simpl; [reflexivity|].
  f_equal. exact IH.
Qed.

Lemma flipped_face_normals_map (batch : list triangle) :
  flipped_face_normals batch = map face_flipped batch.
Proof.
  unfold flipped_face_normals. rewrite flagged_before_flip_map.
  unfold raw_face_normals, flip_masked.
  induction batch as [|t batch IH]; simpl; [reflexivity|].
  f_equal. exact IH.
Qed.

Lemma flagged_after_flip_map (batch : list triangle) :
  flagged_after_flip batch = map face_row_after batch.
Proof.
  unfold flagged_after_flip. rewrite flipped_face_normals_map.
  unfold check_angles.
  induction batch as [|t batch IH]; simpl; [reflexivity|].
  f_equal. exact IH.
Qed.

(** The function in terms of the two angle checks. *)
Lemma triangle_face_normals_unfold (batch : list triangle) :
  triangle_face_normals batch =
  if np_any (flagged_before_flip batch) then
    if np_any (flagged_after_flip batch)
    then Raise (UncorrectedMeshes (count_any (flagged_before_flip batch)))
    else Ok (flipped_face_normals batch)
  else Ok (raw_face_normals batch).
Proof. reflexivity. Qed.

(** A face that is unresolved after the flip was flagged before it. *)
Lemma face_row_after_before (t : triangle) :
  any_row (face_row_after t) = true → any_row (face_row_before t) = true.
Proof.
  unfold face_row_after, face_flipped.
  destruct (any_row (face_row_before t)) eqn:E; [reflexivity|].
  unfold face_row_before in E. intros H. rewrite H in E. discriminate.
Qed.

(** A face is unresolved after the flip exactly when it was flagged and one
    of its vertex normals lay strictly on the side of the face normal. *)
Lemma face_row_after_iff (t : triangle) :
  any_row (face_row_after t) = true ↔
  any_row (face_row_before t) = true ∧
  (0 < dot (cross (AB t) (AC t)) (A_normal t)
   ∨ 0 < dot (cross (AB t) (AC t)) (B_normal t)
   ∨ 0 < dot (cross (AB t) (AC t)) (C_normal t)).
Proof.
  split.
  - intros H. pose proof (face_row_after_before t H) as Hb. split; [exact Hb|].
    unfold face_row_after, face_flipped in H. rewrite Hb in H.
    unfold check_angles_row, vertex_normals_of, any_row in H.
    rewrite !orb_true_iff, !more_than_90_degrees_flip in H. tauto.
  - intros [Hb H]. unfold face_row_after, face_flipped. rewrite Hb.
    unfold check_angles_row, vertex_normals_of, any_row.
    rewrite !orb_true_iff, !more_than_90_degrees_flip. tauto.
Qed.

Lemma count_any_after_le_before (batch : list triangle) :
  (count_any (map face_row_after batch) ≤ count_any (map face_row_before batch))%nat.
Proof.
  unfold count_any. induction batch as [|t batch IH]; [reflexivity|].
  cbn [map List.filter].
  pose proof (face_row_after_before t) as H.
  destruct (any_row (face_row_after t)); destruct (any_row (face_row_before t));
    cbn [length]; try lia; specialize (H eq_refl); discriminate.
Qed.

Lemma np_any_count (rows : list angle_row) :
  np_any rows = true ↔ (0 < count_any rows)%nat.
Proof.
  unfold np_any, count_any. induction rows as [|r rows IH]; cbn [existsb List.filter].
  - cbn [length]. split; [discriminate | lia].
  - destruct (any_row r); cbn [orb length]; [split; [lia | reflexivity] | exact IH].
Qed.

(** What the raise reports: the number of faces that were flagged before
    the flip, which bounds the number of unresolved faces from above. *)
Lemma triangle_face_normals_reported_count (batch : list triangle) (n : nat) :
  triangle_face_normals batch = Raise (UncorrectedMeshes n) →
  n = count_any (flagged_before_flip batch)
  ∧ (0 < unresolved_after_flip batch ≤ n)%nat.
Proof.
  rewrite triangle_face_normals_unfold.
  destruct (np_any (flagged_before_flip batch)); [|discriminate].
  destruct (np_any (flagged_after_flip batch)) eqn:E2; [|discriminate].
  intros H; injection H as <-. split; [reflexivity|].
  unfold unresolved_after_flip. split.
  - apply np_any_count. exact E2.
  - rewrite flagged_after_flip_map, flagged_before_flip_map.
    apply count_any_after_le_before.
Qed.

(** C3. The count in the error of [triangle_face_normals] is taken from the
    angle check made before the flip.  On [two_flagged_one_unresolved] both
    faces are flagged and flipped, the flip resolves the first, one face
    remains unresolved, and the error reports 2. *)
Theorem triangle_face_normals_reports_flagged_count :
  flagged_before_flip two_flagged_one_unresolved
    = [ (true, true, true); (true, false, false) ]
  ∧ flagged_after_flip two_flagged_one_unresolved
    = [ (false, false, false); (false, true, true) ]
  ∧ unresolved_after_flip two_flagged_one_unresolved = 1%nat
  ∧ triangle_face_normals two_flagged_one_unresolved = Raise (UncorrectedMeshes 2).
Proof.
  assert (Hb : flagged_before_flip two_flagged_one_unresolved
               = [ (true, true, true); (true, false, false) ])
    by (vm_compute; reflexivity).
  assert (Ha : flagged_after_flip two_flagged_one_unresolved
               = [ (false, false, false); (false, true, true) ])
    by (vm_compute; reflexivity).
  split; [exact Hb|]. split; [exact Ha|]. split.
  - unfold unresolved_after_flip. rewrite Ha. reflexivity.
  - rewrite triangle_face_normals_unfold, Hb, Ha. reflexivity.
Qed.

End MeshUtilsSpec.

(** ** The angle test of [check_angles] and its sign form *)

Section CheckAnglesReal.

Import MeshUtils.

Local Open Scope R_scope.

Lemma acos_gt_half_pi_iff (x : R) : acos x > PI / 2 ↔ x < 0.
Proof.
  unfold acos. pose proof PI_RGT_0 as Hpi.
  destruct (Rle_dec x (-1)) as [H1|H1]; [split; intros; lra|].
  destruct (Rle_dec 1 x) as [H2|H2]; [split; intros; lra|].
  assert (Hs : 0 < sqrt (1 - x²)).
  { apply sqrt_lt_R0. unfold Rsqr. nra. }
  split.
  - intros H. destruct (Rlt_dec x 0) as [Hx|Hx]; [exact Hx|]. exfalso.
    assert (Hq : 0 <= x / sqrt (1 - x²)).
    { apply Rmult_le_pos; [lra|]. left. apply Rinv_0_lt_compat. exact Hs. }
    destruct Hq as [Hq|Hq].
    + apply atan_increasing in Hq. rewrite atan_0 in Hq. lra.
    + rewrite <- Hq, atan_0 in H. lra.
  - intros Hx.
    assert (Hq : x / sqrt (1 - x²) < 0).
    { unfold Rdiv. pose proof (Rinv_0_lt_compat _ Hs). nra. }
    apply atan_increasing in Hq. rewrite atan_0 in Hq. lra.
Qed.

Lemma clamp_negative_iff (c : R) : clamp c < 0 ↔ c < 0.
Proof.
  unfold clamp, isclose_R.
  assert (Htol : Q2R atol_default = 1 / 100000000 ∧ Q2R rtol_default = 1 / 100000).
  { unfold atol_default, rtol_default, Q2R. simpl. split; lra. }
  destruct Htol as [-> ->].
  destruct (Rle_dec (Rabs (c - 1)) _) as [H1|H1].
  - rewrite Rabs_R1 in H1.
    assert (Hc : 0 < c) by (revert H1; unfold Rabs; destruct (Rcase_abs (c - 1)); lra).
    destruct (Rle_dec (Rabs (1 - -1)) _) as [H2|H2].
    + exfalso. revert H2. unfold Rabs. destruct (Rcase_abs (1 - -1)), (Rcase_abs (-1)); lra.
    + split; lra.
  - destruct (Rle_dec (Rabs (c - -1)) _) as [H2|H2].
    + assert (Hc : c < 0).
      { revert H2. unfold Rabs. destruct (Rcase_abs (c - -1)), (Rcase_abs (-1)); lra. }
      split; lra.
    + reflexivity.
Qed.

Lemma dot_self_zero (a b : vec3) : (dot a a == 0)%Q → (dot a b == 0)%Q.
Proof.
  unfold dot. intros H.
  assert (Hx : (vx a == 0)%Q) by nra.
  assert (Hy : (vy a == 0)%Q) by nra.
  assert (Hz : (vz a == 0)%Q) by nra.
  rewrite Hx, Hy, Hz. ring.
Qed.

Lemma norm_zero (a b : vec3) : norm a = 0 → (dot a b == 0)%Q.
Proof.
  unfold norm. intros H. apply dot_self_zero.
  apply eqR_Qeq. rewrite RMicromega.Q2R_0.
  apply sqrt_eq_0; [|exact H].
  rewrite <- RMicromega.Q2R_0. apply Qle_Rle. unfold dot. nra.
Qed.

Lemma cos_angle_negative_iff (f v : vec3) : cos_angle f v < 0 ↔ (dot f v < 0)%Q.
Proof.
  unfold cos_angle, npsumdot.
  pose proof (sqrt_pos (Q2R (dot f f))) as Hf. fold (norm f) in Hf.
  pose proof (sqrt_pos (Q2R (dot v v))) as Hv. fold (norm v) in Hv.
  assert (Hd : Q2R (dot f v) < 0 ↔ (dot f v < 0)%Q).
  { rewrite <- RMicromega.Q2R_0. split; [apply Rlt_Qlt | apply Qlt_Rlt]. }
  destruct (Req_dec (norm f * norm v) 0) as [H0|H0].
  - rewrite H0. unfold Rdiv. rewrite Rinv_0, Rmult_0_r.
    assert (Hz : (dot f v == 0)%Q).
    { apply Rmult_integral in H0 as [H0|H0].
      - apply norm_zero; exact H0.
      - rewrite dot_comm. apply norm_zero; exact H0. }
    split; [lra|]. intros H. rewrite Hz in H. discriminate.
  - assert (Hpos : 0 < norm f * norm v) by nra.
    pose proof (Rinv_0_lt_compat _ Hpos) as Hinv.
    rewrite <- Hd. unfold Rdiv. split; intros H; nra.
Qed.

(** The sign form of the angle test is the test of the source. *)
Lemma more_than_90_degrees_arccos (f v : vec3) :
  more_than_90_degrees f v = true ↔ arccos_check f v.
Proof.
  unfold arccos_check.
  rewrite acos_gt_half_pi_iff, clamp_negative_iff, cos_angle_negative_iff.
  apply more_than_90_degrees_iff.
Qed.

End CheckAnglesReal.

Section LinePlaneSpec.

Import MeshUtils.

Local Open Scope Q_scope.

Lemma zip_with_andb_map {A : Type} (f g h : A → bool) (l : list A) :
  zip_with andb (zip_with andb (map f l) (map g l)) (map h l)
  = map (fun x => f x && g x && h x) l.
Proof. induction l as [|x l IH]; simpl; [reflexivity|]. f_equal. exact IH. Qed.

Lemma filter_id_all {A : Type} (g : A → bool) (l : list A) :
  length (List.filter (fun b : bool => b) (map g l)) = length l → ∀ x, x ∈ l → g x = true.
Proof.
  induction l as [|y l IH]; intros Hlen x Hx; [inversion Hx|].
  simpl in Hlen. destruct (g y) eqn:E; simpl in Hlen.
  - apply elem_of_cons in Hx as [->|Hx]; [exact E|]. apply IH; [lia | exact Hx].
  - pose proof (List.filter_length_le (fun b : bool => b) (map g l)) as Hle.
    rewrite length_map in Hle. simpl in Hle. lia.
Qed.

Lemma mask_assign_select {A B C : Type} (f : A → B) (h : A → C) (c : C → B)
    (g : A → bool) (l : list A) :
  mask_assign (map f l) (map negb (map g l))
              (map c (map h (mask_select l (map negb (map g l)))))
  = map (fun x => if g x then f x else c (h x)) l.
Proof.
  induction l as [|x l IH]; simpl; [reflexivity|].
  destruct (g x); simpl; f_equal; exact IH.
Qed.

Lemma map_ext_elem {A B : Type} (f g : A → B) (l : list A) :
  (∀ x, x ∈ l → f x = g x) → map f l = map g l.
Proof.
  induction l as [|x l IH]; intros H; simpl; [reflexivity|]. f_equal.
  - apply H; left.
  - apply IH. intros y Hy. apply H; right; exact Hy.
Qed.

(** The returned mask, edge by edge. *)
Lemma find_if_line_and_plane_intersect_map (edges : list (vec3 * vec3))
    (plane_points : vec3 * vec3 * vec3) (domain : box) :
  find_if_line_and_plane_intersect edges plane_points domain
  = Ok (map (edge_intersects plane_points domain) edges).
Proof.
  unfold find_if_line_and_plane_intersect.
  set (normal := plane_normal plane_points).
  set (d := - dot normal (fst (fst plane_points))).
  cbv zeta. rewrite zip_with_andb_map.
  destruct (Nat.eqb_spec (length (List.filter (fun b : bool => b) (map (vector_on_plane normal) edges)))
              (length (map (fun x => vector_on_plane normal x && in_domain domain (fst x)
                                      && in_domain domain (snd x)) edges))) as [Heq|Hne].
  - rewrite length_map in Heq. f_equal. apply map_ext_elem. intros e He.
    unfold edge_intersects. fold normal.
    rewrite (filter_id_all _ _ Heq e He). reflexivity.
  - f_equal.
    rewrite (mask_assign_select
               (fun x => vector_on_plane normal x && in_domain domain (fst x)
                         && in_domain domain (snd x))
               (line_parameter normal d) crosses
               (vector_on_plane normal) edges).
    apply map_ext_elem. intros e _. unfold edge_intersects. fold normal. fold d.
    destruct (vector_on_plane normal e); reflexivity.
Qed.

Lemma vector_on_plane_iff (normal : vec3) (e : vec3 * vec3) :
  vector_on_plane normal e = true
  ↔ Qabs (dot (vsub (snd e) (fst e)) normal) <= 1 # 1000000.
Proof.
  unfold vector_on_plane, np_isclose. rewrite Qle_bool_iff.
  change (Qabs 0) with 0.
  assert (H1 : dot (vsub (snd e) (fst e)) normal - 0
               == dot (vsub (snd e) (fst e)) normal) by ring.
  assert (H2 : (1 # 1000000) + rtol_default * 0 == 1 # 1000000) by ring.
  rewrite H1, H2. reflexivity.
Qed.

Lemma crosses_finite (t : Q) : crosses (Finite t) = true ↔ 0 <= t ∧ t <= 1.
Proof.
  unfold crosses, np_lt, np_gt.
  destruct (Qle_bool 0 t) eqn:E0; destruct (Qle_bool t 1) eqn:E1; cbn [negb];
    try apply Qle_bool_iff in E0; try apply Qle_bool_iff in E1;
    try apply Qle_bool_false in E0; try apply Qle_bool_false in E1.
  - split; [intros _; split; assumption | reflexivity].
  - split; [discriminate | intros [_ H]; lra].
  - split; [discriminate | intros [H _]; lra].
  - split; [discriminate | intros [H _]; lra].
Qed.

Lemma line_parameter_finite (normal : vec3) (d : Q) (e : vec3 * vec3) :
  ¬ dot (vsub (snd e) (fst e)) normal == 0 →
  line_parameter normal d e
  = Finite (- ((dot (fst e) normal + d) / dot (vsub (snd e) (fst e)) normal)).
Proof.
  intros Hne. unfold line_parameter, np_divide.
  destruct (Qeq_bool (dot (vsub (snd e) (fst e)) normal) 0) eqn:E.
  - apply Qeq_bool_iff in E. contradiction.
  - reflexivity.
Qed.

(** C6. Line-plane membership rules.  For every batch of edges the test
    returns one boolean per edge; with n the plane normal, d = -dot(n, P0) and
    an edge from p0 to p1: (a) when |dot(p1 - p0, n)| is within 1e-6 of 0 the
    entry is true iff both endpoints lie in the domain box; (b) otherwise it
    is true iff t = -(dot(n, p0) + d) / dot(n, p1 - p0) satisfies
    0 <= t <= 1. *)
Theorem line_plane_membership_rules (edges : list (vec3 * vec3))
    (plane_points : vec3 * vec3 * vec3) (domain : box) :
  ∃ results,
    find_if_line_and_plane_intersect edges plane_points domain = Ok results
    ∧ Forall2
        (fun e b =>
           let n := plane_normal plane_points in
           let d := - dot n (fst (fst plane_points)) in
           let p0 := fst e in
           let p1 := snd e in
           let t := - (dot n p0 + d) / dot n (vsub p1 p0) in
           (Qabs (dot (vsub p1 p0) n) <= 1 # 1000000 →
            (b = true ↔ in_domain domain p0 = true ∧ in_domain domain p1 = true))
           ∧ (¬ Qabs (dot (vsub p1 p0) n) <= 1 # 1000000 →
              (b = true ↔ 0 <= t ∧ t <= 1)))
        edges results.
Proof.
  exists (map (edge_intersects plane_points domain) edges).
  split; [apply find_if_line_and_plane_intersect_map|].
  apply Forall2_fmap_r, Forall_Forall2_diag, Forall_forall. intros e _.
  cbv zeta. unfold edge_intersects.
  set (n := plane_normal plane_points).
  set (d := - dot n (fst (fst plane_points))).
  split.
  - intros Hon. apply vector_on_plane_iff in Hon. rewrite Hon.
    apply andb_true_iff.
  - intros Hoff.
    destruct (vector_on_plane n e) eqn:E.
    { apply vector_on_plane_iff in E. contradiction. }
    assert (Hne : ¬ dot (vsub (snd e) (fst e)) n == 0).
    { intros H0. apply Hoff. rewrite H0. discriminate. }
    rewrite (line_parameter_finite n d e Hne), crosses_finite.
    assert (Ht : - ((dot (fst e) n + d) / dot (vsub (snd e) (fst e)) n)
                 == - (dot n (fst e) + d) / dot n (vsub (snd e) (fst e))).
    { rewrite (dot_comm n (fst e)), (dot_comm n (vsub (snd e) (fst e))).
      field. exact Hne. }
    rewrite Ht. reflexivity.
Qed.

Lemma line_plane_membership_rules_witness :
  ∃ results,
    find_if_line_and_plane_intersect
      [diagonal_edge] (V3 3 0 0, V3 0 2 0, V3 0 0 (-1)) unit_box = Ok results
    ∧ Forall2
        (fun e b =>
           let n := plane_normal (V3 3 0 0, V3 0 2 0, V3 0 0 (-1)) in
           let d := - dot n (V3 3 0 0) in
           let p0 := fst e in
           let p1 := snd e in
           let t := - (dot n p0 + d) / dot n (vsub p1 p0) in
           (Qabs (dot (vsub p1 p0) n) <= 1 # 1000000 →
            (b = true ↔ in_domain unit_box p0 = true ∧ in_domain unit_box p1 = true))
           ∧ (¬ Qabs (dot (vsub p1 p0) n) <= 1 # 1000000 →
              (b = true ↔ 0 <= t ∧ t <= 1)))
        [diagonal_edge] results.
Proof.
  apply (line_plane_membership_rules
           [diagonal_edge] (V3 3 0 0, V3 0 2 0, V3 0 0 (-1)) unit_box).
Defined.

(** The test vectors of [test_find_if_line_and_plane_intersect_cross_plane]
    and [..._on_plane]. *)
Example find_if_line_and_plane_intersect_cross_plane_test :
  find_if_line_and_plane_intersect
    [ (V3 1 (-2) 0, V3 (31 # 10) (-115 # 100) (-3));
      (V3 5 6 (-3), V3 5 (15 # 10) (175 # 100));
      (V3 4 (11 # 10) (6 # 10), V3 6 3 (-2));
      (V3 3 (-2) 1, V3 (22 # 10) (4 # 10) (1 # 10)) ]
    (V3 3 0 0, V3 0 2 0, V3 0 0 (-1))
    (Box (V3 2 (-2) (-5)) (V3 5 2 (4 # 10)))
  = Ok [true; true; false; false].
Proof. vm_compute. reflexivity. Qed.

Example find_if_line_and_plane_intersect_on_plane_test :
  find_if_line_and_plane_intersect
    [ (V3 2 (-1) (-833333333 # 1000000000), V3 3 (-2) (-1));
      (V3 4 0 (333333333 # 1000000000), V3 6 (15 # 10) (175 # 100));
      (V3 3 1 (5 # 10), V3 0 0 (-1));
      (V3 4 0 (333333333 # 1000000000),
       V3 (25 # 10) (5 # 10) (83333333333 # 1000000000000)) ]
    (V3 3 0 0, V3 0 2 0, V3 0 0 (-1))
    (Box (V3 2 (-2) (-5)) (V3 5 2 (4 # 10)))
  = Ok [true; false; false; true].
Proof. vm_compute. reflexivity. Qed.

Lemma vec_is_zero_dot (v normal : vec3) :
  vec_is_zero normal = true → dot v normal == 0.
Proof.
  unfold vec_is_zero. rewrite !andb_true_iff, !Qeq_bool_iff.
  intros [[Hx Hy] Hz]. unfold dot. rewrite Hx, Hy, Hz. ring.
Qed.

(** C4. Degenerate probe plane.  When the three plane points are collinear
    (the cross product is the zero vector) the test raises nothing: every
    edge counts as parallel to the plane and the function returns, for each
    edge, whether both endpoints lie in the domain box. *)
Theorem degenerate_plane_returns_a_result (edges : list (vec3 * vec3))
    (plane_points : vec3 * vec3 * vec3) (domain : box) :
  vec_is_zero (plane_normal plane_points) = true →
  find_if_line_and_plane_intersect edges plane_points domain
  = Ok (map (fun e => in_domain domain (fst e) && in_domain domain (snd e)) edges).
Proof.
  intros Hz. rewrite find_if_line_and_plane_intersect_map. f_equal.
  apply map_ext_elem. intros e _. unfold edge_intersects.
  assert (Hon : vector_on_plane (plane_normal plane_points) e = true).
  { apply vector_on_plane_iff. rewrite (vec_is_zero_dot _ _ Hz). discriminate. }
  rewrite Hon. reflexivity.
Qed.

Lemma degenerate_plane_returns_a_result_witness :
  find_if_line_and_plane_intersect [diagonal_edge] collinear_plane_points unit_box
  = Ok (map (fun e => in_domain unit_box (fst e) && in_domain unit_box (snd e))
            [diagonal_edge]).
Proof. apply degenerate_plane_returns_a_result. reflexivity. Defined.

Example degenerate_plane_example :
  find_if_line_and_plane_intersect [diagonal_edge] collinear_plane_points unit_box
  = Ok [true].
Proof. vm_compute. reflexivity. Qed.

End LinePlaneSpec.

(** ** Connected components *)

Section NxSpec.

Import Nx.

Implicit Types (es : edgelist) (c seen : gset nat).

Lemma joined_sym es u v : joined es u v → joined es v u.
Proof. unfold joined. tauto. Qed.

Lemma adjacent_spec es seen w :
  w ∈ adjacent es seen ↔ ∃ u, u ∈ seen ∧ joined es u w.
Proof.
  unfold adjacent. rewrite elem_of_list_to_set, list_elem_of_In, in_flat_map. split.
  - intros ([a b] & Hin & Hw). apply list_elem_of_In in Hin. simpl in Hw.
    apply in_app_or in Hw as [Hw|Hw].
    + destruct (decide (a ∈ seen)) as [Ha|]; [|destruct Hw].
      destruct Hw as [<-|[]]. exists a. split; [exact Ha | left; exact Hin].
    + destruct (decide (b ∈ seen)) as [Hb|]; [|destruct Hw].
      destruct Hw as [<-|[]]. exists b. split; [exact Hb | right; exact Hin].
  - intros (u & Hu & [Hin|Hin]).
    + exists (u, w). split; [apply list_elem_of_In; exact Hin|]. simpl.
      apply in_or_app. left. destruct (decide (u ∈ seen)); [left; reflexivity | contradiction].
    + exists (w, u). split; [apply list_elem_of_In; exact Hin|]. simpl.
      apply in_or_app. right. destruct (decide (u ∈ seen)); [left; reflexivity | contradiction].
Qed.

Lemma closed_adjacent es c : closed es c ↔ adjacent es c ⊆ c.
Proof.
  split.
  - intros Hc w Hw. apply adjacent_spec in Hw as (u & Hu & Hj). eapply Hc; eassumption.
  - intros Hsub u v Hj Hu. apply Hsub, adjacent_spec. exists u. split; assumption.
Qed.

Lemma closed_union es c1 c2 : closed es c1 → closed es c2 → closed es (c1 ∪ c2).
Proof.
  intros H1 H2 u v Hj Hu. apply elem_of_union in Hu as [Hu|Hu].
  - apply elem_of_union_l. eapply H1; eassumption.
  - apply elem_of_union_r. eapply H2; eassumption.
Qed.

Lemma closed_empty es : closed es ∅.
Proof. intros u v _ Hu. set_solver. Qed.

Lemma closed_reachable es c u w : closed es c → reachable es u w → u ∈ c → w ∈ c.
Proof.
  intros Hc Hr Hu. induction Hr as [|v w Hr' IH Hj]; [exact Hu|].
  eapply Hc; eassumption.
Qed.

Lemma reachable_trans es u v w : reachable es u v → reachable es v w → reachable es u w.
Proof.
  intros Huv Hvw. induction Hvw as [|x w Hvx IH Hj]; [exact Huv|].
  eapply reachable_step; eassumption.
Qed.

Lemma reachable_sym es u w : reachable es u w → reachable es w u.
Proof.
  intros Hr. induction Hr as [|v w Hr' IH Hj]; [constructor|].
  eapply reachable_trans; [|exact IH].
  eapply reachable_step; [constructor | apply joined_sym; exact Hj].
Qed.

Lemma bfs_levels_grows fuel es seen : seen ⊆ bfs_levels fuel es seen.
Proof.
  revert seen; induction fuel as [|n IH]; intros seen; simpl; [reflexivity|].
  etrans; [|apply IH]. set_solver.
Qed.

Lemma bfs_levels_fixed fuel es seen :
  adjacent es seen ⊆ seen → bfs_levels fuel es seen = seen.
Proof.
  intros Hfix. induction fuel as [|n IH]; simpl; [reflexivity|].
  rewrite (comm_L (∪)), (subseteq_union_1_L _ _ Hfix). exact IH.
Qed.

(** Every node that the search collects is reachable from a node it
    started with. *)
Lemma bfs_levels_reachable fuel es seen w :
  w ∈ bfs_levels fuel es seen → ∃ u, u ∈ seen ∧ reachable es u w.
Proof.
  revert seen; induction fuel as [|n IH]; intros seen; simpl.
  - intros Hw. exists w. split; [exact Hw | constructor].
  - intros Hw. destruct (IH _ Hw) as (u & Hu & Hr).
    apply elem_of_union in Hu as [Hu|Hu].
    + exists u. split; assumption.
    + apply adjacent_spec in Hu as (u0 & Hu0 & Hj). exists u0. split; [exact Hu0|].
      eapply reachable_trans; [|exact Hr]. eapply reachable_step; [constructor | exact Hj].
Qed.

(** With one level of fuel for every node that is still missing from a
    closed superset, the search ends on a closed set. *)
Lemma bfs_levels_closed fuel es seen (bound : gset nat) :
  closed es bound → seen ⊆ bound → (size bound ≤ size seen + fuel)%nat →
  closed es (bfs_levels fuel es seen).
Proof.
  intros Hb. revert seen; induction fuel as [|n IH]; intros seen Hsub Hsize; simpl.
  - assert (seen = bound) as ->; [|exact Hb].
    apply set_subseteq_size_eq; [exact Hsub | lia].
  - destruct (decide (adjacent es seen ⊆ seen)) as [Hfix|Hnfix].
    + rewrite (comm_L (∪)), (subseteq_union_1_L _ _ Hfix).
      rewrite bfs_levels_fixed by exact Hfix. apply closed_adjacent. exact Hfix.
    + apply IH.
      * intros w Hw. apply elem_of_union in Hw as [Hw|Hw]; [apply Hsub; exact Hw|].
        apply adjacent_spec in Hw as (u & Hu & Hj). eapply Hb; [exact Hj|].
        apply Hsub; exact Hu.
      * assert (seen ⊂ seen ∪ adjacent es seen) as Hlt by set_solver.
        apply subset_size in Hlt. lia.
Qed.

Lemma joined_node_order es u v : joined es u v → v ∈ node_order es.
Proof.
  unfold node_order. intros [Hin|Hin]; apply list_elem_of_In, in_flat_map;
    eexists; (split; [apply list_elem_of_In; exact Hin|]); simpl; auto.
Qed.

Lemma size_list_to_set_le (l : list nat) :
  (size (list_to_set l : gset nat) ≤ length l)%nat.
Proof.
  induction l as [|x l IH].
  - rewrite list_to_set_nil, size_empty. reflexivity.
  - rewrite list_to_set_cons, size_union_alt, size_singleton. cbn [length].
    assert (size (list_to_set l ∖ {[x]} : gset nat) ≤ size (list_to_set l : gset nat))%nat
      by (apply subseteq_size; set_solver).
    lia.
Qed.

Lemma plain_bfs_source es v : v ∈ plain_bfs es v.
Proof. apply bfs_levels_grows. set_solver. Qed.

Lemma plain_bfs_reachable es v w : w ∈ plain_bfs es v → reachable es v w.
Proof.
  intros Hw. apply bfs_levels_reachable in Hw as (u & Hu & Hr).
  apply elem_of_singleton in Hu as ->. exact Hr.
Qed.

Lemma plain_bfs_closed es v : v ∈ node_order es → closed es (plain_bfs es v).
Proof.
  intros Hv. unfold plain_bfs.
  apply (bfs_levels_closed _ _ _ (list_to_set (node_order es))).
  - intros u w Hj _. apply elem_of_list_to_set. eapply joined_node_order; exact Hj.
  - intros u Hu. apply elem_of_singleton in Hu as ->. apply elem_of_list_to_set; exact Hv.
  - rewrite size_singleton. pose proof (size_list_to_set_le (node_order es)). lia.
Qed.

(** The component of [v] is exactly the set of nodes reachable from it. *)
Lemma plain_bfs_spec es v w :
  v ∈ node_order es → (w ∈ plain_bfs es v ↔ reachable es v w).
Proof.
  intros Hv. split; [apply plain_bfs_reachable|].
  intros Hr. eapply closed_reachable; [apply plain_bfs_closed; exact Hv | exact Hr|].
  apply plain_bfs_source.
Qed.

End NxSpec.

Section Components.

Import Nx.

Implicit Types (es : edgelist) (c seen : gset nat).

Lemma components_from_spec es (order : list nat) seen :
  closed es seen → (∀ v, v ∈ order → v ∈ node_order es) →
  (∀ c, c ∈ components_from es order seen →
        closed es c ∧ c ## seen ∧ ∃ v, v ∈ order ∧ c = plain_bfs es v)
  ∧ pairwise (fun c1 c2 : gset nat => c1 ## c2) (components_from es order seen)
  ∧ (∀ v, v ∈ order → v ∈ seen ∨ ∃ c, c ∈ components_from es order seen ∧ v ∈ c).
Proof.
  revert seen; induction order as [|v rest IH]; intros seen Hseen Hnodes.
  - cbn [components_from]. split; [|split].
    + intros c Hc; inversion Hc.
    + exact I.
    + intros v Hv; inversion Hv.
  - cbn [components_from].
    assert (Hrest : ∀ w, w ∈ rest → w ∈ node_order es)
      by (intros w Hw; apply Hnodes; right; exact Hw).
    destruct (decide (v ∈ seen)) as [Hv|Hv].
    + destruct (IH seen Hseen Hrest) as (H1 & H2 & H3). split; [|split].
      * intros c Hc. destruct (H1 c Hc) as (Ha & Hb & w & Hw & Hcw).
        split; [exact Ha|]. split; [exact Hb|]. exists w. split; [right; exact Hw | exact Hcw].
      * exact H2.
      * intros w Hw. apply elem_of_cons in Hw as [->|Hw]; [left; exact Hv | apply H3; exact Hw].
    + pose proof (plain_bfs_closed es v (Hnodes v ltac:(left))) as Hc0.
      assert (Hdisj : plain_bfs es v ## seen).
      { intros w Hw Hws. apply Hv.
        eapply closed_reachable; [exact Hseen | | exact Hws].
        apply reachable_sym, plain_bfs_reachable. exact Hw. }
      destruct (IH (seen ∪ plain_bfs es v) (closed_union _ _ _ Hseen Hc0) Hrest)
        as (H1 & H2 & H3).
      split; [|split].
      * intros c Hc. apply elem_of_cons in Hc as [->|Hc].
        -- split; [exact Hc0|]. split; [exact Hdisj|]. exists v. split; [left | reflexivity].
        -- destruct (H1 c Hc) as (Ha & Hb & w & Hw & Hcw).
           split; [exact Ha|]. split; [set_solver|].
           exists w. split; [right; exact Hw | exact Hcw].
      * split; [|exact H2]. intros c Hc. destruct (H1 c Hc) as (_ & Hb & _). set_solver.
      * intros w Hw. apply elem_of_cons in Hw as [->|Hw].
        -- right. exists (plain_bfs es v). split; [left | apply plain_bfs_source].
        -- destruct (H3 w Hw) as [Hs|(c & Hc & Hwc)].
           ++ apply elem_of_union in Hs as [Hs|Hs]; [left; exact Hs|].
              right. exists (plain_bfs es v). split; [left | exact Hs].
           ++ right. exists c. split; [right; exact Hc | exact Hwc].
Qed.

(** [connected_components] partitions the nodes into the classes of
    reachability: the components are closed, pairwise disjoint, each is the
    set of the nodes reachable from one of its nodes, and every node lies in
    one. *)
Lemma connected_components_spec es :
  (∀ c, c ∈ connected_components es →
        closed es c ∧ ∃ v, v ∈ node_order es ∧ v ∈ c ∧ ∀ w, w ∈ c ↔ reachable es v w)
  ∧ pairwise (fun c1 c2 : gset nat => c1 ## c2) (connected_components es)
  ∧ (∀ v, v ∈ node_order es → ∃ c, c ∈ connected_components es ∧ v ∈ c).
Proof.
  destruct (components_from_spec es (node_order es) ∅ (closed_empty es) (fun v H => H))
    as (H1 & H2 & H3).
  split; [|split].
  - intros c Hc. destruct (H1 c Hc) as (Ha & _ & v & Hv & ->).
    split; [exact Ha|]. exists v. split; [exact Hv|]. split; [apply plain_bfs_source|].
    intros w. apply plain_bfs_spec. exact Hv.
  - exact H2.
  - intros v Hv. destruct (H3 v Hv) as [Hs|H]; [set_solver | exact H].
Qed.

End Components.

(** ** Partitions of a list *)

Section ListPartition.

Import Nx.

Context {A K : Type}.

Lemma pairwise_perm (R : K → K → Prop) (l l' : list K) :
  (∀ x y, R x y → R y x) → Permutation l l' → pairwise R l → pairwise R l'.
Proof.
  intros Hsym Hp. induction Hp as [|x l l' Hp IH|x y l|l l' l'' Hp1 IH1 Hp2 IH2].
  - intros _; exact I.
  - cbn [pairwise]. intros [H1 H2]. split; [|apply IH; exact H2].
    intros y Hy. apply H1. rewrite Hp. exact Hy.
  - cbn [pairwise]. intros [H1 [H2 H3]]. split; [|split; [|exact H3]].
    + intros z Hz. apply elem_of_cons in Hz as [->|Hz].
      * apply Hsym, H1. left.
      * apply H2; exact Hz.
    + intros z Hz. apply H1. right; exact Hz.
  - intros H. apply IH2, IH1, H.
Qed.

Lemma pairwise_split (R : K → K → Prop) (l1 l2 : list K) (x : K) :
  (∀ x y, R x y → R y x) → pairwise R (l1 ++ x :: l2) →
  ∀ y, y ∈ l1 ++ l2 → R x y.
Proof.
  intros Hsym Hpw.
  assert (Hp : Permutation (l1 ++ x :: l2) (x :: l1 ++ l2))
    by (symmetry; apply Permutation_middle).
  apply (pairwise_perm R _ _ Hsym Hp) in Hpw. destruct Hpw as [H _]. exact H.
Qed.

(** When every entry of [l] satisfies the predicate of exactly one position
    of [keys], the filters of [l] by the keys partition it. *)
Lemma flat_map_filter_partition (P : K → A → bool) (keys : list K) (l : list A) :
  (∀ x, x ∈ l → ∃ l1 i l2, keys = l1 ++ i :: l2 ∧ P i x = true
                           ∧ ∀ j, j ∈ l1 ++ l2 → P j x = false) →
  Permutation (flat_map (fun i => List.filter (P i) l) keys) l.
Proof.
  induction l as [|x l IH]; intros Hex.
  - clear Hex. induction keys as [|i keys IHk]; simpl; [constructor | exact IHk].
  - destruct (Hex x ltac:(left)) as (l1 & i & l2 & -> & Hi & Hothers).
    assert (IH' : Permutation (flat_map (fun i => List.filter (P i) l) (l1 ++ i :: l2)) l).
    { apply IH. intros y Hy. apply Hex. right; exact Hy. }
    assert (Hskip : ∀ ks, (∀ j, j ∈ ks → P j x = false) →
              flat_map (fun i => List.filter (P i) (x :: l)) ks
              = flat_map (fun i => List.filter (P i) l) ks).
    { intros ks Hks. induction ks as [|k ks IHks]; [reflexivity|].
      cbn [flat_map List.filter]. rewrite (Hks k ltac:(left)).
      f_equal. apply IHks. intros j Hj. apply Hks. right; exact Hj. }
    rewrite flat_map_app in IH' |- *. cbn [flat_map] in IH' |- *.
    rewrite (Hskip l1), (Hskip l2);
      try (intros j Hj; apply Hothers, elem_of_app; auto).
    cbn [List.filter]. rewrite Hi.
    rewrite <- app_comm_cons. etrans; [symmetry; apply Permutation_middle|].
    constructor. exact IH'.
Qed.

End ListPartition.

(** ** Grouping by face normal *)

Section GroupBy.

Import Nx Segmented MeshUtils.

Lemma vec_eqb_refl (a : vec3) : vec_eqb a a = true.
Proof.
  unfold vec_eqb. rewrite !andb_true_iff, !Qeq_bool_iff. repeat split; reflexivity.
Qed.

Lemma vec_eqb_sym (a b : vec3) : vec_eqb a b = true → vec_eqb b a = true.
Proof.
  unfold vec_eqb. rewrite !andb_true_iff, !Qeq_bool_iff.
  intros [[H1 H2] H3]. repeat split; symmetry; assumption.
Qed.

Lemma vec_eqb_trans (a b c : vec3) :
  vec_eqb a b = true → vec_eqb b c = true → vec_eqb a c = true.
Proof.
  unfold vec_eqb. rewrite !andb_true_iff, !Qeq_bool_iff.
  intros [[H1 H2] H3] [[H4 H5] H6].
  repeat split; etransitivity; eassumption.
Qed.

Lemma vec_eqb_false_sym (a b : vec3) : vec_eqb a b = false → vec_eqb b a = false.
Proof.
  intros H. destruct (vec_eqb b a) eqn:E; [|reflexivity].
  apply vec_eqb_sym in E. congruence.
Qed.

Lemma distinct_directions_in (l : list vec3) (k : vec3) :
  k ∈ distinct_directions l → k ∈ l.
Proof.
  induction l as [|x l IH]; cbn [distinct_directions]; [auto|].
  destruct (existsb (vec_eqb x) l).
  - intros H. right. apply IH; exact H.
  - intros H. apply elem_of_cons in H as [->|H]; [left | right; apply IH; exact H].
Qed.

Lemma distinct_directions_cover (l : list vec3) (x : vec3) :
  x ∈ l → ∃ k, k ∈ distinct_directions l ∧ vec_eqb x k = true.
Proof.
  revert x; induction l as [|y l IH]; intros x Hx; [inversion Hx|].
  cbn [distinct_directions].
  destruct (existsb (vec_eqb y) l) eqn:E.
  - apply elem_of_cons in Hx as [->|Hx]; [|apply IH; exact Hx].
    apply existsb_exists in E as (z & Hz & Hyz).
    destruct (IH z (proj2 (list_elem_of_In _ _) Hz)) as (k & Hk & Hzk).
    exists k. split; [exact Hk|]. eapply vec_eqb_trans; eassumption.
  - apply elem_of_cons in Hx as [->|Hx].
    + exists y. split; [left | apply vec_eqb_refl].
    + destruct (IH x Hx) as (k & Hk & Hxk). exists k. split; [right; exact Hk | exact Hxk].
Qed.

Lemma distinct_directions_pairwise (l : list vec3) :
  pairwise (fun a b => vec_eqb a b = false) (distinct_directions l).
Proof.
  induction l as [|x l IH]; cbn [distinct_directions]; [exact I|].
  destruct (existsb (vec_eqb x) l) eqn:E; [exact IH|].
  cbn [pairwise]. split; [|exact IH].
  intros y Hy. apply distinct_directions_in in Hy.
  destruct (vec_eqb x y) eqn:Exy; [|reflexivity].
  assert (existsb (vec_eqb x) l = true); [|congruence].
  apply existsb_exists. exists y. split; [apply list_elem_of_In; exact Hy | exact Exy].
Qed.

Lemma insert_direction_perm (k : vec3) (l : list vec3) :
  Permutation (insert_direction k l) (k :: l).
Proof.
  induction l as [|x l IH]; cbn [insert_direction]; [reflexivity|].
  destruct (direction_leb k x); [reflexivity|].
  etrans; [apply perm_skip, IH | apply perm_swap].
Qed.

Lemma sort_directions_perm (l : list vec3) : Permutation (sort_directions l) l.
Proof.
  unfold sort_directions. induction l as [|x l IH]; cbn [fold_right]; [reflexivity|].
  etrans; [apply insert_direction_perm | apply perm_skip, IH].
Qed.

(** The rows that give a key are the rows whose normal is not nan. *)
Lemma finite_normals_elem (df : list MeshRow) (n : vec3) :
  n ∈ finite_normals df ↔ ∃ r, r ∈ df ∧ face_normal r = FiniteNormal n.
Proof.
  unfold finite_normals. rewrite list_elem_of_omap. split.
  - intros (r & Hr & Hn). exists r. split; [exact Hr|].
    destruct (face_normal r); [congruence | discriminate].
  - intros (r & Hr & Hn). exists r. split; [exact Hr|]. rewrite Hn. reflexivity.
Qed.

Lemma same_direction_iff (a b : normal_columns) :
  same_direction a b = true ↔
  ∃ x y, a = FiniteNormal x ∧ b = FiniteNormal y ∧ vec_eqb x y = true.
Proof.
  unfold same_direction. split.
  - destruct a as [x|], b as [y|]; try discriminate. intros H. exists x, y. auto.
  - intros (x & y & -> & -> & H). exact H.
Qed.

Lemma group_keys_pairwise (df : list MeshRow) :
  pairwise (fun a b => vec_eqb a b = false) (group_keys df).
Proof.
  unfold group_keys. eapply pairwise_perm.
  - intros a b. apply vec_eqb_false_sym.
  - symmetry. apply sort_directions_perm.
  - apply distinct_directions_pairwise.
Qed.

Lemma group_keys_cover (df : list MeshRow) (r : MeshRow) (n : vec3) :
  r ∈ df → face_normal r = FiniteNormal n →
  ∃ k, k ∈ group_keys df ∧ vec_eqb n k = true.
Proof.
  intros Hr Hn. destruct (distinct_directions_cover (finite_normals df) n)
    as (k & Hk & Hrk).
  { apply finite_normals_elem. exists r. split; assumption. }
  exists k. split; [|exact Hrk]. unfold group_keys.
  rewrite sort_directions_perm. exact Hk.
Qed.

Lemma group_keys_in (df : list MeshRow) (k : vec3) :
  k ∈ group_keys df → ∃ r, r ∈ df ∧ face_normal r = FiniteNormal k.
Proof.
  unfold group_keys. rewrite sort_directions_perm. intros Hk.
  apply distinct_directions_in, finite_normals_elem in Hk. exact Hk.
Qed.

(** The groups partition the rows of the table whose normal is not nan; a
    row whose normal is nan is in no group. *)
Lemma groupby_face_normal_perm (df : list MeshRow) :
  Permutation (concat (groupby_face_normal df)) (List.filter has_finite_normal df).
Proof.
  unfold groupby_face_normal. rewrite <- flat_map_concat_map.
  assert (Hfilter : ∀ k,
            List.filter (fun r => same_direction (face_normal r) (FiniteNormal k)) df
            = List.filter (fun r => same_direction (face_normal r) (FiniteNormal k))
                          (List.filter has_finite_normal df)).
  { intros k. induction df as [|r df IH]; [reflexivity|].
    cbn [List.filter]. unfold has_finite_normal at 1.
    destruct (face_normal r) as [n|] eqn:En; cbn [same_direction List.filter].
    - rewrite En. cbn [same_direction]. destruct (vec_eqb n k); [f_equal|]; exact IH.
    - exact IH. }
  rewrite (flat_map_ext _ _ Hfilter).
  apply (flat_map_filter_partition
           (fun k r => same_direction (face_normal r) (FiniteNormal k))).
  intros r Hr. apply list_elem_of_In, filter_In in Hr as [Hr Hfin].
  apply list_elem_of_In in Hr. unfold has_finite_normal in Hfin.
  destruct (face_normal r) as [n|] eqn:En; [|discriminate].
  destruct (group_keys_cover df r n Hr En) as (k & Hk & Hrk).
  apply list_elem_of_split in Hk as (l1 & l2 & Heq).
  exists l1, k, l2. split; [exact Heq|]. split; [exact Hrk|].
  intros j Hj. pose proof (group_keys_pairwise df) as Hpw. rewrite Heq in Hpw.
  pose proof (pairwise_split _ l1 l2 k vec_eqb_false_sym Hpw j Hj) as Hkj.
  cbn [same_direction].
  destruct (vec_eqb n j) eqn:E; [|reflexivity].
  assert (vec_eqb k j = true); [|congruence].
  eapply vec_eqb_trans; [apply vec_eqb_sym; exact Hrk | exact E].
Qed.

(** A group is not empty, its rows are rows of the table, and they face one
    direction. *)
Lemma groupby_face_normal_group (df group : list MeshRow) :
  group ∈ groupby_face_normal df →
  group ≠ []
  ∧ (∀ r, r ∈ group → r ∈ df)
  ∧ (∀ r r', r ∈ group → r' ∈ group →
             same_direction (face_normal r) (face_normal r') = true).
Proof.
  unfold groupby_face_normal. intros Hg.
  apply list_elem_of_fmap in Hg as (k & -> & Hk).
  split; [|split].
  - destruct (group_keys_in df k Hk) as (r & Hr & Hrk).
    intros Hnil.
    assert (Hin : In r (List.filter
                          (fun r => same_direction (face_normal r) (FiniteNormal k)) df)).
    { apply filter_In. split; [apply list_elem_of_In; exact Hr|].
      rewrite Hrk. apply vec_eqb_refl. }
    rewrite Hnil in Hin. destruct Hin.
  - intros r Hr. apply list_elem_of_In, filter_In in Hr as [Hr _].
    apply list_elem_of_In; exact Hr.
  - intros r r' Hr Hr'.
    apply list_elem_of_In, filter_In in Hr as [_ Hr].
    apply list_elem_of_In, filter_In in Hr' as [_ Hr'].
    apply same_direction_iff in Hr as (x & k1 & Hx & Hk1 & Hxk).
    apply same_direction_iff in Hr' as (y & k2 & Hy & Hk2 & Hyk).
    injection Hk1 as <-. injection Hk2 as <-.
    rewrite Hx, Hy. cbn [same_direction].
    eapply vec_eqb_trans; [exact Hxk | apply vec_eqb_sym; exact Hyk].
Qed.

End GroupBy.

(** ** The wall partition *)

Section WallPartition.

Import Nx Segmented MeshUtils.

Lemma graph_df_joined (group : list MeshRow) (r : MeshRow) :
  r ∈ group →
  joined (graph_df group) (vid (v1 (info r))) (vid (v2 (info r)))
  ∧ joined (graph_df group) (vid (v2 (info r))) (vid (v3 (info r))).
Proof.
  intros Hr. unfold joined, graph_df. split; left.
  - apply elem_of_app. left.
    apply list_elem_of_fmap. exists r; split; [reflexivity | exact Hr].
  - apply elem_of_app. right. apply elem_of_app. left.
    apply list_elem_of_fmap. exists r; split; [reflexivity | exact Hr].
Qed.

(** A node of the graph of a group is a vertex of one of its rows. *)
Lemma graph_df_node (group : list MeshRow) (v : nat) :
  v ∈ node_order (graph_df group) →
  ∃ r, r ∈ group
       ∧ (v = vid (v1 (info r)) ∨ v = vid (v2 (info r)) ∨ v = vid (v3 (info r))).
Proof.
  unfold node_order. intros Hv.
  apply list_elem_of_In, in_flat_map in Hv as ([a b] & He & Hv).
  apply list_elem_of_In in He. unfold graph_df in He.
  cbn [fst snd] in Hv.
  apply elem_of_app in He as [He|He]; [|apply elem_of_app in He as [He|He]];
    apply list_elem_of_fmap in He as (r & Heq & Hr); injection Heq as -> ->;
    exists r; (split; [exact Hr|]);
    destruct Hv as [<-|[<-|[]]]; auto.
Qed.

Lemma all_vertices_in_closed (group : list MeshRow) (c : gset nat) (r : MeshRow) :
  closed (graph_df group) c → r ∈ group →
  (vid (v1 (info r)) ∈ c ∨ vid (v2 (info r)) ∈ c ∨ vid (v3 (info r)) ∈ c) →
  all_vertices_in c r = true.
Proof.
  intros Hc Hr Hv. destruct (graph_df_joined group r Hr) as [H12 H23].
  assert (H1 : vid (v1 (info r)) ∈ c).
  { destruct Hv as [H|[H|H]]; [exact H| |].
    - eapply Hc; [apply joined_sym; exact H12 | exact H].
    - eapply Hc; [apply joined_sym; exact H12|].
      eapply Hc; [apply joined_sym; exact H23 | exact H]. }
  assert (H2 : vid (v2 (info r)) ∈ c) by (eapply Hc; [exact H12 | exact H1]).
  assert (H3 : vid (v3 (info r)) ∈ c) by (eapply Hc; [exact H23 | exact H2]).
  unfold all_vertices_in. rewrite !andb_true_iff, !bool_decide_eq_true. auto.
Qed.

(** Each row of a group has its three vertices in exactly one component. *)
Lemma component_of_row (group : list MeshRow) (r : MeshRow) :
  r ∈ group →
  ∃ l1 c l2, _get_connected_meshes_list group = l1 ++ c :: l2
             ∧ all_vertices_in c r = true
             ∧ ∀ c', c' ∈ l1 ++ l2 → all_vertices_in c' r = false.
Proof.
  intros Hr. unfold _get_connected_meshes_list.
  destruct (connected_components_spec (graph_df group)) as (Hclosed & Hpw & Hcover).
  destruct (graph_df_joined group r Hr) as [H12 _].
  destruct (Hcover (vid (v1 (info r)))) as (c & Hc & Hv1).
  { eapply joined_node_order. apply joined_sym. exact H12. }
  destruct (Hclosed c Hc) as [Hcl _].
  apply list_elem_of_split in Hc as (l1 & l2 & Heq).
  exists l1, c, l2. split; [exact Heq|]. split.
  - eapply all_vertices_in_closed; [exact Hcl | exact Hr | left; exact Hv1].
  - intros c' Hc'. rewrite Heq in Hpw.
    assert (Hd : c ## c').
    { apply (pairwise_split (fun c1 c2 : gset nat => c1 ## c2) l1 l2 c); [|exact Hpw|exact Hc'].
      intros x y Hxy. symmetry. exact Hxy. }
    unfold all_vertices_in.
    destruct (bool_decide (vid (v1 (info r)) ∈ c')) eqn:E; [|reflexivity].
    apply bool_decide_eq_true in E. exfalso. exact (Hd _ Hv1 E).
Qed.

(** The tables handed to [BuildingWall] for one group partition it. *)
Lemma wall_tables_of_group_perm (group : list MeshRow) :
  Permutation (concat (wall_tables_of_group group)) group.
Proof.
  unfold wall_tables_of_group.
  destruct (length (_get_connected_meshes_list group) =? 1)%nat.
  - cbn [concat]. rewrite app_nil_r. reflexivity.
  - rewrite <- flat_map_concat_map.
    apply (flat_map_filter_partition all_vertices_in).
    intros r Hr. apply component_of_row. exact Hr.
Qed.

(** Each of these tables is a non-empty part of the group. *)
Lemma wall_tables_of_group_table (group table : list MeshRow) :
  group ≠ [] → table ∈ wall_tables_of_group group →
  table ≠ [] ∧ ∀ r, r ∈ table → r ∈ group.
Proof.
  intros Hne. unfold wall_tables_of_group.
  destruct (length (_get_connected_meshes_list group) =? 1)%nat.
  - intros Ht. apply list_elem_of_singleton in Ht as ->. split; [exact Hne | auto].
  - intros Ht. apply list_elem_of_fmap in Ht as (c & -> & Hc). split.
    + unfold _get_connected_meshes_list in Hc.
      destruct (connected_components_spec (graph_df group)) as (Hclosed & _ & _).
      destruct (Hclosed c Hc) as (Hcl & v & Hv & Hvc & _).
      destruct (graph_df_node group v Hv) as (r & Hr & Hvr).
      assert (Hall : all_vertices_in c r = true).
      { eapply all_vertices_in_closed; [exact Hcl | exact Hr|].
        destruct Hvr as [<-|[<-|<-]]; auto. }
      intros Hnil.
      assert (Hin : In r (List.filter (all_vertices_in c) group))
        by (apply filter_In; split; [apply list_elem_of_In; exact Hr | exact Hall]).
      rewrite Hnil in Hin. destruct Hin.
    + intros r Hr. apply list_elem_of_In, filter_In in Hr as [Hr _].
      apply list_elem_of_In; exact Hr.
Qed.

Lemma nunique_one (l : list Q) :
  l ≠ [] → (∀ a b, a ∈ l → b ∈ l → (a == b)%Q) → nunique l = 1%nat.
Proof.
  unfold nunique. induction l as [|q l IH]; intros Hne Heq; [congruence|].
  cbn [unique_Q]. destruct l as [|q' l].
  - reflexivity.
  - assert (E : existsb (Qeq_bool q) (q' :: l) = true).
    { cbn [existsb]. apply orb_true_iff. left. apply Qeq_bool_iff.
      apply Heq; [left | right; left]. }
    rewrite E. apply IH; [discriminate|].
    intros a b Ha Hb. apply Heq; right; assumption.
Qed.

Lemma np_min_axis0_nonempty (a : list vec3) : a ≠ [] → ∃ v, np_min_axis0 a = Ok v.
Proof.
  destruct a as [|x a]; [congruence|]. intros _. unfold np_min_axis0.
  cbn [map np_min_Q Py.bind]. eexists; reflexivity.
Qed.

Lemma np_max_axis0_nonempty (a : list vec3) : a ≠ [] → ∃ v, np_max_axis0 a = Ok v.
Proof.
  destruct a as [|x a]; [congruence|]. intros _. unfold np_max_axis0.
  cbn [map np_max_Q Py.bind]. eexists; reflexivity.
Qed.

Lemma gathered_vertices_nonempty (rows : list MeshRow) :
  rows ≠ [] → map snd (gathered_vertices rows) ≠ [].
Proof.
  destruct rows as [|r rows]; [congruence|]. intros _.
  unfold gathered_vertices, drop_duplicates.
  cbn [map app drop_duplicates_from existsb]. discriminate.
Qed.

(** In a table whose rows face one direction no normal is nan. *)
Lemma same_direction_finite (rows : list MeshRow) :
  (∀ r r', r ∈ rows → r' ∈ rows →
           same_direction (face_normal r) (face_normal r') = true) →
  length (finite_normals rows) = length rows
  ∧ ∀ a b, a ∈ finite_normals rows → b ∈ finite_normals rows → vec_eqb a b = true.
Proof.
  intros Hdir. split.
  - induction rows as [|r rows IH]; [reflexivity|].
    unfold finite_normals. cbn [omap list_omap].
    pose proof (Hdir r r (list_elem_of_here _ _) (list_elem_of_here _ _)) as Hr.
    apply same_direction_iff in Hr as (x & _ & -> & _ & _). cbn [length]. f_equal.
    apply IH. intros a b Ha Hb. apply Hdir; right; assumption.
  - intros a b Ha Hb.
    apply finite_normals_elem in Ha as (ra & Hra & Ea).
    apply finite_normals_elem in Hb as (rb & Hrb & Eb).
    pose proof (Hdir ra rb Hra Hrb) as H. rewrite Ea, Eb in H. exact H.
Qed.

Lemma one_direction_nunique (rows : list MeshRow) (f : vec3 → Q) :
  rows ≠ [] →
  (∀ r r', r ∈ rows → r' ∈ rows →
           same_direction (face_normal r) (face_normal r') = true) →
  (∀ a b, vec_eqb a b = true → (f a == f b)%Q) →
  nunique (map f (finite_normals rows)) = 1%nat.
Proof.
  intros Hne Hdir Hf. destruct (same_direction_finite rows Hdir) as [Hlen Heq].
  apply nunique_one.
  - intros Hnil. apply (f_equal length) in Hnil.
    rewrite length_map, Hlen in Hnil. destruct rows; [congruence | discriminate].
  - intros a b Ha Hb.
    apply list_elem_of_fmap in Ha as (na & -> & Hna).
    apply list_elem_of_fmap in Hb as (nb & -> & Hnb).
    apply Hf, Heq; assumption.
Qed.

(** On a non-empty table whose rows face one direction the constructor of
    [BuildingWall] succeeds and keeps the table. *)
Lemma BuildingWall_init_Ok (rows : list MeshRow) :
  rows ≠ [] →
  (∀ r r', r ∈ rows → r' ∈ rows →
           same_direction (face_normal r) (face_normal r') = true) →
  ∃ wall, BuildingWall_init rows = Ok wall ∧ wall_mesh_df wall = rows.
Proof.
  intros Hne Hdir. unfold BuildingWall_init.
  rewrite (one_direction_nunique rows vx Hne Hdir),
          (one_direction_nunique rows vy Hne Hdir),
          (one_direction_nunique rows vz Hne Hdir).
  - cbn [Nat.eqb negb orb].
    destruct (np_min_axis0_nonempty _ (gathered_vertices_nonempty rows Hne)) as (mins & ->).
    destruct (np_max_axis0_nonempty _ (gathered_vertices_nonempty rows Hne)) as (maxs & ->).
    cbn [Py.bind]. destruct rows as [|first rest]; [congruence|].
    eexists. split; reflexivity.
  - intros a b. unfold vec_eqb. rewrite !andb_true_iff, !Qeq_bool_iff. tauto.
  - intros a b. unfold vec_eqb. rewrite !andb_true_iff, !Qeq_bool_iff. tauto.
  - intros a b. unfold vec_eqb. rewrite !andb_true_iff, !Qeq_bool_iff. tauto.
Qed.

Lemma mapM_Forall2 {A B : Type} (f : A → result B) (R : A → B → Prop) (l : list A) :
  (∀ x, x ∈ l → ∃ y, f x = Ok y ∧ R x y) →
  ∃ ys, mapM f l = Ok ys ∧ Forall2 R l ys.
Proof.
  induction l as [|x l IH]; intros H.
  - exists []. split; [reflexivity | constructor].
  - destruct (H x ltac:(left)) as (y & Hy & Hxy).
    destruct IH as (ys & Hys & Hall); [intros z Hz; apply H; right; exact Hz|].
    exists (y :: ys). cbn [mapM]. rewrite Hy, Hys. split; [reflexivity|].
    constructor; assumption.
Qed.

Lemma Forall2_map_eq {A B C : Type} (f : B → C) (g : A → C) (l : list A) (ys : list B) :
  Forall2 (fun x y => f y = g x) l ys → map f ys = map g l.
Proof.
  induction 1 as [|x y l ys Hxy _ IH]; [reflexivity|].
  cbn [map]. rewrite Hxy, IH. reflexivity.
Qed.

Lemma walls_of_group_Ok (group : list MeshRow) :
  group ≠ [] →
  (∀ r r', r ∈ group → r' ∈ group →
           same_direction (face_normal r) (face_normal r') = true) →
  ∃ walls, walls_of_group group = Ok walls
           ∧ map wall_mesh_df walls = wall_tables_of_group group.
Proof.
  intros Hne Hdir.
  pose proof (wall_tables_of_group_table group) as Htab.
  unfold walls_of_group, wall_tables_of_group in *.
  destruct (length (_get_connected_meshes_list group) =? 1)%nat.
  - destruct (BuildingWall_init_Ok group Hne Hdir) as (w & -> & Hw).
    exists [w]. cbn [Py.bind map]. rewrite Hw. split; reflexivity.
  - destruct (mapM_Forall2
                (fun component => BuildingWall_init
                                    (List.filter (all_vertices_in component) group))
                (fun component wall =>
                   wall_mesh_df wall = List.filter (all_vertices_in component) group)
                (_get_connected_meshes_list group)) as (walls & Hwalls & Hall).
    + intros c Hc.
      destruct (Htab (List.filter (all_vertices_in c) group) Hne) as [Hne' Hsub].
      { apply list_elem_of_fmap. exists c. split; [reflexivity | exact Hc]. }
      apply BuildingWall_init_Ok; [exact Hne'|].
      intros r r' Hr Hr'. apply Hdir; apply Hsub; assumption.
    + exists walls. split; [exact Hwalls|].
      apply Forall2_map_eq in Hall. exact Hall.
Qed.

(** The wall-class rows are those that pass the filter with a normal that
    is not nan, those of purely vertical normal and those whose normal is
    nan. *)
Lemma filter_vertical_horizontal (mesh_df : list MeshRow) :
  Permutation (List.filter has_finite_normal (List.filter is_vertical_wall mesh_df)
               ++ List.filter is_horizontal_wall mesh_df
               ++ List.filter is_degenerate_wall mesh_df)
              (List.filter (is_class "wall") mesh_df).
Proof.
  induction mesh_df as [|r l IH]; [reflexivity|].
  cbn [List.filter].
  unfold is_vertical_wall, is_horizontal_wall, is_degenerate_wall, has_finite_normal.
  destruct (is_class "wall" r); cbn [andb]; [|exact IH].
  destruct (face_normal r) as [n|] eqn:En; cbn [normal_z np_ne negb andb orb].
  - destruct (Qeq_bool (vz n) 1); cbn [negb andb orb List.filter].
    + etrans; [symmetry; apply Permutation_middle | constructor; exact IH].
    + destruct (Qeq_bool (vz n) (-1)); cbn [negb List.filter].
      * etrans; [symmetry; apply Permutation_middle | constructor; exact IH].
      * rewrite En. cbn [app]. constructor. exact IH.
  - cbn [List.filter]. rewrite En.
    rewrite app_assoc. etrans; [symmetry; apply Permutation_middle|].
    constructor. rewrite <- app_assoc. exact IH.
Qed.

Lemma NoDup_concat_disjoint {A : Type} (ls : list (list A)) (i j : nat)
    (a b : list A) (x : A) :
  NoDup (concat ls) → ls !! i = Some a → ls !! j = Some b → i ≠ j →
  x ∈ a → x ∈ b → False.
Proof.
  revert i j. induction ls as [|l ls IH]; intros i j Hnd Hi Hj Hij Ha Hb;
    [inversion Hi|].
  cbn [concat] in Hnd. apply NoDup_app in Hnd as (_ & Hdisj & Hnd).
  destruct i as [|i], j as [|j]; cbn in Hi, Hj.
  - congruence.
  - injection Hi as ->. apply (Hdisj x Ha).
    apply list_elem_of_In, in_concat. exists b.
    split; apply list_elem_of_In; [|exact Hb].
    eapply list_elem_of_lookup_2; exact Hj.
  - injection Hj as ->. apply (Hdisj x Hb).
    apply list_elem_of_In, in_concat. exists a.
    split; apply list_elem_of_In; [|exact Ha].
    eapply list_elem_of_lookup_2; exact Hi.
  - eapply (IH i j); eauto.
Qed.

(** C1, as the code has it.  For every face table the wall partitioning
    returns walls; the faces of the walls, the wall-class faces of purely
    vertical normal and the wall-class faces whose normal is nan (the faces of
    zero area, which [groupby] leaves out) are together, as a multiset of
    rows, the wall-class faces of the table, so that on a table without such a
    face the walls and the faces of purely vertical normal are all of them;
    and when the rows of the table have distinct index labels no face is in
    two walls. *)
Theorem wall_partition_invariant (mesh_df : list MeshRow) :
  ∃ walls,
    _get_building_walls mesh_df = Ok walls
    ∧ Permutation (flat_map wall_mesh_df walls
                   ++ List.filter is_horizontal_wall mesh_df
                   ++ List.filter is_degenerate_wall mesh_df)
                  (List.filter (is_class "wall") mesh_df)
    ∧ (List.filter is_degenerate_wall mesh_df = [] →
       Permutation (flat_map wall_mesh_df walls
                    ++ List.filter is_horizontal_wall mesh_df)
                   (List.filter (is_class "wall") mesh_df))
    ∧ (NoDup (map row_idx mesh_df) →
       ∀ i j wall_i wall_j r r',
         walls !! i = Some wall_i → walls !! j = Some wall_j → i ≠ j →
         r ∈ wall_mesh_df wall_i → r' ∈ wall_mesh_df wall_j →
         row_idx r ≠ row_idx r').
Proof.
  unfold _get_building_walls.
  set (wall_df := List.filter is_vertical_wall mesh_df).
  destruct (mapM_Forall2 walls_of_group
              (fun group walls => map wall_mesh_df walls = wall_tables_of_group group)
              (groupby_face_normal wall_df)) as (wss & Hwss & Hall).
  { intros g Hg. destruct (groupby_face_normal_group wall_df g Hg) as (Hne & _ & Hdir).
    apply walls_of_group_Ok; assumption. }
  rewrite Hwss. cbn [Py.bind]. exists (concat wss). split; [reflexivity|].
  assert (Hperm : Permutation (flat_map wall_mesh_df (concat wss))
                              (List.filter has_finite_normal wall_df)).
  { etrans; [|apply groupby_face_normal_perm].
    clear Hwss. induction Hall as [|g ws gs wss' Hg _ IH]; [reflexivity|].
    cbn [concat]. rewrite flat_map_app. apply Permutation_app; [|exact IH].
    rewrite flat_map_concat_map, Hg. apply wall_tables_of_group_perm. }
  assert (Hfull : Permutation (flat_map wall_mesh_df (concat wss)
                               ++ List.filter is_horizontal_wall mesh_df
                               ++ List.filter is_degenerate_wall mesh_df)
                              (List.filter (is_class "wall") mesh_df)).
  { etrans; [|apply filter_vertical_horizontal].
    apply Permutation_app; [exact Hperm | reflexivity]. }
  split; [exact Hfull|]. split.
  { intros Hnone. rewrite Hnone, app_nil_r in Hfull. exact Hfull. }
  intros Hnd i j wi wj r r' Hi Hj Hij Hr Hr' Heq.
  assert (Hnd' : NoDup (map row_idx (flat_map wall_mesh_df (concat wss)))).
  { assert (Hsub : NoDup (map row_idx (List.filter (is_class "wall") mesh_df))).
    { clear -Hnd. induction mesh_df as [|x l IH]; [constructor|].
      cbn [map] in Hnd. apply NoDup_cons in Hnd as [Hx Hnd].
      cbn [List.filter]. destruct (is_class "wall" x); [|apply IH; exact Hnd].
      cbn [map]. apply NoDup_cons. split; [|apply IH; exact Hnd].
      intros Hin. apply Hx.
      apply list_elem_of_fmap in Hin as (y & Hy & Hin).
      apply list_elem_of_fmap. exists y. split; [exact Hy|].
      apply list_elem_of_In, filter_In in Hin as [Hin _].
      apply list_elem_of_In; exact Hin. }
    rewrite <- Hfull, map_app in Hsub. apply NoDup_app in Hsub as [H _]. exact H. }
  rewrite flat_map_concat_map, concat_map in Hnd'.
  apply (NoDup_concat_disjoint _ i j (map row_idx (wall_mesh_df wi))
           (map row_idx (wall_mesh_df wj)) (row_idx r) Hnd').
  - rewrite !list_lookup_fmap, Hi. reflexivity.
  - rewrite !list_lookup_fmap, Hj. reflexivity.
  - exact Hij.
  - apply list_elem_of_fmap. exists r; split; [reflexivity | exact Hr].
  - rewrite Heq. apply list_elem_of_fmap. exists r'; split; [reflexivity | exact Hr'].
Qed.

Lemma wall_partition_invariant_witness :
  ∃ walls,
    _get_building_walls scene_mesh_df = Ok walls
    ∧ Permutation (flat_map wall_mesh_df walls
                   ++ List.filter is_horizontal_wall scene_mesh_df)
                  (List.filter (is_class "wall") scene_mesh_df)
    ∧ ∀ i j wall_i wall_j r r',
        walls !! i = Some wall_i → walls !! j = Some wall_j → i ≠ j →
        r ∈ wall_mesh_df wall_i → r' ∈ wall_mesh_df wall_j →
        row_idx r ≠ row_idx r'.
Proof.
  destruct (wall_partition_invariant scene_mesh_df)
    as (walls & Hwalls & _ & Hperm & Hdisj).
  exists walls. split; [exact Hwalls|]. split.
  - apply Hperm. vm_compute. reflexivity.
  - apply Hdisj. apply (bool_decide_unpack _). vm_compute. exact I.
Defined.

(** C1, the spec's wording refuted.  On the table made of the two faces of
    the first wall patch of the scene and of a wall face of zero area, whose
    normal is nan, the partitioning returns one wall, made of the two faces of
    the patch; the table has no wall-class face of purely vertical normal,
    and its wall-class faces are the three of them: the face of zero area is
    in no wall and is not an excluded face. *)
Theorem degenerate_wall_face_is_in_no_wall :
  ∃ wall,
    _get_building_walls degenerate_mesh_df = Ok [wall]
    ∧ wall_mesh_df wall = scene_first_patch
    ∧ List.filter is_horizontal_wall degenerate_mesh_df = []
    ∧ List.filter (is_class "wall") degenerate_mesh_df
      = scene_first_patch ++ [degenerate_wall_face]
    ∧ is_vertical_wall degenerate_wall_face = true.
Proof.
  eexists. split; [vm_compute; reflexivity|].
  repeat split; vm_compute; reflexivity.
Qed.

End WallPartition.

(** ** Windows and walls *)

Section WindowsOnWalls.

Import Nx Segmented MeshUtils.

(** Scenario C of the specification: two coplanar wall patches with the
    same normal and no common vertex give two walls. *)
Example two_disjoint_coplanar_patches :
  ∃ wall_a wall_b,
    _get_building_walls scene_mesh_df = Ok [wall_a; wall_b]
    ∧ map row_idx (wall_mesh_df wall_a) = [0; 1]%nat
    ∧ map row_idx (wall_mesh_df wall_b) = [2; 3]%nat.
Proof.
  eexists _, _. split; [vm_compute; reflexivity|].
  split; vm_compute; reflexivity.
Qed.

(** C10. Window-to-wall assignment is not exclusive.  In the scene of two
    coplanar wall patches the window component is returned by the query of
    each of the two walls, and its bounding-box area (1/10) is the numerator
    of the WWR of both (each wall has area 1). *)
Theorem window_counted_on_two_walls :
  ∃ model wall_a wall_b window_area wwr_a wwr_b,
    init_from_mesh_df scene_points scene_mesh_df = Ok model
    ∧ _building_walls model = [wall_a; wall_b]
    ∧ map row_idx (wall_mesh_df wall_a) = [0; 1]%nat
    ∧ map row_idx (wall_mesh_df wall_b) = [2; 3]%nat
    ∧ _window_graphs model = [scene_window]
    ∧ _get_windows_on_wall (_mesh_df model) (_window_graphs model) wall_a
      = Ok [scene_window]
    ∧ _get_windows_on_wall (_mesh_df model) (_window_graphs model) wall_b
      = Ok [scene_window]
    ∧ _get_window_area_from_component_graph (_points model) scene_window
      = Ok window_area
    ∧ (window_area == 1 # 10)%Q
    ∧ (area wall_a == 1)%Q ∧ (area wall_b == 1)%Q
    ∧ wall_wwr wall_a = Some (Finite wwr_a) ∧ (wwr_a == 1 # 10)%Q
    ∧ wall_wwr wall_b = Some (Finite wwr_b) ∧ (wwr_b == 1 # 10)%Q.
Proof.
  eexists _, _, _, _, _, _.
  split; [vm_compute; reflexivity|].
  repeat (split; [vm_compute; reflexivity|]).
  vm_compute; reflexivity.
Qed.

End WindowsOnWalls.

(** ** Window-to-wall ratio *)

Section WWR.

Import Nx Segmented MeshUtils.

Local Open Scope Q_scope.

Lemma np_divide_zero (a b : Q) : b == 0 → np_divide a b = quotient_by_zero a.
Proof.
  intros Hb. unfold np_divide, quotient_by_zero.
  apply Qeq_bool_iff in Hb. rewrite Hb. reflexivity.
Qed.

(** The model of the window alone is what the constructor builds from the
    window row, its wall area is 0, and its WWR is a value: infinity. *)
Lemma wwr_zero_wall_area_returns_inf :
  init_from_mesh_df scene_points scene_windows_only = Ok windows_only_model
  ∧ _get_all_wall_area (_mesh_df windows_only_model) == 0
  ∧ wwr windows_only_model = Ok PosInf
  ∧ ¬ Py.raises (wwr windows_only_model)
  ∧ wall_wwr (set_wwr empty_wall 0) = Some NaN.
Proof.
  assert (Hw : wwr windows_only_model = Ok PosInf) by (vm_compute; reflexivity).
  split; [vm_compute; reflexivity|].
  split; [vm_compute; reflexivity|].
  split; [exact Hw|].
  split; [rewrite Hw; intros []|].
  vm_compute; reflexivity.
Qed.

(** C5, as the code has it.  When the wall area is 0 the WWR raises nothing:
    overall, if the window areas can be computed, it is the numpy quotient by
    zero (nan for a zero window area, infinity for a positive one); and
    [set_wwr] on a wall of area 0 stores that quotient. *)
Theorem wwr_zero_wall_area :
  (∀ model windows_area,
     _get_all_wall_area (_mesh_df model) == 0 →
     _get_all_window_area (_points model) (_window_graphs model) = Ok windows_area →
     wwr model = Ok (quotient_by_zero windows_area))
  ∧ (∀ wall windows_area,
       area wall == 0 →
       wall_wwr (set_wwr wall windows_area) = Some (quotient_by_zero windows_area)).
Proof.
  split.
  - intros model windows_area Hzero Hwin. unfold wwr. rewrite Hwin.
    cbn [Py.bind]. f_equal. apply np_divide_zero. exact Hzero.
  - intros wall windows_area Hzero. unfold set_wwr. cbn [wall_wwr].
    f_equal. apply np_divide_zero. exact Hzero.
Qed.

Lemma wwr_zero_wall_area_witness :
  wwr windows_only_model = Ok (quotient_by_zero (160 # 1600))
  ∧ wall_wwr (set_wwr empty_wall 0) = Some (quotient_by_zero 0).
Proof.
  split.
  - apply (proj1 wwr_zero_wall_area windows_only_model (160 # 1600)).
    + vm_compute; reflexivity.
    + vm_compute; reflexivity.
  - apply (proj2 wwr_zero_wall_area empty_wall 0). reflexivity.
Defined.

End WWR.

(** ** Vertex classes and the face table *)

Section Classification.

Import Segmented PostProcess.

Lemma assign_class_map (points : list Point) (entry : string * ClassInfo) :
  assign_class points entry = map (fun p => assign_class_row p entry) points.
Proof.
  unfold assign_class, assign_class_row. destruct entry as [cls info].
  destruct (RGB info) as [[red green] blue]. reflexivity.
Qed.

Lemma fold_assign_class_map (seg_map : segmentation_map_t) (points : list Point) :
  fold_left assign_class seg_map points
  = map (fun p => fold_left assign_class_row seg_map p) points.
Proof.
  revert points; induction seg_map as [|e seg_map IH]; intros points; cbn [fold_left].
  - symmetry. apply map_id.
  - rewrite IH, assign_class_map, map_map. reflexivity.
Qed.

Lemma _assign_classes_map (seg_map : segmentation_map_t) (points : list Point) :
  _assign_classes seg_map points = map (classify_row seg_map) points.
Proof.
  unfold _assign_classes, classify_row. rewrite fold_assign_class_map, map_map.
  reflexivity.
Qed.

Lemma assign_class_row_spec (p : Point) (entry : string * ClassInfo) :
  rgb (assign_class_row p entry) = rgb p
  ∧ pos (assign_class_row p entry) = pos p
  ∧ ((RGB (snd entry) = rgb p ∧ seg_class (assign_class_row p entry) = fst entry)
     ∨ (RGB (snd entry) ≠ rgb p ∧ assign_class_row p entry = p)).
Proof.
  unfold assign_class_row. destruct entry as [cls info]. cbn [fst snd].
  destruct (RGB info) as [[red green] blue].
  destruct (rgb p) as [[r g] b] eqn:Ergb.
  destruct ((r =? red)%Z && (g =? green)%Z && (b =? blue)%Z) eqn:E.
  - apply andb_true_iff in E as [E E3]. apply andb_true_iff in E as [E1 E2].
    apply Z.eqb_eq in E1, E2, E3. subst.
    split; [exact Ergb|]. split; [reflexivity|]. left. split; reflexivity.
  - split; [exact Ergb|]. split; [reflexivity|]. right. split; [|reflexivity].
    intros H. injection H as -> -> ->. rewrite !Z.eqb_refl in E. discriminate.
Qed.

(** After the loop a row carries the class of the last entry of its colour,
    or keeps the class it had when no entry has its colour. *)
Lemma fold_assign_class_row_spec (seg_map : segmentation_map_t) (p : Point) :
  rgb (fold_left assign_class_row seg_map p) = rgb p
  ∧ ((∃ entry, entry ∈ seg_map ∧ RGB (snd entry) = rgb p
               ∧ seg_class (fold_left assign_class_row seg_map p) = fst entry)
     ∨ ((∀ entry, entry ∈ seg_map → RGB (snd entry) ≠ rgb p)
        ∧ fold_left assign_class_row seg_map p = p)).
Proof.
  revert p; induction seg_map as [|e seg_map IH]; intros p; cbn [fold_left].
  - split; [reflexivity|]. right. split; [|reflexivity]. intros entry H; inversion H.
  - destruct (assign_class_row_spec p e) as (Hrgb & _ & Hcase).
    destruct (IH (assign_class_row p e)) as (Hrgb' & IHcase).
    rewrite Hrgb in Hrgb'. split; [exact Hrgb'|].
    destruct IHcase as [(entry & Hin & Hc & Hcls)|[Hnone Hsame]].
    + left. exists entry. split; [right; exact Hin|]. rewrite Hrgb in Hc.
      split; assumption.
    + rewrite Hrgb in Hnone. destruct Hcase as [[Hc Hcls]|[Hc Hp]].
      * left. exists e. split; [left|]. split; [exact Hc|]. rewrite Hsame. exact Hcls.
      * right. split.
        -- intros entry Hin. apply elem_of_cons in Hin as [->|Hin]; [exact Hc | apply Hnone; exact Hin].
        -- rewrite Hsame. exact Hp.
Qed.

Lemma _fix_vertex_colors_map (seg_map : segmentation_map_t) (points : list Point) :
  seg_map ≠ [] →
  _fix_vertex_colors seg_map points
  = Ok (map (fun p => set_rgb p (nearest (map (fun kv => RGB (snd kv)) seg_map) (rgb p)))
            points).
Proof.
  intros Hne. unfold _fix_vertex_colors.
  rewrite color_quantization_spec by (destruct seg_map; [congruence | discriminate]).
  cbn [Py.bind]. f_equal.
  induction points as [|p points IH]; [reflexivity|].
  cbn [map zip_with]. f_equal. exact IH.
Qed.

(** The two steps as one map over the vertex table. *)
Lemma classified_points_map (seg_map : segmentation_map_t) (points : list Point) :
  pop_background seg_map ≠ [] →
  classified_points seg_map points
  = Ok (map (fun p =>
               classify_row (pop_background seg_map)
                 (set_rgb p (nearest (map (fun kv => RGB (snd kv)) (pop_background seg_map))
                                     (rgb p))))
            points).
Proof.
  intros Hne. unfold classified_points.
  rewrite _fix_vertex_colors_map by exact Hne. cbn [Py.bind].
  rewrite _assign_classes_map, map_map. reflexivity.
Qed.

(** A row whose colour is a palette colour leaves the loop with the class
    of an entry of that colour. *)
Lemma classify_row_labeled (palette : segmentation_map_t) (p : Point) :
  rgb p ∈ map (fun kv => RGB (snd kv)) palette →
  ∃ entry, entry ∈ palette
           ∧ RGB (snd entry) = rgb (classify_row palette p)
           ∧ seg_class (classify_row palette p) = fst entry.
Proof.
  intros Hc. unfold classify_row.
  destruct (fold_assign_class_row_spec palette (set_seg_class p ""))
    as (Hrgb & [(entry & Hin & Hcol & Hcls)|[Hnone _]]).
  - exists entry. split; [exact Hin|]. rewrite Hrgb. split; assumption.
  - exfalso. apply list_elem_of_fmap in Hc as (entry & Hce & Hin).
    apply (Hnone entry Hin). cbn [set_seg_class rgb]. symmetry. exact Hce.
Qed.

Lemma quantized_row_labeled (palette : segmentation_map_t) (p0 : Point) :
  palette ≠ [] →
  ∃ entry,
    entry ∈ palette
    ∧ RGB (snd entry)
      = rgb (classify_row palette
               (set_rgb p0 (nearest (map (fun kv => RGB (snd kv)) palette) (rgb p0))))
    ∧ seg_class (classify_row palette
                   (set_rgb p0 (nearest (map (fun kv => RGB (snd kv)) palette) (rgb p0))))
      = fst entry.
Proof.
  intros Hne. apply classify_row_labeled. cbn [set_rgb rgb].
  apply nearest_in_palette. destruct palette; [congruence | discriminate].
Qed.



(** The same for every model that is built, whatever the palette: with an
    empty palette the two steps succeed only on a model without vertices. *)
Corollary built_model_vertices_are_labeled (seg_map : segmentation_map_t)
    (points classified : list Point) :
  classified_points seg_map points = Ok classified →
  ∀ p, p ∈ classified →
    ∃ entry, entry ∈ pop_background seg_map
             ∧ RGB (snd entry) = rgb p ∧ seg_class p = fst entry.
Proof.
  intros Hbuilt p Hp.
  destruct (pop_background seg_map) as [|e palette] eqn:Epal.
  - exfalso. unfold classified_points in Hbuilt. rewrite Epal in Hbuilt.
    destruct points as [|p0 points].
    + cbn in Hbuilt. injection Hbuilt as <-. inversion Hp.
    + unfold _fix_vertex_colors, color_quantization in Hbuilt.
      destruct (assign_loop_empty_palette
                  (pixel_dict_loop 0 (map rgb (p0 :: points)) [])
                  (map rgb (p0 :: points))) as (msg & Hmsg).
      { apply pixel_dict_loop_nonempty. left. discriminate. }
      cbn [map] in Hbuilt, Hmsg. rewrite Hmsg in Hbuilt. discriminate Hbuilt.
  - assert (Hne : pop_background seg_map ≠ []) by (rewrite Epal; discriminate).
    rewrite (classified_points_map seg_map points Hne) in Hbuilt.
    injection Hbuilt as <-. rewrite <- Epal.
    apply list_elem_of_fmap in Hp as (p0 & -> & _).
    apply quantized_row_labeled. exact Hne.
Qed.

Example classified_points_example :
  ∃ classified,
    classified_points scene_segmentation_map noisy_points = Ok classified
    ∧ map seg_class classified = ["wall"; "window"]
    ∧ map rgb classified = [scene_wall_rgb; scene_window_rgb].
Proof.
  eexists. split; [vm_compute; reflexivity|]. split; reflexivity.
Qed.

End Classification.

Section FaceAssembly.

Import Segmented.

Lemma seg_class_eq_true (a b : option Point) :
  seg_class_eq a b = true ↔ ∃ p q, a = Some p ∧ b = Some q ∧ seg_class p = seg_class q.
Proof.
  unfold seg_class_eq. split.
  - destruct a as [p|], b as [q|]; try discriminate.
    intros H. apply String.eqb_eq in H. exists p, q. auto.
  - intros (p & q & -> & -> & H). apply String.eqb_eq. exact H.
Qed.

Lemma same_class_true (points : list Point) (m : Mesh) :
  same_class points m = true ↔
  ∃ p1 p2 p3, points !! id_v1 m = Some p1 ∧ points !! id_v2 m = Some p2
              ∧ points !! id_v3 m = Some p3
              ∧ seg_class p1 = seg_class p2 ∧ seg_class p2 = seg_class p3.
Proof.
  unfold same_class, merged_vertex. rewrite andb_true_iff, !seg_class_eq_true. split.
  - intros [(p1 & p2 & H1 & H2 & H12) (p2' & p3 & H2' & H3 & H23)].
    rewrite H2 in H2'. injection H2' as <-. exists p1, p2, p3. auto.
  - intros (p1 & p2 & p3 & H1 & H2 & H3 & H12 & H23). split.
    + exists p1, p2. auto.
    + exists p2, p3. auto.
Qed.

(** C2. Mixed-class faces are a fail-fast error.  If some face of the table
    has three vertices whose classes are not all the same, joining the
    vertex attributes onto the faces raises [NotImplementedError] (the spec's
    InconsistentClassificationError) and returns no table.  If the three
    vertices of every face agree, the join returns one row per face, in
    order, and the class of a row is the class of the vertices of its
    face. *)
Theorem mixed_class_faces_fail_fast (points : list Point) (meshes : list Mesh) :
  ((∃ m p1 p2 p3,
      m ∈ meshes ∧ points !! id_v1 m = Some p1 ∧ points !! id_v2 m = Some p2
      ∧ points !! id_v3 m = Some p3
      ∧ ¬ (seg_class p1 = seg_class p2 ∧ seg_class p2 = seg_class p3)) →
   ∃ msg, _get_segmented_mesh_info points meshes = Raise (NotImplementedError msg))
  ∧ ((∀ m, m ∈ meshes →
        ∃ p1 p2 p3, points !! id_v1 m = Some p1 ∧ points !! id_v2 m = Some p2
                    ∧ points !! id_v3 m = Some p3
                    ∧ seg_class p1 = seg_class p2 ∧ seg_class p2 = seg_class p3) →
     ∃ rows,
       _get_segmented_mesh_info points meshes = Ok rows
       ∧ length rows = length meshes
       ∧ ∀ i m, meshes !! i = Some m →
           ∃ row p1 p2 p3,
             rows !! i = Some row
             ∧ points !! id_v1 m = Some p1 ∧ points !! id_v2 m = Some p2
             ∧ points !! id_v3 m = Some p3
             ∧ idx row = i
             ∧ vid (v1 row) = id_v1 m ∧ vid (v2 row) = id_v2 m
             ∧ vid (v3 row) = id_v3 m
             ∧ face_class row = seg_class p1
             ∧ face_class row = seg_class p2
             ∧ face_class row = seg_class p3).
Proof.
  split.
  - intros (m & p1 & p2 & p3 & Hm & H1 & H2 & H3 & Hmixed).
    unfold _get_segmented_mesh_info.
    destruct (forallb (same_class points) meshes) eqn:E.
    + exfalso. rewrite forallb_forall in E.
      specialize (E m (proj1 (list_elem_of_In _ _) Hm)).
      apply same_class_true in E as (q1 & q2 & q3 & E1 & E2 & E3 & E12 & E23).
      rewrite H1 in E1; rewrite H2 in E2; rewrite H3 in E3.
      injection E1 as <-; injection E2 as <-; injection E3 as <-.
      apply Hmixed. split; assumption.
    + eexists. reflexivity.
  - intros Hagree. unfold _get_segmented_mesh_info.
    assert (E : forallb (same_class points) meshes = true).
    { apply forallb_forall. intros m Hm. apply same_class_true, Hagree.
      apply list_elem_of_In; exact Hm. }
    rewrite E.
    destruct (mapM_Forall2
                (fun im : nat * Mesh =>
                   match merged_row points (fst im) (snd im) with
                   | Some row => Ok row
                   | None => Raise (KeyError "seg_class_v1")
                   end)
                (fun im row => merged_row points (fst im) (snd im) = Some row)
                (imap (fun i m => (i, m)) meshes)) as (rows & Hrows & Hall).
    { intros [i m] Him. apply list_elem_of_lookup in Him as (k & Hk).
      rewrite list_lookup_imap in Hk.
      destruct (meshes !! k) as [m'|] eqn:Em; [|discriminate].
      injection Hk as <- <-.
      destruct (Hagree m') as (p1 & p2 & p3 & H1 & H2 & H3 & _).
      { eapply list_elem_of_lookup_2; exact Em. }
      cbn [fst snd]. unfold merged_row, merged_vertex. rewrite H1, H2, H3.
      eexists. split; reflexivity. }
    exists rows. split; [exact Hrows|]. split.
    { apply Forall2_length in Hall. rewrite length_imap in Hall. symmetry; exact Hall. }
    intros i m Him.
    assert (Hi : imap (fun i m => (i, m)) meshes !! i = Some (i, m))
      by (rewrite list_lookup_imap, Him; reflexivity).
    destruct (Forall2_lookup_l _ _ _ _ _ Hall Hi) as (row & Hrow & Hmerged).
    destruct (Hagree m) as (p1 & p2 & p3 & H1 & H2 & H3 & H12 & H23).
    { eapply list_elem_of_lookup_2; exact Him. }
    cbn [fst snd] in Hmerged. unfold merged_row, merged_vertex in Hmerged.
    rewrite H1, H2, H3 in Hmerged. injection Hmerged as <-.
    eexists. exists p1, p2, p3. split; [exact Hrow|].
    cbn [idx v1 v2 v3 vid face_vertex face_class].
    repeat split; try assumption; try reflexivity; congruence.
Qed.

Lemma mixed_class_faces_fail_fast_witness :
  (∃ msg, _get_segmented_mesh_info scene_points [scene_mixed_face]
          = Raise (NotImplementedError msg))
  ∧ (∃ rows, _get_segmented_mesh_info scene_points scene_meshes = Ok rows
             ∧ length rows = length scene_meshes).
Proof.
  split.
  - apply (proj1 (mixed_class_faces_fail_fast scene_points [scene_mixed_face])).
    eexists scene_mixed_face, _, _, _.
    split; [left|]. split; [reflexivity|]. split; [reflexivity|]. split; [reflexivity|].
    intros [_ H]. discriminate H.
  - destruct (proj2 (mixed_class_faces_fail_fast scene_points scene_meshes))
      as (rows & Hrows & Hlen & _).
    + intros m Hm. unfold scene_meshes in Hm.
      repeat (apply elem_of_cons in Hm as [->|Hm]);
        try (eexists _, _, _; repeat split; reflexivity).
      inversion Hm.
    + exists rows. split; assumption.
Defined.

(** Scenario D of the specification. *)
Example mixed_face_example :
  _get_segmented_mesh_info scene_points [scene_mixed_face]
  = Raise (NotImplementedError
             "Way to handle mesh faces with vertices of different semantic class has not been implemented, not possible to caluclate WWR").
Proof. reflexivity. Qed.

End FaceAssembly.

(** * Further properties *)

(** ** Colour quantization: nearest colour and images *)

Section QuantizationNearest.

Import PostProcess.

(** The closest colour is the first palette entry at the least distance. *)
Lemma closest_color_first (mc : list color) (p : color) :
  mc ≠ [] →
  ∃ j c, closest_color mc p = Ok c ∧ mc !! j = Some c
         ∧ (∀ c', c' ∈ mc → (sq_distance p c ≤ sq_distance p c')%Z)
         ∧ (∀ j' c', (j' < j)%nat → mc !! j' = Some c' →
                     (sq_distance p c < sq_distance p c')%Z).
Proof.
  intros Hne. unfold closest_color.
  remember (distances mc p) as ds eqn:Hds.
  destruct ds as [|x r].
  { destruct mc; [congruence | discriminate]. }
  cbn [np_min_Z Py.bind].
  pose proof (fold_min_le r x) as [Hle1 Hle2].
  assert (Hm : fold_left Z.min r x ∈ x :: r).
  { destruct (fold_min_in r x) as [->|H]; [left | right; exact H]. }
  assert (Hmin : ∀ y, y ∈ x :: r → (fold_left Z.min r x ≤ y)%Z).
  { intros y Hy. apply elem_of_cons in Hy as [->|Hy]; [exact Hle1 | apply Hle2; exact Hy]. }
  destruct (first_where_Some _ _ Hm) as (j & -> & Hj & Hfirst).
  rewrite Hds in Hj, Hfirst, Hmin. unfold distances in Hj, Hfirst, Hmin.
  rewrite list_lookup_fmap in Hj.
  destruct (mc !! j) as [c|] eqn:Hc; cbn in Hj; [|discriminate].
  injection Hj as Hj. exists j, c. split; [reflexivity|]. split; [exact Hc|].
  rewrite Hj. split.
  - intros c' Hc'. apply Hmin, list_elem_of_fmap.
    exists c'; split; [reflexivity | exact Hc'].
  - intros j' c' Hlt Hc'.
    assert (Hne' : sq_distance p c' ≠ fold_left Z.min r x).
    { apply (Hfirst j'); [exact Hlt|]. rewrite list_lookup_fmap, Hc'. reflexivity. }
    assert (fold_left Z.min r x ≤ sq_distance p c')%Z; [|lia].
    apply Hmin, list_elem_of_fmap. exists c'; split; [reflexivity|].
    eapply list_elem_of_lookup_2; exact Hc'.
Qed.

(** X1. On a non-empty palette quantization returns an array of the same
    length in which every colour is replaced by a palette entry at the least
    squared distance, and among the entries at that distance by the first in
    palette order. *)
Theorem color_quantization_nearest (arr mc : list color) :
  mc ≠ [] →
  ∃ out,
    color_quantization arr mc = Ok out
    ∧ length out = length arr
    ∧ ∀ i p, arr !! i = Some p →
        ∃ j c, out !! i = Some c ∧ mc !! j = Some c
               ∧ (∀ c', c' ∈ mc → (sq_distance p c ≤ sq_distance p c')%Z)
               ∧ (∀ j' c', (j' < j)%nat → mc !! j' = Some c' →
                           (sq_distance p c < sq_distance p c')%Z).
Proof.
  intros Hne. exists (map (nearest mc) arr).
  split; [apply color_quantization_spec; exact Hne|].
  split; [apply length_map|].
  intros i p Hp.
  destruct (closest_color_first mc p Hne) as (j & c & Hc & Hj & Hmin & Hfirst).
  exists j, c. rewrite list_lookup_fmap, Hp. cbn. unfold nearest. rewrite Hc.
  repeat split; assumption.
Qed.

Lemma color_quantization_nearest_witness :
  ∃ out,
    color_quantization [(90, 0, 10)%Z; (50, 110, 6)%Z] [(0, 0, 0)%Z; (100, 100, 10)%Z]
    = Ok out
    ∧ length out = 2%nat
    ∧ ∀ i p, [(90, 0, 10)%Z; (50, 110, 6)%Z] !! i = Some p →
        ∃ j c, out !! i = Some c ∧ [(0, 0, 0)%Z; (100, 100, 10)%Z] !! j = Some c
               ∧ (∀ c', c' ∈ [(0, 0, 0)%Z; (100, 100, 10)%Z] →
                        (sq_distance p c ≤ sq_distance p c')%Z)
               ∧ (∀ j' c', (j' < j)%nat →
                           [(0, 0, 0)%Z; (100, 100, 10)%Z] !! j' = Some c' →
                           (sq_distance p c < sq_distance p c')%Z).
Proof. apply color_quantization_nearest. discriminate. Defined.

Lemma reshape_to_rows_concat (rows : list (list color)) (h : nat) :
  (∀ row, row ∈ rows → length row = h) →
  reshape_to_rows (length rows) h (concat rows) = rows.
Proof.
  induction rows as [|row rows IH]; intros Hrect; [reflexivity|].
  cbn [length concat reshape_to_rows].
  assert (Hrow : length row = h) by (apply Hrect; left).
  rewrite take_app_length' by (symmetry; exact Hrow).
  rewrite drop_app_length' by (symmetry; exact Hrow).
  f_equal. apply IH. intros r Hr. apply Hrect; right; exact Hr.
Qed.

Lemma pixel_color_take (pixel : list Z) :
  (3 ≤ length pixel)%nat → pixel_color (take 3 pixel) = Ok (rgb_of_pixel pixel).
Proof.
  destruct pixel as [|r [|g [|b rest]]]; cbn [length]; try lia.
  intros _. reflexivity.
Qed.

Lemma mapM_Ok_map {A B : Type} (f : A → result B) (g : A → B) (l : list A) :
  (∀ x, x ∈ l → f x = Ok (g x)) → mapM f l = Ok (map g l).
Proof.
  induction l as [|x l IH]; intros H; [reflexivity|].
  cbn [mapM map]. rewrite (H x) by left.
  rewrite IH by (intros y Hy; apply H; right; exact Hy). reflexivity.
Qed.

Lemma reshape_to_pixels_Ok (img : image) :
  (∀ row pixel, row ∈ img → pixel ∈ row → (3 ≤ length pixel)%nat) →
  reshape_to_pixels (keep_rgb_channels img)
  = Ok (concat (map (map rgb_of_pixel) img)).
Proof.
  intros Hch. unfold reshape_to_pixels, keep_rgb_channels.
  induction img as [|row img IH]; [reflexivity|].
  cbn [map concat].
  assert (Hrow : mapM pixel_color (map (take 3) row) = Ok (map rgb_of_pixel row)).
  { assert (Hpx : ∀ pixel, pixel ∈ row → (3 ≤ length pixel)%nat)
      by (intros pixel Hp; apply (Hch row); [left | exact Hp]).
    clear -Hpx. induction row as [|px row IHr]; [reflexivity|].
    cbn [map mapM]. rewrite pixel_color_take by (apply Hpx; left).
    rewrite IHr by (intros q Hq; apply Hpx; right; exact Hq). reflexivity. }
  assert (Hrest : mapM pixel_color (concat (map (map (take 3)) img))
                  = Ok (concat (map (map rgb_of_pixel) img))).
  { apply IH. intros r px Hr Hp. apply (Hch r); [right; exact Hr | exact Hp]. }
  revert Hrow Hrest.
  generalize (map (take 3) row) (concat (map (map (take 3)) img))
             (map rgb_of_pixel row) (concat (map (map rgb_of_pixel) img)).
  intros l1. induction l1 as [|x l1 IHl]; intros l2 r1 r2 H1 H2.
  - cbn in H1. injection H1 as <-. exact H2.
  - cbn [app mapM] in *. destruct (pixel_color x) as [y|e]; [|discriminate].
    destruct (mapM pixel_color l1) as [ys|e] eqn:E; [|discriminate].
    injection H1 as <-. rewrite (IHl l2 ys r2 eq_refl H2). reflexivity.
Qed.

(** X2. On an image whose rows all have [h] pixels of at least three
    channels, quantization with a non-empty palette keeps the shape of the
    image, drops the channels after the third and replaces every pixel by
    the palette colour nearest to its first three channels. *)
Theorem color_quantization_img_pixelwise (img : image) (mc : list color) (h : nat) :
  mc ≠ [] →
  (∀ row, row ∈ img → length row = h) →
  (∀ row pixel, row ∈ img → pixel ∈ row → (3 ≤ length pixel)%nat) →
  color_quantization_img img mc
  = Ok (map (map (fun pixel => nearest mc (rgb_of_pixel pixel))) img).
Proof.
  intros Hne Hrect Hch. unfold color_quantization_img.
  rewrite reshape_to_pixels_Ok by exact Hch. cbn [Py.bind].
  rewrite color_quantization_spec by exact Hne. cbn [Py.bind]. f_equal.
  assert (Hh : length (hd [] (keep_rgb_channels img)) = h ∨ img = []).
  { destruct img as [|row img]; [right; reflexivity|]. left.
    cbn [keep_rgb_channels map hd]. rewrite length_map. apply Hrect; left. }
  destruct Hh as [Hh| ->]; [|reflexivity].
  rewrite Hh. unfold keep_rgb_channels. rewrite length_map.
  rewrite <- (length_map (map (fun pixel => nearest mc (rgb_of_pixel pixel))) img).
  rewrite <- (reshape_to_rows_concat
                (map (map (fun pixel => nearest mc (rgb_of_pixel pixel))) img) h) at 2.
  - f_equal. clear. induction img as [|row img IH]; [reflexivity|].
    cbn [map concat]. rewrite map_app, IH, !map_map. reflexivity.
  - intros row Hrow. apply list_elem_of_fmap in Hrow as (row0 & -> & Hrow0).
    rewrite length_map. apply Hrect; exact Hrow0.
Qed.

Lemma color_quantization_img_pixelwise_witness :
  color_quantization_img
    [ [ [0; 0; 0; 255]; [100; 100; 10; 255]; [0; 0; 0; 255] ];
      [ [100; 100; 10; 255]; [110; 99; 2; 255]; [100; 100; 10; 255] ];
      [ [0; 0; 10; 255]; [50; 110; 6; 255]; [10; 0; 0; 255] ] ]%Z
    [(0, 0, 0)%Z; (100, 100, 10)%Z]
  = Ok (map (map (fun pixel => nearest [(0, 0, 0)%Z; (100, 100, 10)%Z]
                                       (rgb_of_pixel pixel)))
            [ [ [0; 0; 0; 255]; [100; 100; 10; 255]; [0; 0; 0; 255] ];
              [ [100; 100; 10; 255]; [110; 99; 2; 255]; [100; 100; 10; 255] ];
              [ [0; 0; 10; 255]; [50; 110; 6; 255]; [10; 0; 0; 255] ] ]%Z).
Proof.
  apply (color_quantization_img_pixelwise _ _ 3%nat).
  - discriminate.
  - intros row Hrow. apply list_elem_of_In in Hrow. cbn in Hrow.
    intuition (subst; reflexivity).
  - intros row pixel Hrow Hpixel. apply list_elem_of_In in Hrow. cbn in Hrow.
    intuition (subst; apply list_elem_of_In in Hpixel; cbn in Hpixel;
               intuition (subst; cbn; lia)).
Defined.

(** The image of [test_color_quantization_img_int]. *)
Example color_quantization_img_test :
  color_quantization_img
    [ [ [0; 0; 0]; [100; 100; 10]; [0; 0; 0] ];
      [ [100; 100; 10]; [110; 99; 2]; [100; 100; 10] ];
      [ [0; 0; 10]; [50; 110; 6]; [10; 0; 0] ] ]%Z
    [(0, 0, 0)%Z; (100, 100, 10)%Z]
  = Ok [ [ (0, 0, 0); (100, 100, 10); (0, 0, 0) ];
         [ (100, 100, 10); (100, 100, 10); (100, 100, 10) ];
         [ (0, 0, 0); (100, 100, 10); (0, 0, 0) ] ]%Z.
Proof. vm_compute. reflexivity. Qed.

End QuantizationNearest.

(** ** Orientation of the face normals *)

Section FaceNormalOrientation.

Import MeshUtils.

Local Open Scope Q_scope.

Lemma any_row_false_iff (f : vec3) (t : triangle) :
  any_row (check_angles_row f (vertex_normals_of t)) = false ↔
  0 <= dot f (A_normal t) ∧ 0 <= dot f (B_normal t) ∧ 0 <= dot f (C_normal t).
Proof.
  unfold check_angles_row, vertex_normals_of, any_row, more_than_90_degrees, npsumdot.
  rewrite !orb_false_iff, !negb_false_iff, !Qle_bool_iff. tauto.
Qed.

Lemma any_row_true_iff (f : vec3) (t : triangle) :
  any_row (check_angles_row f (vertex_normals_of t)) = true ↔
  dot f (A_normal t) < 0 ∨ dot f (B_normal t) < 0 ∨ dot f (C_normal t) < 0.
Proof.
  unfold check_angles_row, vertex_normals_of, any_row.
  rewrite !orb_true_iff, !more_than_90_degrees_iff. tauto.
Qed.

Lemma face_row_after_disagree (t : triangle) :
  any_row (face_row_after t) = true ↔ vertex_normals_disagree t.
Proof.
  rewrite face_row_after_iff. unfold face_row_before.
  rewrite any_row_true_iff. reflexivity.
Qed.

Lemma np_any_map_true {A : Type} (f : A → angle_row) (l : list A) :
  np_any (map f l) = true ↔ ∃ x, x ∈ l ∧ any_row (f x) = true.
Proof.
  unfold np_any. rewrite existsb_exists. split.
  - intros (r & Hr & H). apply in_map_iff in Hr as (x & <- & Hx).
    exists x. split; [apply list_elem_of_In; exact Hx | exact H].
  - intros (x & Hx & H). exists (f x). split; [|exact H].
    apply in_map. apply list_elem_of_In; exact Hx.
Qed.

(** Whenever the function returns, it returns the per-face choice between
    the cross product and its opposite. *)
Lemma triangle_face_normals_Ok (batch : list triangle) :
  (∀ t, t ∈ batch → ¬ vertex_normals_disagree t) →
  triangle_face_normals batch = Ok (map face_flipped batch).
Proof.
  intros Hall. rewrite triangle_face_normals_unfold.
  rewrite flagged_after_flip_map, flagged_before_flip_map, flipped_face_normals_map.
  destruct (np_any (map face_row_after batch)) eqn:Ea.
  { apply np_any_map_true in Ea as (t & Ht & Ha).
    exfalso. apply (Hall t Ht). apply face_row_after_disagree. exact Ha. }
  destruct (np_any (map face_row_before batch)) eqn:Eb; [reflexivity|].
  f_equal. unfold raw_face_normals. apply map_ext_in. intros t Ht.
  unfold face_flipped. destruct (any_row (face_row_before t)) eqn:E; [|reflexivity].
  exfalso. assert (np_any (map face_row_before batch) = true); [|congruence].
  apply np_any_map_true. exists t. split; [apply list_elem_of_In; exact Ht | exact E].
Qed.

(** X3. [triangle_face_normals] raises exactly when the vertex normals of
    some face lie strictly on both sides of the plane of the face; the
    error is then [UncorrectedMeshes] with a count between 1 and the number
    of faces. *)
Theorem triangle_face_normals_raises_iff (batch : list triangle) :
  ((∃ e, triangle_face_normals batch = Raise e) ↔
   (∃ t, t ∈ batch ∧ vertex_normals_disagree t))
  ∧ (∀ e, triangle_face_normals batch = Raise e →
          ∃ n, e = UncorrectedMeshes n ∧ (1 ≤ n ≤ length batch)%nat).
Proof.
  split; [split|].
  - intros [e He]. rewrite triangle_face_normals_unfold in He.
    destruct (np_any (flagged_before_flip batch)); [|discriminate].
    destruct (np_any (flagged_after_flip batch)) eqn:Ea; [|discriminate].
    rewrite flagged_after_flip_map in Ea.
    apply np_any_map_true in Ea as (t & Ht & Ha).
    exists t. split; [exact Ht | apply face_row_after_disagree; exact Ha].
  - intros (t & Ht & Hd). rewrite triangle_face_normals_unfold.
    apply face_row_after_disagree in Hd.
    assert (Ea : np_any (flagged_after_flip batch) = true).
    { rewrite flagged_after_flip_map. apply np_any_map_true. exists t. split; assumption. }
    assert (Eb : np_any (flagged_before_flip batch) = true).
    { rewrite flagged_before_flip_map. apply np_any_map_true. exists t.
      split; [exact Ht | apply face_row_after_before; exact Hd]. }
    rewrite Ea, Eb. eexists. reflexivity.
  - intros e He. rewrite triangle_face_normals_unfold in He.
    destruct (np_any (flagged_before_flip batch)) eqn:Eb; [|discriminate].
    destruct (np_any (flagged_after_flip batch)); [|discriminate].
    injection He as <-. eexists. split; [reflexivity|]. split.
    + apply np_any_count in Eb. lia.
    + rewrite flagged_before_flip_map. unfold count_any.
      etransitivity; [apply List.filter_length_le|]. rewrite length_map. reflexivity.
Qed.

(** X4. When no face has vertex normals strictly on both sides of its
    plane, [triangle_face_normals] returns one normal per face, each the
    cross product of the two edge vectors or its opposite, and none more
    than 90 degrees from any of the three vertex normals of its face. *)
Theorem triangle_face_normals_oriented (batch : list triangle) :
  (∀ t, t ∈ batch → ¬ vertex_normals_disagree t) →
  ∃ normals,
    triangle_face_normals batch = Ok normals
    ∧ Forall2 (fun t n =>
                 (n = cross (AB t) (AC t) ∨ n = vscale (-1) (cross (AB t) (AC t)))
                 ∧ 0 <= dot n (A_normal t)
                 ∧ 0 <= dot n (B_normal t)
                 ∧ 0 <= dot n (C_normal t)) batch normals.
Proof.
  intros Hall. exists (map face_flipped batch).
  split; [apply triangle_face_normals_Ok; exact Hall|].
  apply Forall2_fmap_r, Forall_Forall2_diag, Forall_forall.
  intros t Ht. split.
  - unfold face_flipped. destruct (any_row (face_row_before t)); [right | left]; reflexivity.
  - apply any_row_false_iff. fold (face_row_after t).
    destruct (any_row (face_row_after t)) eqn:E; [|reflexivity].
    exfalso. apply (Hall t Ht), face_row_after_disagree, E.
Qed.

Lemma triangle_face_normals_oriented_witness :
  ∃ normals,
    triangle_face_normals
      [ Triangle (V3 1 0 0) (V3 0 1 0) (V3 0 0 1) (V3 0 0 1) (V3 0 0 1);
        Triangle (V3 0 1 1) (V3 1 1 0) (V3 2 (-2) (-2)) (V3 0 (-2) 3) (V3 2 0 1) ]
    = Ok normals
    ∧ Forall2 (fun t n =>
                 (n = cross (AB t) (AC t) ∨ n = vscale (-1) (cross (AB t) (AC t)))
                 ∧ 0 <= dot n (A_normal t)
                 ∧ 0 <= dot n (B_normal t)
                 ∧ 0 <= dot n (C_normal t))
        [ Triangle (V3 1 0 0) (V3 0 1 0) (V3 0 0 1) (V3 0 0 1) (V3 0 0 1);
          Triangle (V3 0 1 1) (V3 1 1 0) (V3 2 (-2) (-2)) (V3 0 (-2) 3) (V3 2 0 1) ]
        normals.
Proof.
  apply triangle_face_normals_oriented.
  intros t Ht. apply list_elem_of_In in Ht. cbn [In] in Ht.
  destruct Ht as [<-|[<-|[]]]; intros [H1 H2]; vm_compute in H1, H2;
    intuition discriminate.
Defined.

Lemma dot_cross_swap (a b v : vec3) : dot (cross b a) v == - dot (cross a b) v.
Proof. unfold dot, cross. cbn [vx vy vz]. ring. Qed.

Lemma vertex_normals_disagree_swap (t : triangle) :
  vertex_normals_disagree (swap_winding t) ↔ vertex_normals_disagree t.
Proof.
  unfold vertex_normals_disagree, swap_winding. cbn [AB AC A_normal B_normal C_normal].
  pose proof (dot_cross_swap (AB t) (AC t) (A_normal t)) as Ha.
  pose proof (dot_cross_swap (AB t) (AC t) (B_normal t)) as Hb.
  pose proof (dot_cross_swap (AB t) (AC t) (C_normal t)) as Hc.
  split; intros [H1 H2]; split; destruct H1 as [H1|[H1|H1]], H2 as [H2|[H2|H2]];
    first [ left; lra | right; left; lra | right; right; lra ].
Qed.

Lemma vec_equiv_cross_swap (a b : vec3) :
  vec_equiv (cross b a) (vscale (-1) (cross a b))
  ∧ vec_equiv (vscale (-1) (cross b a)) (cross a b).
Proof. unfold vec_equiv, cross, vscale. cbn [vx vy vz]. repeat split; ring. Qed.

(** The orientation chosen for a face does not depend on its winding. *)
Lemma face_flipped_swap (t : triangle) :
  ¬ vertex_normals_disagree t →
  (dot (cross (AB t) (AC t)) (A_normal t) == 0 → False)
  ∨ (dot (cross (AB t) (AC t)) (B_normal t) == 0 → False)
  ∨ (dot (cross (AB t) (AC t)) (C_normal t) == 0 → False) →
  vec_equiv (face_flipped (swap_winding t)) (face_flipped t).
Proof.
  intros Hnd Hnz. unfold face_flipped, face_row_before.
  destruct (any_row (check_angles_row (cross (AB t) (AC t)) (vertex_normals_of t))) eqn:E.
  - apply any_row_true_iff in E.
    assert (E' : any_row (check_angles_row (cross (AB (swap_winding t)) (AC (swap_winding t)))
                            (vertex_normals_of (swap_winding t))) = false).
    { apply any_row_false_iff. cbn [swap_winding AB AC A_normal B_normal C_normal].
      pose proof (dot_cross_swap (AB t) (AC t) (A_normal t)) as Ea.
      pose proof (dot_cross_swap (AB t) (AC t) (B_normal t)) as Eb.
      pose proof (dot_cross_swap (AB t) (AC t) (C_normal t)) as Ec.
      assert (Hpos : ¬ (0 < dot (cross (AB t) (AC t)) (A_normal t)
                        ∨ 0 < dot (cross (AB t) (AC t)) (B_normal t)
                        ∨ 0 < dot (cross (AB t) (AC t)) (C_normal t))).
      { intros Hp. apply Hnd. split; assumption. }
      repeat split.
      - destruct (Qlt_le_dec 0 (dot (cross (AB t) (AC t)) (A_normal t))); [tauto | lra].
      - destruct (Qlt_le_dec 0 (dot (cross (AB t) (AC t)) (B_normal t))); [tauto | lra].
      - destruct (Qlt_le_dec 0 (dot (cross (AB t) (AC t)) (C_normal t))); [tauto | lra]. }
    rewrite E'. apply vec_equiv_cross_swap.
  - apply any_row_false_iff in E. destruct E as (Ha & Hb & Hc).
    assert (E' : any_row (check_angles_row (cross (AB (swap_winding t)) (AC (swap_winding t)))
                            (vertex_normals_of (swap_winding t))) = true).
    { apply any_row_true_iff. cbn [swap_winding AB AC A_normal B_normal C_normal].
      pose proof (dot_cross_swap (AB t) (AC t) (A_normal t)) as Ea.
      pose proof (dot_cross_swap (AB t) (AC t) (B_normal t)) as Eb.
      pose proof (dot_cross_swap (AB t) (AC t) (C_normal t)) as Ec.
      destruct Hnz as [Hz|[Hz|Hz]].
      - left. destruct (Qlt_le_dec 0 (dot (cross (AB t) (AC t)) (A_normal t))); [lra|].
        exfalso. apply Hz. lra.
      - right; left. destruct (Qlt_le_dec 0 (dot (cross (AB t) (AC t)) (B_normal t))); [lra|].
        exfalso. apply Hz. lra.
      - right; right. destruct (Qlt_le_dec 0 (dot (cross (AB t) (AC t)) (C_normal t))); [lra|].
        exfalso. apply Hz. lra. }
    rewrite E'. apply vec_equiv_cross_swap.
Qed.

(** X5. The returned normals do not depend on the winding order of the
    faces: when no face has vertex normals strictly on both sides of its
    plane and every face has a vertex normal off its plane, exchanging the two
    edge vectors of every face gives the same normals. *)
Theorem triangle_face_normals_winding (batch : list triangle) :
  (∀ t, t ∈ batch → ¬ vertex_normals_disagree t) →
  (∀ t, t ∈ batch →
        ¬ (dot (cross (AB t) (AC t)) (A_normal t) == 0
           ∧ dot (cross (AB t) (AC t)) (B_normal t) == 0
           ∧ dot (cross (AB t) (AC t)) (C_normal t) == 0)) →
  ∃ normals swapped,
    triangle_face_normals batch = Ok normals
    ∧ triangle_face_normals (map swap_winding batch) = Ok swapped
    ∧ Forall2 vec_equiv swapped normals.
Proof.
  intros Hall Hnz.
  exists (map face_flipped batch), (map face_flipped (map swap_winding batch)).
  split; [apply triangle_face_normals_Ok; exact Hall|]. split.
  - apply triangle_face_normals_Ok. intros t' Ht'.
    apply list_elem_of_fmap in Ht' as (t & -> & Ht).
    rewrite vertex_normals_disagree_swap. apply Hall; exact Ht.
  - rewrite map_map. apply Forall2_fmap, Forall_Forall2_diag, Forall_forall.
    intros t Ht. apply face_flipped_swap; [apply Hall; exact Ht|].
    specialize (Hnz t Ht).
    destruct (Qeq_dec (dot (cross (AB t) (AC t)) (A_normal t)) 0) as [Ha|Ha];
      [|left; exact Ha].
    destruct (Qeq_dec (dot (cross (AB t) (AC t)) (B_normal t)) 0) as [Hb|Hb];
      [|right; left; exact Hb].
    destruct (Qeq_dec (dot (cross (AB t) (AC t)) (C_normal t)) 0) as [Hc|Hc];
      [|right; right; exact Hc].
    exfalso. apply Hnz. repeat split; assumption.
Qed.

Lemma triangle_face_normals_winding_witness :
  ∃ normals swapped,
    triangle_face_normals
      [ Triangle (V3 1 0 0) (V3 0 1 0) (V3 0 0 1) (V3 0 0 1) (V3 0 0 1);
        Triangle (V3 0 1 1) (V3 1 1 0) (V3 2 (-2) (-2)) (V3 0 (-2) 3) (V3 2 0 1) ]
    = Ok normals
    ∧ triangle_face_normals
        (map swap_winding
          [ Triangle (V3 1 0 0) (V3 0 1 0) (V3 0 0 1) (V3 0 0 1) (V3 0 0 1);
            Triangle (V3 0 1 1) (V3 1 1 0) (V3 2 (-2) (-2)) (V3 0 (-2) 3) (V3 2 0 1) ])
      = Ok swapped
    ∧ Forall2 vec_equiv swapped normals.
Proof.
  apply triangle_face_normals_winding.
  - intros t Ht. apply list_elem_of_In in Ht. cbn [In] in Ht.
    destruct Ht as [<-|[<-|[]]]; intros [H1 H2]; vm_compute in H1, H2;
      intuition discriminate.
  - intros t Ht. apply list_elem_of_In in Ht. cbn [In] in Ht.
    destruct Ht as [<-|[<-|[]]]; intros (H1 & H2 & H3); vm_compute in H1, H2, H3;
      discriminate.
Defined.

End FaceNormalOrientation.

(** ** Edges crossing the probe plane *)

Section LinePlaneSides.

Import MeshUtils.

Local Open Scope Q_scope.

Lemma dot_vsub_sides (pp : vec3 * vec3 * vec3) (p0 p1 : vec3) :
  dot (vsub p1 p0) (plane_normal pp) == plane_side pp p1 - plane_side pp p0.
Proof. unfold plane_side, dot, vsub. cbn [vx vy vz]. ring. Qed.

Lemma not_on_plane_nonzero (normal : vec3) (e : vec3 * vec3) :
  vector_on_plane normal e = false → ¬ dot (vsub (snd e) (fst e)) normal == 0.
Proof.
  intros Hoff Hz.
  assert (Hon : vector_on_plane normal e = true); [|congruence].
  apply vector_on_plane_iff. rewrite Hz. discriminate.
Qed.

(** The parameter of the crossing point lies in [0, 1] exactly when the
    plane equation does not have the same strict sign at the two ends. *)
Lemma parameter_in_unit_interval (s0 s1 : Q) :
  ¬ s1 - s0 == 0 →
  (0 <= - (s0 / (s1 - s0)) ∧ - (s0 / (s1 - s0)) <= 1) ↔ s0 * s1 <= 0.
Proof.
  intros HD.
  assert (Hq : (s0 / (s1 - s0)) * (s1 - s0) == s0).
  { rewrite Qmult_comm. apply Qmult_div_r. exact HD. }
  set (q := s0 / (s1 - s0)) in *. clearbody q.
  set (D := s1 - s0) in *.
  assert (Hs1 : s1 == D + s0) by (unfold D; ring).
  clearbody D.
  assert (Hp : s0 * s1 == (q * (q + 1)) * (D * D)).
  { rewrite Hs1, <- Hq. ring. }
  assert (HDD : 0 < D * D).
  { destruct (Q_dec D 0) as [[Hneg|Hpos]|Hz]; [nra | nra | contradiction]. }
  rewrite Hp. clear Hp Hs1 Hq HD.
  set (P := q * (q + 1)). assert (HP : P == q * (q + 1)) by reflexivity.
  set (DD := D * D) in *. clearbody P DD.
  split.
  - intros [H0 H1].
    assert (P <= 0) by nra.
    assert (0 <= (- P) * DD) by (apply Qmult_le_0_compat; lra).
    lra.
  - intros H.
    assert (HP0 : P <= 0).
    { destruct (Qlt_le_dec 0 P) as [Hpos|Hle]; [|exact Hle].
      assert (0 < P * DD) by (apply Qmult_lt_0_compat; assumption). lra. }
    split; nra.
Qed.

Lemma edge_intersects_sides (pp : vec3 * vec3 * vec3) (dom : box) (e : vec3 * vec3) :
  vector_on_plane (plane_normal pp) e = false →
  edge_intersects pp dom e = true ↔
  plane_side pp (fst e) * plane_side pp (snd e) <= 0.
Proof.
  intros Hoff. unfold edge_intersects. rewrite Hoff.
  pose proof (not_on_plane_nonzero _ _ Hoff) as Hnz.
  rewrite line_parameter_finite by exact Hnz.
  rewrite crosses_finite.
  pose proof (dot_vsub_sides pp (fst e) (snd e)) as HD.
  assert (Hs0 : dot (fst e) (plane_normal pp) + - dot (plane_normal pp) (fst (fst pp))
                == plane_side pp (fst e)).
  { unfold plane_side. rewrite (dot_comm (fst e)). reflexivity. }
  rewrite Hs0, HD. apply parameter_in_unit_interval. rewrite <- HD. exact Hnz.
Qed.

(** X6. For an edge that is not parallel to the probe plane (the dot
    product of its direction with the plane normal is more than 1e-6 from
    zero) the entry returned by [find_if_line_and_plane_intersect] is true
    exactly when the two endpoints are not strictly on the same side of the
    plane; the domain box plays no part. *)
Theorem crossing_edges_have_ends_on_both_sides (edges : list (vec3 * vec3))
    (plane_points : vec3 * vec3 * vec3) (domain : box) :
  ∃ results,
    find_if_line_and_plane_intersect edges plane_points domain = Ok results
    ∧ Forall2
        (fun e b =>
           ¬ Qabs (dot (vsub (snd e) (fst e)) (plane_normal plane_points))
               <= 1 # 1000000 →
           (b = true ↔
            plane_side plane_points (fst e) * plane_side plane_points (snd e) <= 0))
        edges results.
Proof.
  exists (map (edge_intersects plane_points domain) edges).
  split; [apply find_if_line_and_plane_intersect_map|].
  apply Forall2_fmap_r, Forall_Forall2_diag, Forall_forall.
  intros e _ Hoff. apply edge_intersects_sides.
  destruct (vector_on_plane (plane_normal plane_points) e) eqn:E; [|reflexivity].
  exfalso. apply Hoff, vector_on_plane_iff, E.
Qed.

Lemma vector_on_plane_reverse (normal : vec3) (e : vec3 * vec3) :
  vector_on_plane normal (reverse_edge e) = vector_on_plane normal e.
Proof.
  assert (H : vector_on_plane normal (reverse_edge e) = true
              ↔ vector_on_plane normal e = true).
  { rewrite !vector_on_plane_iff. unfold reverse_edge. cbn [fst snd].
    assert (Hd : dot (vsub (fst e) (snd e)) normal
                 == - dot (vsub (snd e) (fst e)) normal).
    { unfold dot, vsub. cbn [vx vy vz]. ring. }
    rewrite Hd, Qabs_opp. reflexivity. }
  destruct (vector_on_plane normal (reverse_edge e)),
           (vector_on_plane normal e); try reflexivity.
  - symmetry. apply H. reflexivity.
  - apply H. reflexivity.
Qed.

Lemma edge_intersects_reverse (pp : vec3 * vec3 * vec3) (dom : box) (e : vec3 * vec3) :
  edge_intersects pp dom (reverse_edge e) = edge_intersects pp dom e.
Proof.
  destruct (vector_on_plane (plane_normal pp) e) eqn:E.
  - unfold edge_intersects. rewrite vector_on_plane_reverse, E.
    unfold reverse_edge. cbn [fst snd]. apply andb_comm.
  - assert (E' : vector_on_plane (plane_normal pp) (reverse_edge e) = false)
      by (rewrite vector_on_plane_reverse; exact E).
    pose proof (edge_intersects_sides pp dom e E) as H.
    pose proof (edge_intersects_sides pp dom (reverse_edge e) E') as H'.
    unfold reverse_edge in H' at 2 3. cbn [fst snd] in H'.
    rewrite (Qmult_comm (plane_side pp (snd e))) in H'.
    destruct (edge_intersects pp dom (reverse_edge e)),
             (edge_intersects pp dom e); try reflexivity.
    + symmetry. apply H, H'. reflexivity.
    + apply H', H. reflexivity.
Qed.

(** X7. The result of [find_if_line_and_plane_intersect] does not depend on
    the direction of the edges: exchanging [vertices_1] and [vertices_2]
    gives the same array. *)
Theorem find_if_line_and_plane_intersect_reverse (edges : list (vec3 * vec3))
    (plane_points : vec3 * vec3 * vec3) (domain : box) :
  find_if_line_and_plane_intersect (map reverse_edge edges) plane_points domain
  = find_if_line_and_plane_intersect edges plane_points domain.
Proof.
  rewrite !find_if_line_and_plane_intersect_map, map_map. f_equal.
  apply map_ext. intros e. apply edge_intersects_reverse.
Qed.

End LinePlaneSides.

(** ** The constructor of [BuildingWall] *)

Section BuildingWallSpec.

Import MeshUtils Segmented.

Local Open Scope Q_scope.

Lemma unique_Q_representative (l : list Q) (x : Q) :
  x ∈ l → ∃ y, y ∈ unique_Q l ∧ x == y.
Proof.
  revert x. induction l as [|q l IH]; intros x Hx; [inversion Hx|].
  cbn [unique_Q].
  assert (Htail : ∀ z, z ∈ l → ∃ y,
            y ∈ (if existsb (Qeq_bool q) l then unique_Q l else q :: unique_Q l)
            ∧ z == y).
  { intros z Hz. destruct (IH z Hz) as (y & Hy & Hzy). exists y. split; [|exact Hzy].
    destruct (existsb (Qeq_bool q) l); [exact Hy | right; exact Hy]. }
  apply elem_of_cons in Hx as [->|Hx]; [|apply Htail; exact Hx].
  destruct (existsb (Qeq_bool q) l) eqn:E.
  - apply existsb_exists in E as (z & Hz & Hqz). apply Qeq_bool_iff in Hqz.
    destruct (IH z (proj2 (list_elem_of_In _ _) Hz)) as (y & Hy & Hzy).
    exists y. split; [exact Hy | rewrite Hqz; exact Hzy].
  - exists q. split; [left | reflexivity].
Qed.

Lemma nunique_one_inv (l : list Q) (a b : Q) :
  nunique l = 1%nat → a ∈ l → b ∈ l → a == b.
Proof.
  unfold nunique. intros Hn Ha Hb.
  destruct (unique_Q l) as [|y [|y' u]] eqn:E; try discriminate.
  destruct (unique_Q_representative l a Ha) as (ya & Hya & Haya).
  destruct (unique_Q_representative l b Hb) as (yb & Hyb & Hbyb).
  rewrite E in Hya, Hyb.
  apply list_elem_of_singleton in Hya, Hyb. subst. rewrite Haya, Hbyb. reflexivity.
Qed.

Lemma forallb_false_exists {A : Type} (f : A → bool) (l : list A) :
  forallb f l = false → ∃ x, x ∈ l ∧ f x = false.
Proof.
  induction l as [|x l IH]; [discriminate|]. cbn [forallb].
  destruct (f x) eqn:E.
  - intros H. destruct (IH H) as (y & Hy & Hfy). exists y. split; [right|]; assumption.
  - intros _. exists x. split; [left | exact E].
Qed.

(** Two rows whose normals are not nan and differ make the constructor
    raise. *)
Lemma BuildingWall_init_two_directions (rows : list MeshRow) (n n' : vec3) :
  n ∈ finite_normals rows → n' ∈ finite_normals rows →
  vec_eqb n n' = false →
  ∃ msg, BuildingWall_init rows = Raise (RuntimeError msg).
Proof.
  intros Hn Hn' Hdiff. unfold BuildingWall_init.
  destruct (negb (nunique (map vx (finite_normals rows)) =? 1)%nat
            || negb (nunique (map vy (finite_normals rows)) =? 1)%nat
            || negb (nunique (map vz (finite_normals rows)) =? 1)%nat) eqn:E.
  { eexists; reflexivity. }
  exfalso. rewrite !orb_false_iff, !negb_false_iff, !Nat.eqb_eq in E.
  destruct E as [[Ex Ey] Ez].
  assert (Hcol : ∀ f : vec3 → Q,
            nunique (map f (finite_normals rows)) = 1%nat → f n == f n').
  { intros f Hf. apply (nunique_one_inv _ _ _ Hf).
    - apply list_elem_of_fmap. exists n. split; [reflexivity | exact Hn].
    - apply list_elem_of_fmap. exists n'. split; [reflexivity | exact Hn']. }
  assert (Hsame : vec_eqb n n' = true); [|congruence].
  unfold vec_eqb. rewrite !andb_true_iff, !Qeq_bool_iff.
  repeat split; apply Hcol; assumption.
Qed.

(** A table with a normal that is not nan, and whose normals that are not
    nan are equal, makes a wall. *)
Lemma BuildingWall_init_passes (rows : list MeshRow) :
  finite_normals rows ≠ [] →
  (∀ a b, a ∈ finite_normals rows → b ∈ finite_normals rows → vec_eqb a b = true) →
  ∃ wall, BuildingWall_init rows = Ok wall.
Proof.
  intros Hfin Heq. unfold BuildingWall_init.
  assert (Hne : rows ≠ []) by (intros ->; apply Hfin; reflexivity).
  assert (Hcol : ∀ f : vec3 → Q,
            (∀ a b, vec_eqb a b = true → f a == f b) →
            nunique (map f (finite_normals rows)) = 1%nat).
  { intros f Hf. apply nunique_one.
    - intros Hnil. apply Hfin. destruct (finite_normals rows); [reflexivity | discriminate].
    - intros a b Ha Hb.
      apply list_elem_of_fmap in Ha as (na & -> & Hna).
      apply list_elem_of_fmap in Hb as (nb & -> & Hnb).
      apply Hf, Heq; assumption. }
  rewrite (Hcol vx), (Hcol vy), (Hcol vz).
  - cbn [Nat.eqb negb orb].
    destruct (np_min_axis0_nonempty _ (gathered_vertices_nonempty rows Hne)) as (mins & ->).
    destruct (np_max_axis0_nonempty _ (gathered_vertices_nonempty rows Hne)) as (maxs & ->).
    cbn [Py.bind]. destruct rows as [|first rest]; [congruence|].
    eexists. reflexivity.
  - intros a b. unfold vec_eqb. rewrite !andb_true_iff, !Qeq_bool_iff. tauto.
  - intros a b. unfold vec_eqb. rewrite !andb_true_iff, !Qeq_bool_iff. tauto.
  - intros a b. unfold vec_eqb. rewrite !andb_true_iff, !Qeq_bool_iff. tauto.
Qed.

Lemma finite_normals_nil (rows : list MeshRow) :
  finite_normals rows = [] ↔ ∀ r, r ∈ rows → face_normal r = NaNNormal.
Proof.
  split.
  - intros Hnil r Hr. destruct (face_normal r) as [n|] eqn:En; [|reflexivity].
    assert (Hin : n ∈ finite_normals rows)
      by (apply finite_normals_elem; exists r; split; assumption).
    rewrite Hnil in Hin. inversion Hin.
  - intros Hall. destruct (finite_normals rows) as [|n l] eqn:E; [reflexivity|].
    assert (Hin : n ∈ finite_normals rows) by (rewrite E; left).
    apply finite_normals_elem in Hin as (r & Hr & Hn).
    rewrite (Hall r Hr) in Hn. discriminate.
Qed.

(** X8. The constructor of [BuildingWall] raises exactly when no row of the
    table has a face normal that is not nan (an empty table is one) or two
    rows have face normals that are not nan and differ in some column; the
    error is then the [RuntimeError] of the direction check, never the error
    of an empty reduction or of a missing first row. *)
Theorem BuildingWall_init_raises_iff (rows : list MeshRow) :
  ((∃ e, BuildingWall_init rows = Raise e) ↔
   ((∀ r, r ∈ rows → face_normal r = NaNNormal)
    ∨ ∃ r r' n n', r ∈ rows ∧ r' ∈ rows
                   ∧ face_normal r = FiniteNormal n
                   ∧ face_normal r' = FiniteNormal n'
                   ∧ same_direction (face_normal r) (face_normal r') = false))
  ∧ (∀ e, BuildingWall_init rows = Raise e → ∃ msg, e = RuntimeError msg).
Proof.
  set (cond := (∀ r, r ∈ rows → face_normal r = NaNNormal)
               ∨ ∃ r r' n n', r ∈ rows ∧ r' ∈ rows
                              ∧ face_normal r = FiniteNormal n
                              ∧ face_normal r' = FiniteNormal n'
                              ∧ same_direction (face_normal r) (face_normal r') = false).
  assert (Hdec : cond
                 ∨ (finite_normals rows ≠ []
                    ∧ ∀ a b, a ∈ finite_normals rows → b ∈ finite_normals rows →
                             vec_eqb a b = true)).
  { destruct (finite_normals rows) as [|n0 l0] eqn:Efin.
    { left. left. apply finite_normals_nil. exact Efin. }
    rewrite <- Efin.
    destruct (forallb (fun a => forallb (vec_eqb a) (finite_normals rows))
                      (finite_normals rows)) eqn:E.
    - right. split; [rewrite Efin; discriminate|]. intros a b Ha Hb.
      rewrite forallb_forall in E. specialize (E a (proj1 (list_elem_of_In _ _) Ha)).
      rewrite forallb_forall in E. apply E, list_elem_of_In, Hb.
    - left. right. apply forallb_false_exists in E as (a & Ha & E).
      apply forallb_false_exists in E as (b & Hb & E).
      apply finite_normals_elem in Ha as (r & Hr & Ea).
      apply finite_normals_elem in Hb as (r' & Hr' & Eb).
      exists r, r', a, b. repeat split; try assumption.
      rewrite Ea, Eb. exact E. }
  assert (Hraise : cond → ∃ msg, BuildingWall_init rows = Raise (RuntimeError msg)).
  { intros [Hnan|(r & r' & n & n' & Hr & Hr' & En & En' & Hd)].
    - apply finite_normals_nil in Hnan. unfold BuildingWall_init. rewrite Hnan.
      eexists. reflexivity.
    - rewrite En, En' in Hd. cbn [same_direction] in Hd.
      apply (BuildingWall_init_two_directions rows n n'); [| |exact Hd];
        apply finite_normals_elem; [exists r | exists r']; split; assumption. }
  assert (Hinv : ∀ e, BuildingWall_init rows = Raise e → cond).
  { intros e He. destruct Hdec as [H|[Hfin Hsame]]; [exact H|].
    destruct (BuildingWall_init_passes rows Hfin Hsame) as (wall & Hw). congruence. }
  split; [split|].
  - intros [e He]. exact (Hinv e He).
  - intros H. destruct (Hraise H) as (msg & Hmsg). eexists; exact Hmsg.
  - intros e He. destruct (Hraise (Hinv e He)) as (msg & Hmsg).
    exists msg. congruence.
Qed.

Lemma fold_Qmin_le (r : list Q) (x : Q) :
  fold_left Qmin r x <= x ∧ ∀ y, y ∈ r → fold_left Qmin r x <= y.
Proof.
  revert x. induction r as [|z r IH]; intros x; cbn [fold_left].
  - split; [apply Qle_refl | intros y Hy; inversion Hy].
  - destruct (IH (Qmin x z)) as [H1 H2]. split.
    + eapply Qle_trans; [exact H1 | apply Q.le_min_l].
    + intros y Hy. apply elem_of_cons in Hy as [->|Hy]; [|apply H2; exact Hy].
      eapply Qle_trans; [exact H1 | apply Q.le_min_r].
Qed.

Lemma fold_Qmax_le (r : list Q) (x : Q) :
  x <= fold_left Qmax r x ∧ ∀ y, y ∈ r → y <= fold_left Qmax r x.
Proof.
  revert x. induction r as [|z r IH]; intros x; cbn [fold_left].
  - split; [apply Qle_refl | intros y Hy; inversion Hy].
  - destruct (IH (Qmax x z)) as [H1 H2]. split.
    + eapply Qle_trans; [apply Q.le_max_l | exact H1].
    + intros y Hy. apply elem_of_cons in Hy as [->|Hy]; [|apply H2; exact Hy].
      eapply Qle_trans; [apply Q.le_max_r | exact H1].
Qed.

Lemma fold_Qmin_attained (r : list Q) (x : Q) :
  ∃ y, y ∈ x :: r ∧ fold_left Qmin r x == y.
Proof.
  revert x. induction r as [|z r IH]; intros x; cbn [fold_left].
  - exists x. split; [left | reflexivity].
  - destruct (IH (Qmin x z)) as (y & Hy & Heq).
    apply elem_of_cons in Hy as [->|Hy].
    + destruct (Q.min_dec x z) as [E|E].
      * exists x. split; [left | rewrite Heq; exact E].
      * exists z. split; [right; left | rewrite Heq; exact E].
    + exists y. split; [right; right; exact Hy | exact Heq].
Qed.

Lemma fold_Qmax_attained (r : list Q) (x : Q) :
  ∃ y, y ∈ x :: r ∧ fold_left Qmax r x == y.
Proof.
  revert x. induction r as [|z r IH]; intros x; cbn [fold_left].
  - exists x. split; [left | reflexivity].
  - destruct (IH (Qmax x z)) as (y & Hy & Heq).
    apply elem_of_cons in Hy as [->|Hy].
    + destruct (Q.max_dec x z) as [E|E].
      * exists x. split; [left | rewrite Heq; exact E].
      * exists z. split; [right; left | rewrite Heq; exact E].
    + exists y. split; [right; right; exact Hy | exact Heq].
Qed.

Lemma np_min_Q_spec (l : list Q) (m : Q) :
  np_min_Q l = Ok m →
  (∀ y, y ∈ l → m <= y) ∧ ∃ y, y ∈ l ∧ m == y.
Proof.
  destruct l as [|x r]; [discriminate|]. cbn [np_min_Q]. intros H; injection H as <-.
  destruct (fold_Qmin_le r x) as [H1 H2]. split.
  - intros y Hy. apply elem_of_cons in Hy as [->|Hy]; [exact H1 | apply H2; exact Hy].
  - apply fold_Qmin_attained.
Qed.

Lemma np_max_Q_spec (l : list Q) (m : Q) :
  np_max_Q l = Ok m →
  (∀ y, y ∈ l → y <= m) ∧ ∃ y, y ∈ l ∧ m == y.
Proof.
  destruct l as [|x r]; [discriminate|]. cbn [np_max_Q]. intros H; injection H as <-.
  destruct (fold_Qmax_le r x) as [H1 H2]. split.
  - intros y Hy. apply elem_of_cons in Hy as [->|Hy]; [exact H1 | apply H2; exact Hy].
  - apply fold_Qmax_attained.
Qed.

(** The column-wise minimum is a lower bound of every row and each of its
    columns is attained by some row. *)
Lemma np_min_axis0_spec (a : list vec3) (v : vec3) :
  np_min_axis0 a = Ok v →
  (∀ p, p ∈ a → vx v <= vx p ∧ vy v <= vy p ∧ vz v <= vz p)
  ∧ (∃ p, p ∈ a ∧ vx v == vx p) ∧ (∃ p, p ∈ a ∧ vy v == vy p)
  ∧ (∃ p, p ∈ a ∧ vz v == vz p).
Proof.
  unfold np_min_axis0.
  destruct (np_min_Q (map vx a)) as [mx|] eqn:Ex; [|discriminate].
  destruct (np_min_Q (map vy a)) as [my|] eqn:Ey; [|discriminate].
  destruct (np_min_Q (map vz a)) as [mz|] eqn:Ez; [|discriminate].
  cbn [Py.bind]. intros H; injection H as <-. cbn [vx vy vz].
  destruct (np_min_Q_spec _ _ Ex) as [Lx (x & Hx & Ax)].
  destruct (np_min_Q_spec _ _ Ey) as [Ly (y & Hy & Ay)].
  destruct (np_min_Q_spec _ _ Ez) as [Lz (z & Hz & Az)].
  apply list_elem_of_fmap in Hx as (px & -> & Hpx).
  apply list_elem_of_fmap in Hy as (py & -> & Hpy).
  apply list_elem_of_fmap in Hz as (pz & -> & Hpz).
  split; [|split; [exists px | split; [exists py | exists pz]]; split; assumption].
  intros p Hp. repeat split;
    [apply Lx | apply Ly | apply Lz]; apply list_elem_of_fmap; exists p;
    (split; [reflexivity | exact Hp]).
Qed.

Lemma np_max_axis0_spec (a : list vec3) (v : vec3) :
  np_max_axis0 a = Ok v →
  (∀ p, p ∈ a → vx p <= vx v ∧ vy p <= vy v ∧ vz p <= vz v)
  ∧ (∃ p, p ∈ a ∧ vx v == vx p) ∧ (∃ p, p ∈ a ∧ vy v == vy p)
  ∧ (∃ p, p ∈ a ∧ vz v == vz p).
Proof.
  unfold np_max_axis0.
  destruct (np_max_Q (map vx a)) as [mx|] eqn:Ex; [|discriminate].
  destruct (np_max_Q (map vy a)) as [my|] eqn:Ey; [|discriminate].
  destruct (np_max_Q (map vz a)) as [mz|] eqn:Ez; [|discriminate].
  cbn [Py.bind]. intros H; injection H as <-. cbn [vx vy vz].
  destruct (np_max_Q_spec _ _ Ex) as [Lx (x & Hx & Ax)].
  destruct (np_max_Q_spec _ _ Ey) as [Ly (y & Hy & Ay)].
  destruct (np_max_Q_spec _ _ Ez) as [Lz (z & Hz & Az)].
  apply list_elem_of_fmap in Hx as (px & -> & Hpx).
  apply list_elem_of_fmap in Hy as (py & -> & Hpy).
  apply list_elem_of_fmap in Hz as (pz & -> & Hpz).
  split; [|split; [exists px | split; [exists py | exists pz]]; split; assumption].
  intros p Hp. repeat split;
    [apply Lx | apply Ly | apply Lz]; apply list_elem_of_fmap; exists p;
    (split; [reflexivity | exact Hp]).
Qed.

Lemma in_domain_iff (b : box) (p : vec3) :
  in_domain b p = true ↔
  (vx (lo b) <= vx p ∧ vx p <= vx (hi b))
  ∧ (vy (lo b) <= vy p ∧ vy p <= vy (hi b))
  ∧ (vz (lo b) <= vz p ∧ vz p <= vz (hi b)).
Proof. unfold in_domain. rewrite !andb_true_iff, !Qle_bool_iff. tauto. Qed.

(** [drop_duplicates] keeps, for every row, a row with the same id and
    position, and adds none. *)
Lemma drop_duplicates_from_cover (seen rows : list (nat * vec3)) (r : nat * vec3) :
  r ∈ rows →
  (∃ s, s ∈ seen ∧ fst s = fst r ∧ vec_eqb (snd s) (snd r) = true)
  ∨ (∃ s, s ∈ drop_duplicates_from seen rows
          ∧ fst s = fst r ∧ vec_eqb (snd s) (snd r) = true).
Proof.
  revert seen. induction rows as [|x rows IH]; intros seen Hr; [inversion Hr|].
  cbn [drop_duplicates_from].
  destruct (existsb (fun s => Nat.eqb (fst s) (fst x) && vec_eqb (snd s) (snd x)) seen)
    eqn:E.
  - apply elem_of_cons in Hr as [->|Hr]; [|apply IH; exact Hr].
    left. apply existsb_exists in E as (s & Hs & Hsx).
    apply andb_true_iff in Hsx as [H1 H2]. apply Nat.eqb_eq in H1.
    exists s. split; [apply list_elem_of_In; exact Hs | split; assumption].
  - apply elem_of_cons in Hr as [->|Hr].
    + right. exists x. split; [left | split; [reflexivity | apply vec_eqb_refl]].
    + destruct (IH (x :: seen) Hr) as [(s & Hs & H)|(s & Hs & H)].
      * apply elem_of_cons in Hs as [->|Hs].
        -- right. exists x. split; [left | exact H].
        -- left. exists s. split; assumption.
      * right. exists s. split; [right; exact Hs | exact H].
Qed.

Lemma drop_duplicates_from_subset (seen rows : list (nat * vec3)) (s : nat * vec3) :
  s ∈ drop_duplicates_from seen rows → s ∈ rows.
Proof.
  revert seen. induction rows as [|x rows IH]; intros seen Hs; [inversion Hs|].
  cbn [drop_duplicates_from] in Hs.
  destruct (existsb _ seen).
  - right. apply (IH seen). exact Hs.
  - apply elem_of_cons in Hs as [->|Hs]; [left | right; apply (IH (x :: seen)); exact Hs].
Qed.

Lemma gathered_vertices_cover (rows : list MeshRow) (r : MeshRow) (p : vec3) :
  r ∈ rows → p ∈ row_vertices r →
  ∃ q, q ∈ map snd (gathered_vertices rows) ∧ vec_eqb q p = true.
Proof.
  intros Hr Hp. unfold gathered_vertices, drop_duplicates.
  set (all := map (fun r => (vid (v1 (info r)), vpos (v1 (info r)))) rows
              ++ map (fun r => (vid (v2 (info r)), vpos (v2 (info r)))) rows
              ++ map (fun r => (vid (v3 (info r)), vpos (v3 (info r)))) rows).
  assert (Hin : ∃ i, (i, p) ∈ all).
  { unfold row_vertices in Hp. unfold all.
    apply elem_of_cons in Hp as [->|Hp]; [|apply elem_of_cons in Hp as [->|Hp];
      [|apply elem_of_cons in Hp as [->|Hp]; [|inversion Hp]]].
    - exists (vid (v1 (info r))). apply elem_of_app. left.
      apply list_elem_of_fmap. exists r. split; [reflexivity | exact Hr].
    - exists (vid (v2 (info r))). apply elem_of_app. right. apply elem_of_app. left.
      apply list_elem_of_fmap. exists r. split; [reflexivity | exact Hr].
    - exists (vid (v3 (info r))). apply elem_of_app. right. apply elem_of_app. right.
      apply list_elem_of_fmap. exists r. split; [reflexivity | exact Hr]. }
  destruct Hin as [i Hi].
  destruct (drop_duplicates_from_cover [] all (i, p) Hi) as [(s & Hs & _)|(s & Hs & _ & H)];
    [inversion Hs|].
  exists (snd s). split; [|exact H].
  apply list_elem_of_fmap. exists s. split; [reflexivity | exact Hs].
Qed.

Lemma gathered_vertices_vertex (rows : list MeshRow) (q : vec3) :
  q ∈ map snd (gathered_vertices rows) → ∃ r, r ∈ rows ∧ q ∈ row_vertices r.
Proof.
  intros Hq. apply list_elem_of_fmap in Hq as (s & -> & Hs).
  unfold gathered_vertices, drop_duplicates in Hs.
  apply drop_duplicates_from_subset in Hs.
  unfold row_vertices.
  apply elem_of_app in Hs as [Hs|Hs]; [|apply elem_of_app in Hs as [Hs|Hs]];
    apply list_elem_of_fmap in Hs as (r & -> & Hr); exists r; (split; [exact Hr|]);
    cbn [snd]; [left | right; left | right; right; left].
Qed.

(** The wall that the constructor builds, field by field. *)
Lemma BuildingWall_init_fields (rows : list MeshRow) :
  rows ≠ [] →
  (∀ r r', r ∈ rows → r' ∈ rows →
           same_direction (face_normal r) (face_normal r') = true) →
  ∃ mins maxs first rest,
    rows = first :: rest
    ∧ np_min_axis0 (map snd (gathered_vertices rows)) = Ok mins
    ∧ np_max_axis0 (map snd (gathered_vertices rows)) = Ok maxs
    ∧ BuildingWall_init rows
      = Ok (MkBuildingWall rows (gathered_vertices rows) (Box mins maxs)
              (domain_mean (Box mins maxs)) (face_normal first)
              (np_sum (map face_normal_magnitude rows) / 2) None).
Proof.
  intros Hne Hdir. unfold BuildingWall_init.
  rewrite (one_direction_nunique rows vx Hne Hdir),
          (one_direction_nunique rows vy Hne Hdir),
          (one_direction_nunique rows vz Hne Hdir).
  - cbn [Nat.eqb negb orb].
    destruct (np_min_axis0_nonempty _ (gathered_vertices_nonempty rows Hne)) as (mins & Hmin).
    destruct (np_max_axis0_nonempty _ (gathered_vertices_nonempty rows Hne)) as (maxs & Hmax).
    rewrite Hmin, Hmax. cbn [Py.bind]. destruct rows as [|first rest]; [congruence|].
    exists mins, maxs, first, rest. repeat split; assumption.
  - intros a b. unfold vec_eqb. rewrite !andb_true_iff, !Qeq_bool_iff. tauto.
  - intros a b. unfold vec_eqb. rewrite !andb_true_iff, !Qeq_bool_iff. tauto.
  - intros a b. unfold vec_eqb. rewrite !andb_true_iff, !Qeq_bool_iff. tauto.
Qed.

Lemma vec_eqb_iff (a b : vec3) :
  vec_eqb a b = true ↔ vx a == vx b ∧ vy a == vy b ∧ vz a == vz b.
Proof. unfold vec_eqb. rewrite !andb_true_iff, !Qeq_bool_iff. tauto. Qed.

(** X9. On a non-empty table whose rows face one direction the constructor
    of [BuildingWall] returns a wall that keeps the table and has no wwr
    yet; its domain is the bounding box of the vertices of the table (it
    contains all of them and lies inside every box that does), its center
    lies in the domain, its direction is the face normal of every row and
    its area is half the sum of the magnitudes of the face normals. *)
Theorem BuildingWall_init_geometry (rows : list MeshRow) :
  rows ≠ [] →
  (∀ r r', r ∈ rows → r' ∈ rows →
           same_direction (face_normal r) (face_normal r') = true) →
  ∃ wall,
    BuildingWall_init rows = Ok wall
    ∧ wall_mesh_df wall = rows
    ∧ wall_wwr wall = None
    ∧ (∀ r p, r ∈ rows → p ∈ row_vertices r → in_domain (domain wall) p = true)
    ∧ (∀ b, (∀ r p, r ∈ rows → p ∈ row_vertices r → in_domain b p = true) →
            in_domain b (lo (domain wall)) = true
            ∧ in_domain b (hi (domain wall)) = true)
    ∧ in_domain (domain wall) (center wall) = true
    ∧ (∀ r, r ∈ rows → same_direction (direction wall) (face_normal r) = true)
    ∧ area wall = np_sum (map face_normal_magnitude rows) / 2.
Proof.
  intros Hne Hdir.
  destruct (BuildingWall_init_fields rows Hne Hdir)
    as (mins & maxs & first & rest & Hrows & Hmin & Hmax & Hinit).
  eexists. split; [exact Hinit|]. cbn [wall_mesh_df wall_wwr domain center direction area].
  destruct (np_min_axis0_spec _ _ Hmin) as (Lmin & Axmin & Aymin & Azmin).
  destruct (np_max_axis0_spec _ _ Hmax) as (Lmax & Axmax & Aymax & Azmax).
  assert (Hbox : ∀ r p, r ∈ rows → p ∈ row_vertices r →
                 in_domain (Box mins maxs) p = true).
  { intros r p Hr Hp.
    destruct (gathered_vertices_cover rows r p Hr Hp) as (q & Hq & Hqp).
    apply vec_eqb_iff in Hqp as (Ex & Ey & Ez).
    destruct (Lmin q Hq) as (? & ? & ?). destruct (Lmax q Hq) as (? & ? & ?).
    apply in_domain_iff. cbn [lo hi]. rewrite <- Ex, <- Ey, <- Ez.
    repeat split; assumption. }
  split; [reflexivity|]. split; [reflexivity|]. split; [exact Hbox|]. split; [|split; [|split]].
  - intros b Hb.
    assert (Hcoord : ∀ (f : vec3 → Q) (m : Q) (lob hib : Q),
              (∃ q, q ∈ map snd (gathered_vertices rows) ∧ m == f q) →
              (∀ p, in_domain b p = true → lob <= f p ∧ f p <= hib) →
              lob <= m ∧ m <= hib).
    { intros f m lob hib (q & Hq & Hm) Hf.
      destruct (gathered_vertices_vertex rows q Hq) as (r & Hr & Hqr).
      destruct (Hf q (Hb r q Hr Hqr)) as [H1 H2]. rewrite Hm. split; assumption. }
    split; apply in_domain_iff; cbn [lo hi]; repeat split;
      first
        [ apply (Hcoord vx _ (vx (lo b)) (vx (hi b))); [assumption|];
          intros p Hp; apply in_domain_iff in Hp; tauto
        | apply (Hcoord vy _ (vy (lo b)) (vy (hi b))); [assumption|];
          intros p Hp; apply in_domain_iff in Hp; tauto
        | apply (Hcoord vz _ (vz (lo b)) (vz (hi b))); [assumption|];
          intros p Hp; apply in_domain_iff in Hp; tauto ].
  - assert (Hfirst : first ∈ rows) by (rewrite Hrows; left).
    assert (Hp : vpos (v1 (info first)) ∈ row_vertices first) by left.
    pose proof (Hbox first _ Hfirst Hp) as Hin.
    apply in_domain_iff in Hin. cbn [lo hi] in Hin.
    apply in_domain_iff. unfold domain_mean. cbn [lo hi vx vy vz].
    destruct Hin as ((? & ?) & (? & ?) & (? & ?)).
    assert (Hmid : ∀ a c x, a <= x → x <= c → a <= (a + c) / 2 ∧ (a + c) / 2 <= c).
    { intros a c x Ha Hc. assert (a <= c) by (eapply Qle_trans; eassumption).
      change ((a + c) / 2) with ((a + c) * (1 # 2)). split; lra. }
    repeat split; eapply Hmid; eassumption.
  - intros r Hr. apply Hdir; [rewrite Hrows; left | exact Hr].
  - reflexivity.
Qed.

Lemma same_direction_forallb (rows : list MeshRow) :
  forallb (fun r => forallb (fun r' =>
             same_direction (face_normal r) (face_normal r')) rows) rows = true →
  ∀ r r', r ∈ rows → r' ∈ rows →
          same_direction (face_normal r) (face_normal r') = true.
Proof.
  intros E r r' Hr Hr'. rewrite forallb_forall in E.
  specialize (E r (proj1 (list_elem_of_In _ _) Hr)).
  rewrite forallb_forall in E. apply E, list_elem_of_In, Hr'.
Qed.

Lemma BuildingWall_init_geometry_witness :
  ∃ wall,
    BuildingWall_init scene_first_patch = Ok wall
    ∧ wall_mesh_df wall = scene_first_patch
    ∧ wall_wwr wall = None
    ∧ (∀ r p, r ∈ scene_first_patch → p ∈ row_vertices r →
              in_domain (domain wall) p = true)
    ∧ (∀ b, (∀ r p, r ∈ scene_first_patch → p ∈ row_vertices r →
                    in_domain b p = true) →
            in_domain b (lo (domain wall)) = true
            ∧ in_domain b (hi (domain wall)) = true)
    ∧ in_domain (domain wall) (center wall) = true
    ∧ (∀ r, r ∈ scene_first_patch →
            same_direction (direction wall) (face_normal r) = true)
    ∧ area wall = np_sum (map face_normal_magnitude scene_first_patch) / 2.
Proof.
  apply BuildingWall_init_geometry.
  - vm_compute. discriminate.
  - apply same_direction_forallb. vm_compute. reflexivity.
Defined.

End BuildingWallSpec.

(** ** The walls of a model *)

Section WallInvariants.

Import Nx Segmented MeshUtils.

Local Open Scope Q_scope.

Lemma BuildingWall_init_keeps (rows : list MeshRow) (wall : BuildingWall) :
  BuildingWall_init rows = Ok wall → wall_mesh_df wall = rows.
Proof.
  unfold BuildingWall_init.
  destruct (_ || _ || _); [discriminate|].
  destruct (np_min_axis0 _); [|discriminate].
  destruct (np_max_axis0 _); [|discriminate].
  cbn [Py.bind]. destruct rows; [discriminate|].
  intros H; injection H as <-. reflexivity.
Qed.

Lemma Forall2_elem_of_r {A B : Type} (R : A → B → Prop) (l : list A) (k : list B) (y : B) :
  Forall2 R l k → y ∈ k → ∃ x, x ∈ l ∧ R x y.
Proof.
  induction 1 as [|x y' l k HR _ IH]; intros Hy; [inversion Hy|].
  apply elem_of_cons in Hy as [->|Hy].
  - exists x. split; [left | exact HR].
  - destruct (IH Hy) as (x' & Hx' & HR'). exists x'. split; [right|]; assumption.
Qed.

(** The walls of a group are built from its tables, one by one. *)
Lemma walls_of_group_init (group : list MeshRow) :
  group ≠ [] →
  (∀ r r', r ∈ group → r' ∈ group →
           same_direction (face_normal r) (face_normal r') = true) →
  ∃ walls, walls_of_group group = Ok walls
           ∧ Forall2 (fun table wall => BuildingWall_init table = Ok wall)
                     (wall_tables_of_group group) walls.
Proof.
  intros Hne Hdir.
  pose proof (wall_tables_of_group_table group) as Htab.
  unfold walls_of_group, wall_tables_of_group in *.
  destruct (length (_get_connected_meshes_list group) =? 1)%nat.
  - destruct (BuildingWall_init_Ok group Hne Hdir) as (w & Hw & _).
    exists [w]. rewrite Hw. cbn [Py.bind]. split; [reflexivity|].
    constructor; [exact Hw | constructor].
  - destruct (mapM_Forall2
                (fun component => BuildingWall_init
                                    (List.filter (all_vertices_in component) group))
                (fun component wall =>
                   BuildingWall_init (List.filter (all_vertices_in component) group)
                   = Ok wall)
                (_get_connected_meshes_list group)) as (walls & Hwalls & Hall).
    + intros c Hc.
      destruct (Htab (List.filter (all_vertices_in c) group) Hne) as [Hne' Hsub].
      { apply list_elem_of_fmap. exists c. split; [reflexivity | exact Hc]. }
      destruct (BuildingWall_init_Ok (List.filter (all_vertices_in c) group) Hne')
        as (w & Hw & _).
      { intros r r' Hr Hr'. apply Hdir; apply Hsub; assumption. }
      exists w. split; exact Hw.
    + exists walls. split; [exact Hwalls|]. apply Forall2_fmap_l. exact Hall.
Qed.

(** Every wall is built from a table of a group of the filtered faces. *)
Lemma _get_building_walls_tables (mesh_df : list MeshRow) :
  ∃ walls,
    _get_building_walls mesh_df = Ok walls
    ∧ ∀ wall, wall ∈ walls →
        ∃ group, group ∈ groupby_face_normal (List.filter is_vertical_wall mesh_df)
                 ∧ wall_mesh_df wall ∈ wall_tables_of_group group
                 ∧ BuildingWall_init (wall_mesh_df wall) = Ok wall.
Proof.
  unfold _get_building_walls.
  set (wall_df := List.filter is_vertical_wall mesh_df).
  destruct (mapM_Forall2 walls_of_group
              (fun group walls =>
                 Forall2 (fun table wall => BuildingWall_init table = Ok wall)
                         (wall_tables_of_group group) walls)
              (groupby_face_normal wall_df)) as (wss & Hwss & Hall).
  { intros g Hg. destruct (groupby_face_normal_group wall_df g Hg) as (Hne & _ & Hdir).
    apply walls_of_group_init; assumption. }
  rewrite Hwss. cbn [Py.bind]. exists (concat wss). split; [reflexivity|].
  intros wall Hwall.
  apply list_elem_of_In, in_concat in Hwall as (ws & Hws & Hwall).
  apply list_elem_of_In in Hws, Hwall.
  destruct (Forall2_elem_of_r _ _ _ _ Hall Hws) as (g & Hg & Hgws).
  destruct (Forall2_elem_of_r _ _ _ _ Hgws Hwall) as (t & Ht & Hinit).
  pose proof (BuildingWall_init_keeps _ _ Hinit) as Hkeep.
  exists g. rewrite Hkeep. repeat split; assumption.
Qed.

Lemma graph_df_edge (group : list MeshRow) (a b : nat) :
  (a, b) ∈ graph_df group →
  ∃ r, r ∈ group ∧ a ∈ row_vertex_ids r ∧ b ∈ row_vertex_ids r
       ∧ ∀ table, r ∈ table → (a, b) ∈ graph_df table.
Proof.
  unfold graph_df, row_vertex_ids. intros He.
  apply elem_of_app in He as [He|He]; [|apply elem_of_app in He as [He|He]];
    apply list_elem_of_fmap in He as (r & Heq & Hr); injection Heq as -> ->;
    exists r; (split; [exact Hr|]).
  - split; [left|]. split; [right; left|].
    intros table Ht. apply elem_of_app. left.
    apply list_elem_of_fmap. exists r. split; [reflexivity | exact Ht].
  - split; [right; left|]. split; [right; right; left|].
    intros table Ht. apply elem_of_app. right. apply elem_of_app. left.
    apply list_elem_of_fmap. exists r. split; [reflexivity | exact Ht].
  - split; [right; right; left|]. split; [left|].
    intros table Ht. apply elem_of_app. right. apply elem_of_app. right.
    apply list_elem_of_fmap. exists r. split; [reflexivity | exact Ht].
Qed.

Lemma row_vertex_ids_in (c : gset nat) (r : MeshRow) (u : nat) :
  u ∈ row_vertex_ids r → u ∈ c →
  vid (v1 (info r)) ∈ c ∨ vid (v2 (info r)) ∈ c ∨ vid (v3 (info r)) ∈ c.
Proof.
  unfold row_vertex_ids. intros Hu Hc.
  apply elem_of_cons in Hu as [->|Hu]; [auto|].
  apply elem_of_cons in Hu as [->|Hu]; [auto|].
  apply elem_of_cons in Hu as [->|Hu]; [auto | inversion Hu].
Qed.

Lemma all_vertices_in_elem (c : gset nat) (r : MeshRow) (u : nat) :
  all_vertices_in c r = true → u ∈ row_vertex_ids r → u ∈ c.
Proof.
  unfold all_vertices_in, row_vertex_ids.
  rewrite !andb_true_iff, !bool_decide_eq_true. intros [[H1 H2] H3] Hu.
  apply elem_of_cons in Hu as [->|Hu]; [exact H1|].
  apply elem_of_cons in Hu as [->|Hu]; [exact H2|].
  apply elem_of_cons in Hu as [->|Hu]; [exact H3 | inversion Hu].
Qed.

(** A chain of edges that starts in a closed set of nodes only uses edges of
    the faces whose vertices are in the set. *)
Lemma reachable_in_component (group : list MeshRow) (c : gset nat) (u w : nat) :
  closed (graph_df group) c → u ∈ c →
  reachable (graph_df group) u w →
  reachable (graph_df (List.filter (all_vertices_in c) group)) u w.
Proof.
  intros Hcl Hu Hreach. induction Hreach as [|v w Hreach IH Hj]; [constructor|].
  eapply reachable_step; [exact IH|].
  assert (Hv : v ∈ c) by (eapply closed_reachable; eassumption).
  assert (Hedge : ∀ a b, (a, b) ∈ graph_df group → a ∈ c ∨ b ∈ c →
                  (a, b) ∈ graph_df (List.filter (all_vertices_in c) group)).
  { intros a b He Hab.
    destruct (graph_df_edge group a b He) as (r & Hr & Ha & Hb & Hin).
    apply Hin. apply list_elem_of_In, filter_In.
    split; [apply list_elem_of_In; exact Hr|].
    eapply all_vertices_in_closed; [exact Hcl | exact Hr|].
    destruct Hab as [Hc|Hc];
      [exact (row_vertex_ids_in c r a Ha Hc) | exact (row_vertex_ids_in c r b Hb Hc)]. }
  destruct Hj as [Hj|Hj]; [left | right]; apply Hedge; auto.
Qed.

Lemma row_v1_node (group : list MeshRow) (r : MeshRow) :
  r ∈ group → vid (v1 (info r)) ∈ node_order (graph_df group).
Proof.
  intros Hr. destruct (graph_df_joined group r Hr) as [H12 _].
  eapply joined_node_order. apply joined_sym. exact H12.
Qed.

(** Two faces whose first vertices are in one component are joined by a
    chain of face edges of the group. *)
Lemma component_reachable (group : list MeshRow) (c : gset nat) (u w : nat) :
  c ∈ _get_connected_meshes_list group → u ∈ c → w ∈ c →
  closed (graph_df group) c ∧ reachable (graph_df group) u w.
Proof.
  intros Hc Hu Hw. unfold _get_connected_meshes_list in Hc.
  destruct (connected_components_spec (graph_df group)) as (Hclosed & _ & _).
  destruct (Hclosed c Hc) as (Hcl & v & _ & _ & Hreach).
  split; [exact Hcl|].
  eapply reachable_trans; [apply reachable_sym, Hreach, Hu | apply Hreach, Hw].
Qed.

Lemma wall_table_connected (group table : list MeshRow) (r r' : MeshRow) :
  table ∈ wall_tables_of_group group → r ∈ table → r' ∈ table →
  reachable (graph_df table) (vid (v1 (info r))) (vid (v1 (info r'))).
Proof.
  unfold wall_tables_of_group.
  destruct (length (_get_connected_meshes_list group) =? 1)%nat eqn:E.
  - intros Ht Hr Hr'. apply list_elem_of_singleton in Ht as ->.
    apply Nat.eqb_eq in E.
    destruct (_get_connected_meshes_list group) as [|c [|c' cs]] eqn:Ecs;
      try discriminate.
    assert (Hin : ∀ ρ, ρ ∈ group → vid (v1 (info ρ)) ∈ c).
    { intros ρ Hρ.
      destruct (connected_components_spec (graph_df group)) as (_ & _ & Hcover).
      destruct (Hcover _ (row_v1_node group ρ Hρ)) as (c0 & Hc0 & Hv).
      unfold _get_connected_meshes_list in Ecs. rewrite Ecs in Hc0.
      apply list_elem_of_singleton in Hc0 as ->. exact Hv. }
    apply (component_reachable group c); [rewrite Ecs; left | apply Hin | apply Hin];
      assumption.
  - intros Ht Hr Hr'. apply list_elem_of_fmap in Ht as (c & -> & Hc).
    apply list_elem_of_In, filter_In in Hr as [Hr Hrc].
    apply list_elem_of_In, filter_In in Hr' as [Hr' Hrc'].
    assert (Hu : vid (v1 (info r)) ∈ c)
      by (apply (all_vertices_in_elem c r); [exact Hrc | left]).
    assert (Hw : vid (v1 (info r')) ∈ c)
      by (apply (all_vertices_in_elem c r'); [exact Hrc' | left]).
    destruct (component_reachable group c _ _ Hc Hu Hw) as [Hcl Hreach].
    apply reachable_in_component; assumption.
Qed.

Lemma wall_table_maximal (group table : list MeshRow) (r r' : MeshRow) (u : nat) :
  table ∈ wall_tables_of_group group → r' ∈ table → r ∈ group →
  u ∈ row_vertex_ids r → u ∈ row_vertex_ids r' → r ∈ table.
Proof.
  unfold wall_tables_of_group.
  destruct (length (_get_connected_meshes_list group) =? 1)%nat.
  - intros Ht _ Hr _ _. apply list_elem_of_singleton in Ht as ->. exact Hr.
  - intros Ht Hr' Hr Hu Hu'. apply list_elem_of_fmap in Ht as (c & -> & Hc).
    apply list_elem_of_In, filter_In in Hr' as [Hr' Hrc'].
    pose proof (all_vertices_in_elem c r' u Hrc' Hu') as Huc.
    assert (Hcl : closed (graph_df group) c).
    { destruct (component_reachable group c u u Hc Huc Huc) as [Hcl _]. exact Hcl. }
    apply list_elem_of_In, filter_In. split; [apply list_elem_of_In; exact Hr|].
    eapply all_vertices_in_closed; [exact Hcl | exact Hr|].
    eapply row_vertex_ids_in; eassumption.
Qed.

Lemma groupby_face_normal_same (df group : list MeshRow) (r r' : MeshRow) :
  group ∈ groupby_face_normal df → r' ∈ group → r ∈ df →
  same_direction (face_normal r) (face_normal r') = true → r ∈ group.
Proof.
  unfold groupby_face_normal. intros Hg Hr' Hr Hsame.
  apply list_elem_of_fmap in Hg as (k & -> & _).
  apply list_elem_of_In, filter_In in Hr' as [_ Hk].
  apply list_elem_of_In, filter_In. split; [apply list_elem_of_In; exact Hr|].
  apply same_direction_iff in Hsame as (x & y & Hx & Hy & Hxy).
  rewrite Hy in Hk. rewrite Hx. cbn [same_direction] in *.
  eapply vec_eqb_trans; eassumption.
Qed.

Lemma is_vertical_wall_iff (r : MeshRow) (n : vec3) :
  face_normal r = FiniteNormal n →
  is_vertical_wall r = true ↔
  row_class r = "wall" ∧ ¬ vz n == 1 ∧ ¬ vz n == -1.
Proof.
  intros Hn. unfold is_vertical_wall, is_class. rewrite Hn. cbn [normal_z np_ne].
  rewrite !andb_true_iff, !negb_true_iff, String.eqb_eq.
  rewrite <- !not_true_iff_false, !Qeq_bool_iff. tauto.
Qed.

(** X10. [_get_building_walls] never fails, and every wall it returns is a
    [BuildingWall] built from a non-empty table of faces of the model that
    are of class wall, have a face normal that is not nan and whose z is
    neither 1 nor -1, all face the direction of the wall, and are connected:
    any two of them are joined by a chain of edges of faces of the wall. *)
Theorem building_walls_are_connected_patches (mesh_df : list MeshRow) :
  ∃ walls,
    _get_building_walls mesh_df = Ok walls
    ∧ ∀ wall, wall ∈ walls →
        BuildingWall_init (wall_mesh_df wall) = Ok wall
        ∧ wall_mesh_df wall ≠ []
        ∧ (∀ r, r ∈ wall_mesh_df wall →
                r ∈ mesh_df
                ∧ row_class r = "wall"
                ∧ (∃ n, face_normal r = FiniteNormal n
                        ∧ ¬ vz n == 1 ∧ ¬ vz n == -1)
                ∧ same_direction (direction wall) (face_normal r) = true)
        ∧ (∀ r r', r ∈ wall_mesh_df wall → r' ∈ wall_mesh_df wall →
                   reachable (graph_df (wall_mesh_df wall))
                             (vid (v1 (info r))) (vid (v1 (info r')))).
Proof.
  destruct (_get_building_walls_tables mesh_df) as (walls & Hwalls & Hall).
  exists walls. split; [exact Hwalls|]. intros wall Hwall.
  destruct (Hall wall Hwall) as (group & Hgroup & Htable & Hinit).
  destruct (groupby_face_normal_group _ _ Hgroup) as (Hne & Hsub & Hdir).
  destruct (wall_tables_of_group_table group _ Hne Htable) as (Hne' & Hsub').
  split; [exact Hinit|]. split; [exact Hne'|]. split.
  - intros r Hr.
    pose proof (Hsub r (Hsub' r Hr)) as Hdf.
    apply list_elem_of_In, filter_In in Hdf as [Hdf Hvert].
    pose proof (Hdir r r (Hsub' r Hr) (Hsub' r Hr)) as Hfin.
    apply same_direction_iff in Hfin as (n & _ & Hn & _ & _).
    destruct (proj1 (is_vertical_wall_iff r n Hn) Hvert) as (Hc & Hz1 & Hz2).
    split; [apply list_elem_of_In; exact Hdf|]. split; [exact Hc|].
    split; [exists n; repeat split; assumption|].
    destruct (BuildingWall_init_fields (wall_mesh_df wall) Hne')
      as (mins & maxs & first & rest & Hrows & _ & _ & Hinit').
    { intros a b Ha Hb. apply Hdir; apply Hsub'; assumption. }
    rewrite Hinit in Hinit'. injection Hinit' as Hw.
    rewrite Hw at 1. cbn [direction].
    apply Hdir; apply Hsub'; [rewrite Hrows; left | exact Hr].
  - intros r r' Hr Hr'. eapply wall_table_connected; eassumption.
Qed.

(** X11. The walls are maximal: a face of the model that passes the wall
    filter (class wall, face normal z neither 1 nor -1), has the face normal
    of a face of a wall and shares a vertex id with it belongs to that
    wall. *)
Theorem building_walls_are_maximal (mesh_df : list MeshRow) :
  ∃ walls,
    _get_building_walls mesh_df = Ok walls
    ∧ ∀ wall r r' u,
        wall ∈ walls → r' ∈ wall_mesh_df wall →
        r ∈ mesh_df → is_vertical_wall r = true →
        same_direction (face_normal r) (face_normal r') = true →
        u ∈ row_vertex_ids r → u ∈ row_vertex_ids r' →
        r ∈ wall_mesh_df wall.
Proof.
  destruct (_get_building_walls_tables mesh_df) as (walls & Hwalls & Hall).
  exists walls. split; [exact Hwalls|]. intros wall r r' u Hwall Hr' Hr Hvert Hsame Hu Hu'.
  destruct (Hall wall Hwall) as (group & Hgroup & Htable & _).
  destruct (groupby_face_normal_group _ _ Hgroup) as (Hne & Hsub & Hdir).
  destruct (wall_tables_of_group_table group _ Hne Htable) as (_ & Hsub').
  eapply wall_table_maximal; [exact Htable | exact Hr' | | exact Hu | exact Hu'].
  eapply groupby_face_normal_same; [exact Hgroup | apply Hsub'; exact Hr' | | exact Hsame].
  apply list_elem_of_In, filter_In. split; [apply list_elem_of_In; exact Hr | exact Hvert].
Qed.

End WallInvariants.

(** ** Areas *)

Section Areas.

Import Nx Segmented MeshUtils.

Local Open Scope Q_scope.

Lemma fold_left_Qplus (l : list Q) (a : Q) :
  fold_left Qplus l a == a + fold_left Qplus l 0.
Proof.
  revert a. induction l as [|x l IH]; intros a; cbn [fold_left]; [ring|].
  rewrite (IH (a + x)), (IH (0 + x)). ring.
Qed.

Lemma np_sum_cons (x : Q) (l : list Q) : np_sum (x :: l) == x + np_sum l.
Proof. unfold np_sum. cbn [fold_left]. rewrite fold_left_Qplus. ring. Qed.

Lemma np_sum_app (l1 l2 : list Q) : np_sum (l1 ++ l2) == np_sum l1 + np_sum l2.
Proof.
  induction l1 as [|x l1 IH]; cbn [app].
  - unfold np_sum at 2. cbn [fold_left]. ring.
  - rewrite !np_sum_cons, IH. ring.
Qed.

Lemma np_sum_perm (l1 l2 : list Q) : Permutation l1 l2 → np_sum l1 == np_sum l2.
Proof.
  induction 1 as [|x l1 l2 _ IH|x y l|l1 l2 l3 _ IH1 _ IH2].
  - reflexivity.
  - rewrite !np_sum_cons, IH. reflexivity.
  - rewrite !np_sum_cons. ring.
  - rewrite IH1. exact IH2.
Qed.

Lemma np_sum_nonneg (l : list Q) : (∀ x, x ∈ l → 0 <= x) → 0 <= np_sum l.
Proof.
  induction l as [|x l IH]; intros H.
  - unfold np_sum. cbn [fold_left]. apply Qle_refl.
  - rewrite np_sum_cons.
    assert (0 <= x) by (apply H; left).
    assert (0 <= np_sum l) by (apply IH; intros y Hy; apply H; right; exact Hy).
    lra.
Qed.

Lemma BuildingWall_init_area (rows : list MeshRow) (wall : BuildingWall) :
  BuildingWall_init rows = Ok wall →
  area wall = np_sum (map face_normal_magnitude rows) / 2.
Proof.
  unfold BuildingWall_init.
  destruct (_ || _ || _); [discriminate|].
  destruct (np_min_axis0 _); [|discriminate].
  destruct (np_max_axis0 _); [|discriminate].
  cbn [Py.bind]. destruct rows; [discriminate|].
  intros H; injection H as <-. reflexivity.
Qed.

(** The faces of the walls are the faces that pass the wall filter with a
    normal that is not nan. *)
Lemma _get_building_walls_perm (mesh_df : list MeshRow) :
  ∃ walls,
    _get_building_walls mesh_df = Ok walls
    ∧ Permutation (flat_map wall_mesh_df walls)
                  (List.filter has_finite_normal
                               (List.filter is_vertical_wall mesh_df)).
Proof.
  unfold _get_building_walls.
  set (wall_df := List.filter is_vertical_wall mesh_df).
  destruct (mapM_Forall2 walls_of_group
              (fun group walls => map wall_mesh_df walls = wall_tables_of_group group)
              (groupby_face_normal wall_df)) as (wss & Hwss & Hall).
  { intros g Hg. destruct (groupby_face_normal_group wall_df g Hg) as (Hne & _ & Hdir).
    apply walls_of_group_Ok; assumption. }
  rewrite Hwss. cbn [Py.bind]. exists (concat wss). split; [reflexivity|].
  etrans; [|apply groupby_face_normal_perm].
  clear Hwss. induction Hall as [|g ws gs wss' Hg _ IH]; [reflexivity|].
  cbn [concat]. rewrite flat_map_app. apply Permutation_app; [|exact IH].
  rewrite flat_map_concat_map, Hg. apply wall_tables_of_group_perm.
Qed.

(** For a unit normal, a horizontal part that is not zero is the same as a
    vertical part that is neither 1 nor -1. *)
Lemma unit_normal_filters (r : MeshRow) :
  unit_normal r →
  has_finite_normal r = true
  ∧ np_ne (normal_x (face_normal r)) 0 || np_ne (normal_y (face_normal r)) 0
    = np_ne (normal_z (face_normal r)) 1 && np_ne (normal_z (face_normal r)) (-1).
Proof.
  unfold unit_normal, has_finite_normal.
  destruct (face_normal r) as [n|]; [|intros []].
  cbn [normal_x normal_y normal_z np_ne].
  set (x := vx n). set (y := vy n). set (z := vz n). intros Hunit.
  split; [reflexivity|].
  destruct (Qeq_bool z 1) eqn:E1; [|destruct (Qeq_bool z (-1)) eqn:E2];
    cbn [negb andb].
  - apply Qeq_bool_iff in E1. rewrite E1 in Hunit.
    assert (Hx : x * x == 0) by nra. assert (Hy : y * y == 0) by nra.
    apply Qmult_integral in Hx, Hy.
    assert (Hx0 : x == 0) by tauto. assert (Hy0 : y == 0) by tauto.
    apply Qeq_bool_iff in Hx0, Hy0. rewrite Hx0, Hy0. reflexivity.
  - apply Qeq_bool_iff in E2. rewrite E2 in Hunit.
    assert (Hx : x * x == 0) by nra. assert (Hy : y * y == 0) by nra.
    apply Qmult_integral in Hx, Hy.
    assert (Hx0 : x == 0) by tauto. assert (Hy0 : y == 0) by tauto.
    apply Qeq_bool_iff in Hx0, Hy0. rewrite Hx0, Hy0. reflexivity.
  - destruct (Qeq_bool x 0) eqn:Ex; [|reflexivity].
    destruct (Qeq_bool y 0) eqn:Ey; [|reflexivity]. exfalso.
    apply Qeq_bool_iff in Ex, Ey. rewrite Ex, Ey in Hunit.
    assert (Hz : (z - 1) * (z + 1) == 0) by (ring_simplify; lra).
    apply Qmult_integral in Hz as [Hz|Hz].
    + assert (H : z == 1) by lra. apply Qeq_bool_iff in H. congruence.
    + assert (H : z == -1) by lra. apply Qeq_bool_iff in H. congruence.
Qed.

Lemma wall_filters_agree (mesh_df : list MeshRow) :
  (∀ r, r ∈ mesh_df → is_class "wall" r = true → unit_normal r) →
  List.filter (fun r => np_ne (normal_x (face_normal r)) 0
                        || np_ne (normal_y (face_normal r)) 0)
              (List.filter (is_class "wall") mesh_df)
  = List.filter has_finite_normal (List.filter is_vertical_wall mesh_df).
Proof.
  induction mesh_df as [|r l IH]; intros Hunit; [reflexivity|].
  assert (IH' := IH (fun r' Hr => Hunit r' (proj2 (elem_of_cons l r' r) (or_intror Hr)))).
  cbn [List.filter]. unfold is_vertical_wall at 1.
  destruct (is_class "wall" r) eqn:Ec; cbn [andb]; [|exact IH'].
  cbn [List.filter].
  destruct (unit_normal_filters r) as [Hfin Hcond]; [apply Hunit; [left | exact Ec]|].
  rewrite Hcond.
  destruct (np_ne _ 1 && np_ne _ (-1)); [|exact IH'].
  cbn [List.filter]. rewrite Hfin. f_equal. exact IH'.
Qed.

Lemma sum_of_wall_areas (walls : list BuildingWall) :
  (∀ wall, wall ∈ walls →
           area wall = np_sum (map face_normal_magnitude (wall_mesh_df wall)) / 2) →
  np_sum (map area walls)
  == np_sum (map face_normal_magnitude (flat_map wall_mesh_df walls)) / 2.
Proof.
  induction walls as [|w ws IH]; intros Harea.
  - unfold np_sum. cbn [map flat_map fold_left]. reflexivity.
  - cbn [map flat_map]. rewrite map_app, np_sum_cons, np_sum_app.
    rewrite IH by (intros w' Hw'; apply Harea; right; exact Hw').
    rewrite (Harea w) by left.
    set (a := np_sum (map face_normal_magnitude (wall_mesh_df w))).
    set (b := np_sum (map face_normal_magnitude (flat_map wall_mesh_df ws))).
    change (a / 2) with (a * (1 # 2)). change (b / 2) with (b * (1 # 2)).
    change ((a + b) / 2) with ((a + b) * (1 # 2)). ring.
Qed.

(** X12. When the face normals of the wall faces have length one, the
    areas of the walls returned by [_get_building_walls] add up to the wall
    area of [_get_all_wall_area], the divisor of the overall wwr. *)
Theorem wall_areas_add_up (mesh_df : list MeshRow) :
  (∀ r, r ∈ mesh_df → is_class "wall" r = true → unit_normal r) →
  ∃ walls,
    _get_building_walls mesh_df = Ok walls
    ∧ np_sum (map area walls) == _get_all_wall_area mesh_df.
Proof.
  intros Hunit.
  destruct (_get_building_walls_perm mesh_df) as (walls & Hwalls & Hperm).
  destruct (_get_building_walls_tables mesh_df) as (walls' & Hwalls' & Hall).
  assert (walls' = walls) by congruence. subst walls'.
  exists walls. split; [exact Hwalls|].
  rewrite sum_of_wall_areas.
  - unfold _get_all_wall_area. rewrite wall_filters_agree by exact Hunit.
    assert (Hsum : np_sum (map face_normal_magnitude (flat_map wall_mesh_df walls))
                   == np_sum (map face_normal_magnitude
                                  (List.filter has_finite_normal
                                     (List.filter is_vertical_wall mesh_df)))).
    { apply np_sum_perm, Permutation_map, Hperm. }
    rewrite Hsum. reflexivity.
  - intros wall Hwall. destruct (Hall wall Hwall) as (_ & _ & _ & Hinit).
    apply BuildingWall_init_area. exact Hinit.
Qed.

Lemma wall_areas_add_up_witness :
  ∃ walls,
    _get_building_walls scene_mesh_df = Ok walls
    ∧ np_sum (map area walls) == _get_all_wall_area scene_mesh_df.
Proof.
  apply wall_areas_add_up.
  intros r Hr _. apply list_elem_of_In in Hr. vm_compute in Hr.
  repeat (destruct Hr as [<-|Hr]; [vm_compute; reflexivity|]). destruct Hr.
Defined.

End Areas.

(** ** Window areas and the end of the constructor *)

Section WindowAreas.

Import Nx Segmented MeshUtils.

Local Open Scope Q_scope.

Lemma points_loc_Ok (points : list Point) (nodes : list nat) :
  (∀ n, n ∈ nodes → (n < length points)%nat) →
  ∃ locations,
    points_loc points nodes = Ok locations
    ∧ length locations = length nodes
    ∧ ∀ q, q ∈ locations ↔ ∃ n p, n ∈ nodes ∧ points !! n = Some p ∧ pos p = q.
Proof.
  unfold points_loc. induction nodes as [|n nodes IH]; intros Hin.
  - exists []. split; [reflexivity|]. split; [reflexivity|]. intros q. split.
    + intros Hq. inversion Hq.
    + intros (n & p & Hn & _). inversion Hn.
  - destruct IH as (locs & Hlocs & Hlen & Hspec).
    { intros m Hm. apply Hin. right. exact Hm. }
    destruct (lookup_lt_is_Some_2 points n (Hin n (list_elem_of_here _ _))) as [p Hp].
    exists (pos p :: locs). cbn [mapM]. rewrite Hp, Hlocs. cbn [Py.bind].
    split; [reflexivity|]. split; [cbn [length]; congruence|]. intros q. split.
    + intros Hq. apply elem_of_cons in Hq as [->|Hq].
      * exists n, p. split; [left | split; [exact Hp | reflexivity]].
      * apply Hspec in Hq as (m & pm & Hm & Hpm & Hq).
        exists m, pm. split; [right; exact Hm | split; assumption].
    + intros (m & pm & Hm & Hpm & Hq). apply elem_of_cons in Hm as [->|Hm].
      * assert (pm = p) by congruence. subst. left.
      * right. apply Hspec. exists m, pm. repeat split; assumption.
Qed.

(** The area of a window: it is computed for every non-empty component whose
    nodes are in the vertex table, from the bounding box of their positions. *)
Lemma window_area_Ok (points : list Point) (graph : gset nat) :
  graph ≠ ∅ →
  (∀ n, n ∈ graph → (n < length points)%nat) →
  ∃ locations mins maxs,
    (∀ q, q ∈ locations ↔ ∃ n p, n ∈ graph ∧ points !! n = Some p ∧ pos p = q)
    ∧ locations ≠ []
    ∧ np_min_axis0 locations = Ok mins
    ∧ np_max_axis0 locations = Ok maxs
    ∧ _get_window_area_from_component_graph points graph
      = Ok (largest_face (Box mins maxs)).
Proof.
  intros Hne Hin.
  destruct (points_loc_Ok points (elements graph)) as (locs & Hlocs & Hlen & Hspec).
  { intros n Hn. apply Hin, elem_of_elements, Hn. }
  assert (Hlocs_ne : locs ≠ []).
  { intros ->. cbn [length] in Hlen. symmetry in Hlen.
    apply length_zero_iff_nil in Hlen. apply Hne.
    apply leibniz_equiv, elements_empty_inv. rewrite Hlen. reflexivity. }
  destruct (np_min_axis0_nonempty locs Hlocs_ne) as (mins & Hmin).
  destruct (np_max_axis0_nonempty locs Hlocs_ne) as (maxs & Hmax).
  exists locs, mins, maxs. split; [|split; [exact Hlocs_ne|split; [exact Hmin|split; [exact Hmax|]]]].
  - intros q. rewrite Hspec. split; intros (n & p & Hn & H); exists n, p;
      (split; [apply elem_of_elements; exact Hn | exact H]).
  - unfold _get_window_area_from_component_graph. rewrite Hlocs. cbn [Py.bind].
    rewrite Hmin, Hmax. reflexivity.
Qed.

Lemma largest_face_nonneg (locations : list vec3) (mins maxs : vec3) :
  locations ≠ [] →
  np_min_axis0 locations = Ok mins → np_max_axis0 locations = Ok maxs →
  0 <= largest_face (Box mins maxs).
Proof.
  intros Hne Hmin Hmax.
  destruct locations as [|q l]; [congruence|].
  destruct (np_min_axis0_spec _ _ Hmin) as (Lmin & _).
  destruct (np_max_axis0_spec _ _ Hmax) as (Lmax & _).
  destruct (Lmin q (list_elem_of_here _ _)) as (? & ? & ?).
  destruct (Lmax q (list_elem_of_here _ _)) as (? & ? & ?).
  unfold largest_face. cbn [lo hi].
  eapply Qle_trans; [|apply Q.le_max_l]. eapply Qle_trans; [|apply Q.le_max_l].
  apply Qmult_le_0_compat; lra.
Qed.

(** X13. For a non-empty component whose nodes are all in the vertex table
    [_get_window_area_from_component_graph] returns the area of the largest
    face of the bounding box of the positions of the nodes (the box contains
    all of them and lies inside every box that does); the area is never
    negative. *)
Theorem window_area_is_largest_face (points : list Point) (graph : gset nat) :
  graph ≠ ∅ →
  (∀ n, n ∈ graph → (n < length points)%nat) →
  ∃ a b,
    _get_window_area_from_component_graph points graph = Ok a
    ∧ (∀ n p, n ∈ graph → points !! n = Some p → in_domain b (pos p) = true)
    ∧ (∀ b', (∀ n p, n ∈ graph → points !! n = Some p →
                     in_domain b' (pos p) = true) →
             in_domain b' (lo b) = true ∧ in_domain b' (hi b) = true)
    ∧ a = largest_face b
    ∧ 0 <= a.
Proof.
  intros Hne Hin.
  destruct (window_area_Ok points graph Hne Hin)
    as (locs & mins & maxs & Hspec & Hlne & Hmin & Hmax & Harea).
  exists (largest_face (Box mins maxs)), (Box mins maxs).
  destruct (np_min_axis0_spec _ _ Hmin) as (Lmin & Axmin & Aymin & Azmin).
  destruct (np_max_axis0_spec _ _ Hmax) as (Lmax & Axmax & Aymax & Azmax).
  split; [exact Harea|]. split; [|split; [|split]].
  - intros n p Hn Hp.
    assert (Hq : pos p ∈ locs) by (apply Hspec; exists n, p; auto).
    destruct (Lmin _ Hq) as (? & ? & ?). destruct (Lmax _ Hq) as (? & ? & ?).
    apply in_domain_iff. cbn [lo hi]. repeat split; assumption.
  - intros b' Hb'.
    assert (Hcoord : ∀ (f : vec3 → Q) (m : Q) (lob hib : Q),
              (∃ q, q ∈ locs ∧ m == f q) →
              (∀ q, in_domain b' q = true → lob <= f q ∧ f q <= hib) →
              lob <= m ∧ m <= hib).
    { intros f m lob hib (q & Hq & Hm) Hf.
      apply Hspec in Hq as (n & p & Hn & Hp & <-).
      destruct (Hf _ (Hb' n p Hn Hp)) as [H1 H2]. rewrite Hm. split; assumption. }
    split; apply in_domain_iff; cbn [lo hi]; repeat split;
      first
        [ apply (Hcoord vx _ (vx (lo b')) (vx (hi b'))); [assumption|];
          intros q Hq; apply in_domain_iff in Hq; tauto
        | apply (Hcoord vy _ (vy (lo b')) (vy (hi b'))); [assumption|];
          intros q Hq; apply in_domain_iff in Hq; tauto
        | apply (Hcoord vz _ (vz (lo b')) (vz (hi b'))); [assumption|];
          intros q Hq; apply in_domain_iff in Hq; tauto ].
  - reflexivity.
  - eapply largest_face_nonneg; eassumption.
Qed.

Lemma window_area_is_largest_face_witness :
  ∃ a b,
    _get_window_area_from_component_graph scene_points scene_window = Ok a
    ∧ (∀ n p, n ∈ scene_window → scene_points !! n = Some p →
              in_domain b (pos p) = true)
    ∧ (∀ b', (∀ n p, n ∈ scene_window → scene_points !! n = Some p →
                     in_domain b' (pos p) = true) →
             in_domain b' (lo b) = true ∧ in_domain b' (hi b) = true)
    ∧ a = largest_face b
    ∧ 0 <= a.
Proof.
  apply window_area_is_largest_face.
  - apply (bool_decide_unpack _). vm_compute. exact I.
  - intros n Hn. unfold scene_window in Hn.
    apply elem_of_union in Hn as [Hn|Hn]; [apply elem_of_union in Hn as [Hn|Hn]|];
      apply elem_of_singleton in Hn; subst n; vm_compute; lia.
Defined.

Lemma mapM_Raise {A B : Type} (f : A → result B) (l : list A) (x : A) :
  x ∈ l → (∃ e, f x = Raise e) → ∃ y e, y ∈ l ∧ f y = Raise e ∧ mapM f l = Raise e.
Proof.
  induction l as [|z l IH]; intros Hx Hfx; [inversion Hx|].
  cbn [mapM]. destruct (f z) as [b|e] eqn:Ez.
  - apply elem_of_cons in Hx as [->|Hx].
    { destruct Hfx as [e He]. congruence. }
    destruct (IH Hx Hfx) as (y & e & Hy & Hfy & Hm).
    exists y, e. split; [right; exact Hy|]. split; [exact Hfy|].
    rewrite Hm. reflexivity.
  - exists z, e. split; [left|]. split; [exact Ez | reflexivity].
Qed.

(** X14. [_get_window_area_from_component_graph] raises [KeyError] when a
    node of the component is not in the vertex table, and the [ValueError]
    of an empty reduction when the component has no node. *)
Theorem window_area_errors (points : list Point) (graph : gset nat) :
  ((∃ n, n ∈ graph ∧ (length points ≤ n)%nat) →
   ∃ msg, _get_window_area_from_component_graph points graph = Raise (KeyError msg))
  ∧ (graph = ∅ →
     ∃ msg, _get_window_area_from_component_graph points graph
            = Raise (ValueError msg)).
Proof.
  split.
  - intros (n & Hn & Hlen). unfold _get_window_area_from_component_graph, points_loc.
    destruct (mapM_Raise
                (fun n => match points !! n with
                          | Some p => Ok (pos p)
                          | None => Raise (KeyError "not in index")
                          end) (elements graph) n) as (m & e & _ & Hm & ->).
    + apply elem_of_elements. exact Hn.
    + rewrite (lookup_ge_None_2 points n Hlen). eexists. reflexivity.
    + cbn [Py.bind]. destruct (points !! m); [discriminate|].
      injection Hm as <-. eexists. reflexivity.
  - intros ->. unfold _get_window_area_from_component_graph.
    rewrite elements_empty. cbn. eexists. reflexivity.
Qed.

(** A window component is not empty and its nodes are vertex ids of window
    faces. *)
Lemma window_graph_nodes (mesh_df : list MeshRow) (c : gset nat) :
  c ∈ _get_connected_meshes_list (List.filter (is_class "window") mesh_df) →
  c ≠ ∅
  ∧ ∀ n, n ∈ c →
      ∃ r, r ∈ mesh_df ∧ is_class "window" r = true ∧ n ∈ row_vertex_ids r.
Proof.
  intros Hc. unfold _get_connected_meshes_list in Hc.
  set (windows := List.filter (is_class "window") mesh_df) in *.
  destruct (connected_components_spec (graph_df windows)) as (Hclosed & _ & _).
  destruct (Hclosed c Hc) as (Hcl & v & Hv & Hvc & Hreach).
  split; [intros ->; set_solver|].
  intros n Hn.
  assert (Hnode : n ∈ node_order (graph_df windows)).
  { apply Hreach in Hn. destruct Hn as [|u w _ Hj]; [exact Hv|].
    eapply joined_node_order. exact Hj. }
  destruct (graph_df_node windows n Hnode) as (r & Hr & Hnr).
  apply list_elem_of_In, filter_In in Hr as [Hr Hw].
  exists r. split; [apply list_elem_of_In; exact Hr|]. split; [exact Hw|].
  unfold row_vertex_ids.
  destruct Hnr as [-> | [-> | ->]]; [left | right; left | right; right; left].
Qed.

(** [_get_windows_on_wall] never fails and returns some of the window
    components, in their order. *)
Lemma _get_windows_on_wall_Ok (mesh_df : list MeshRow) (window_graphs : list (gset nat))
    (wall : BuildingWall) :
  ∃ windows,
    _get_windows_on_wall mesh_df window_graphs wall = Ok windows
    ∧ ∀ w, w ∈ windows → w ∈ window_graphs.
Proof.
  unfold _get_windows_on_wall.
  destruct (direction wall) as [wall_direction|];
    [rewrite find_if_line_and_plane_intersect_map|]; cbn [Py.bind];
    (eexists; split; [reflexivity|]);
    intros w Hw; apply list_elem_of_In, filter_In in Hw as [Hw _];
    apply list_elem_of_In; exact Hw.
Qed.

Lemma set_wwr_of_wall_Ok (points : list Point) (mesh_df : list MeshRow)
    (window_graphs : list (gset nat)) (wall : BuildingWall) :
  (∀ c, c ∈ window_graphs → c ≠ ∅ ∧ ∀ n, n ∈ c → (n < length points)%nat) →
  ∃ windows_area,
    set_wwr_of_wall points mesh_df window_graphs wall = Ok (set_wwr wall windows_area)
    ∧ 0 <= windows_area.
Proof.
  intros Hgraphs. unfold set_wwr_of_wall.
  destruct (_get_windows_on_wall_Ok mesh_df window_graphs wall) as (ws & -> & Hsub).
  cbn [Py.bind].
  destruct (mapM_Forall2 (_get_window_area_from_component_graph points)
              (fun _ a => 0 <= a) ws) as (areas & -> & Hall).
  { intros c Hc. destruct (Hgraphs c (Hsub c Hc)) as [Hne Hin].
    destruct (window_area_Ok points c Hne Hin)
      as (locs & mins & maxs & _ & Hlne & Hmin & Hmax & Harea).
    eexists. split; [exact Harea|]. eapply largest_face_nonneg; eassumption. }
  cbn [Py.bind]. exists (np_sum areas). split; [reflexivity|].
  apply np_sum_nonneg. intros a Ha.
  destruct (Forall2_elem_of_r _ _ _ _ Hall Ha) as (_ & _ & H). exact H.
Qed.

(** X15. Once the faces have their normals the constructor of
    [Segmented3DModel] cannot fail: when the vertex ids of the window faces
    are in the vertex table it returns a model whose window graphs are the
    connected components of the window faces and whose walls are the walls of
    [_get_building_walls], in the same order and of the same geometry, each
    with its wwr set to a non-negative window area divided by its area. *)
Theorem init_from_mesh_df_succeeds (points : list Point) (mesh_df : list MeshRow) :
  (∀ r n, r ∈ mesh_df → is_class "window" r = true → n ∈ row_vertex_ids r →
          (n < length points)%nat) →
  ∃ model walls,
    init_from_mesh_df points mesh_df = Ok model
    ∧ _points model = points
    ∧ _mesh_df model = mesh_df
    ∧ _window_graphs model
      = _get_connected_meshes_list (List.filter (is_class "window") mesh_df)
    ∧ _get_building_walls mesh_df = Ok walls
    ∧ Forall2 (fun wall wall' =>
                 ∃ windows_area, wall' = set_wwr wall windows_area ∧ 0 <= windows_area)
              walls (_building_walls model).
Proof.
  intros Hids. unfold init_from_mesh_df.
  destruct (_get_building_walls_perm mesh_df) as (walls & Hwalls & _).
  rewrite Hwalls. cbn [Py.bind].
  set (graphs := _get_connected_meshes_list (List.filter (is_class "window") mesh_df)).
  destruct (mapM_Forall2 (set_wwr_of_wall points mesh_df graphs)
              (fun wall wall' =>
                 ∃ windows_area, wall' = set_wwr wall windows_area ∧ 0 <= windows_area)
              walls) as (walls' & Hwalls' & Hall).
  { intros wall _.
    destruct (set_wwr_of_wall_Ok points mesh_df graphs wall) as (a & Ha & Hpos).
    - intros c Hc. destruct (window_graph_nodes mesh_df c Hc) as [Hne Hnodes].
      split; [exact Hne|]. intros n Hn.
      destruct (Hnodes n Hn) as (r & Hr & Hw & Hnr). eapply Hids; eassumption.
    - eexists. split; [exact Ha|]. exists a. split; [reflexivity | exact Hpos]. }
  unfold _set_wwr_per_wall. rewrite Hwalls'. cbn [Py.bind].
  eexists. exists walls. split; [reflexivity|]. cbn.
  repeat split; try reflexivity. exact Hall.
Qed.

Lemma init_from_mesh_df_succeeds_witness :
  ∃ model walls,
    init_from_mesh_df scene_points scene_mesh_df = Ok model
    ∧ _points model = scene_points
    ∧ _mesh_df model = scene_mesh_df
    ∧ _window_graphs model
      = _get_connected_meshes_list (List.filter (is_class "window") scene_mesh_df)
    ∧ _get_building_walls scene_mesh_df = Ok walls
    ∧ Forall2 (fun wall wall' =>
                 ∃ windows_area, wall' = set_wwr wall windows_area ∧ 0 <= windows_area)
              walls (_building_walls model).
Proof.
  apply init_from_mesh_df_succeeds.
  intros r n Hr Hw Hn. apply list_elem_of_In in Hr. vm_compute in Hr.
  repeat (destruct Hr as [<-|Hr];
          [ first [ discriminate Hw
                  | apply list_elem_of_In in Hn; vm_compute in Hn;
                    repeat (destruct Hn as [<-|Hn]; [vm_compute; lia|]); destruct Hn ]|]).
  destruct Hr.
Defined.

End WindowAreas.

(** ** The class of a vertex *)

Section AssignClasses.

Import Segmented PostProcess.

Lemma assign_class_row_cases (q : Point) (entry : string * ClassInfo) :
  (RGB (snd entry) = rgb q ∧ assign_class_row q entry = set_seg_class q (fst entry))
  ∨ (RGB (snd entry) ≠ rgb q ∧ assign_class_row q entry = q).
Proof.
  destruct entry as [cls [id [[red green] blue]]]. unfold assign_class_row.
  cbn [RGB snd fst]. destruct (rgb q) as [[r g] b] eqn:Eq.
  destruct ((r =? red)%Z && (g =? green)%Z && (b =? blue)%Z) eqn:E.
  - left. rewrite !andb_true_iff, !Z.eqb_eq in E. destruct E as [[-> ->] ->].
    split; reflexivity.
  - right. split; [|reflexivity]. intros H. injection H as -> -> ->.
    rewrite !Z.eqb_refl in E. discriminate.
Qed.

(** The loop over the palette on one row: the row keeps its other columns,
    and its class is that of the last entry of its colour, if there is one. *)
Lemma fold_assign_class_row_last (seg_map : segmentation_map_t) (q : Point) :
  ∃ cls,
    fold_left assign_class_row seg_map q = set_seg_class q cls
    ∧ (((∀ entry, entry ∈ seg_map → RGB (snd entry) ≠ rgb q) ∧ cls = seg_class q)
       ∨ (∃ before entry after,
            seg_map = before ++ entry :: after
            ∧ RGB (snd entry) = rgb q
            ∧ (∀ e, e ∈ after → RGB (snd e) ≠ rgb q)
            ∧ cls = fst entry)).
Proof.
  induction seg_map as [|e l IH] using rev_ind.
  - exists (seg_class q). split; [destruct q; reflexivity|]. left.
    split; [intros entry H; inversion H | reflexivity].
  - destruct IH as (cls & Hfold & Hcls). rewrite fold_left_app. cbn [fold_left].
    rewrite Hfold.
    destruct (assign_class_row_cases (set_seg_class q cls) e) as [[Hm ->]|[Hm ->]];
      cbn [set_seg_class rgb] in Hm.
    + exists (fst e). split; [reflexivity|]. right.
      exists l, e, []. repeat split; try assumption. intros e' H; inversion H.
    + exists cls. split; [reflexivity|].
      destruct Hcls as [[Hno ->]|(before & entry & after & -> & Hrgb & Hafter & ->)].
      * left. split; [|reflexivity]. intros entry Hentry.
        apply elem_of_app in Hentry as [Hentry|Hentry]; [apply Hno; exact Hentry|].
        apply list_elem_of_singleton in Hentry as ->. exact Hm.
      * right. exists before, entry, (after ++ [e]).
        split; [rewrite <- app_assoc; reflexivity|]. split; [exact Hrgb|].
        split; [|reflexivity]. intros e' He'.
        apply elem_of_app in He' as [He'|He']; [apply Hafter; exact He'|].
        apply list_elem_of_singleton in He' as ->. exact Hm.
Qed.

(** X16. [_assign_classes] keeps the rows, their order and their position,
    normal and colour columns; a row whose colour is the RGB of no palette
    entry gets the class [""] (whatever class it had), and any other row gets
    the class of the last palette entry of its colour. *)
Theorem _assign_classes_last_match (seg_map : segmentation_map_t) (points : list Point) :
  length (_assign_classes seg_map points) = length points
  ∧ ∀ i p, points !! i = Some p →
      ∃ cls,
        _assign_classes seg_map points !! i = Some (set_seg_class p cls)
        ∧ (((∀ entry, entry ∈ seg_map → RGB (snd entry) ≠ rgb p) ∧ cls = "")
           ∨ (∃ before entry after,
                seg_map = before ++ entry :: after
                ∧ RGB (snd entry) = rgb p
                ∧ (∀ e, e ∈ after → RGB (snd e) ≠ rgb p)
                ∧ cls = fst entry)).
Proof.
  rewrite _assign_classes_map. split; [apply length_map|].
  intros i p Hp. rewrite list_lookup_fmap, Hp. cbn [fmap option_fmap option_map].
  unfold classify_row.
  destruct (fold_assign_class_row_last seg_map (set_seg_class p "")) as (cls & -> & Hcls).
  exists cls. split; [reflexivity|]. exact Hcls.
Qed.

End AssignClasses.

(** ** The angle test on a batch *)

Section CheckAnglesBatch.

Import MeshUtils.

(** X17. Every entry of the array returned by [check_angles] is the test
    of the source, [arccos(cos) > pi / 2] with the cosine
    [dot / (|f| * |v|)] clamped where it is close to 1 or -1, and it is True
    exactly when the dot product of the face normal and the vertex normal is
    negative; the array has one row per face. *)
Theorem check_angles_arccos (faces : list (vec3 * vertex_normals_t)) :
  Forall2
    (fun face row =>
       let '(a, b, c) := snd face in
       let '(ra, rb, rc) := row in
       (ra = true ↔ arccos_check (fst face) a)
       ∧ (rb = true ↔ arccos_check (fst face) b)
       ∧ (rc = true ↔ arccos_check (fst face) c)
       ∧ (ra = true ↔ (dot (fst face) a < 0)%Q)
       ∧ (rb = true ↔ (dot (fst face) b < 0)%Q)
       ∧ (rc = true ↔ (dot (fst face) c < 0)%Q))
    faces (check_angles faces).
Proof.
  unfold check_angles. apply Forall2_fmap_r, Forall_Forall2_diag, Forall_forall.
  intros [f [[a b] c]] _. cbn [fst snd check_angles_row].
  repeat split; first [ apply more_than_90_degrees_arccos
                      | apply more_than_90_degrees_iff
                      | apply more_than_90_degrees_arccos
                      | apply more_than_90_degrees_iff ].
Qed.

End CheckAnglesBatch.

(** ** Connected components of faces *)

Section ConnectedMeshes.

Import Nx Segmented MeshUtils.

(** X18. The components returned by [_get_connected_meshes_list] are
    pairwise disjoint; each is the set of the vertex ids that a chain of face
    edges joins to any one of its nodes, and its nodes are vertex ids of the
    faces of the slice; the three vertices of every face are in one of them;
    there is no component exactly when the slice has no face. *)
Theorem connected_meshes_are_reachability_classes (mesh_df_slice : list MeshRow) :
  pairwise (fun c1 c2 : gset nat => c1 ## c2) (_get_connected_meshes_list mesh_df_slice)
  ∧ (∀ c u, c ∈ _get_connected_meshes_list mesh_df_slice → u ∈ c →
            (∃ r, r ∈ mesh_df_slice ∧ u ∈ row_vertex_ids r)
            ∧ ∀ w, w ∈ c ↔ reachable (graph_df mesh_df_slice) u w)
  ∧ (∀ c, c ∈ _get_connected_meshes_list mesh_df_slice → c ≠ ∅)
  ∧ (∀ r, r ∈ mesh_df_slice →
          ∃ c, c ∈ _get_connected_meshes_list mesh_df_slice
               ∧ ∀ u, u ∈ row_vertex_ids r → u ∈ c)
  ∧ (_get_connected_meshes_list mesh_df_slice = [] ↔ mesh_df_slice = []).
Proof.
  unfold _get_connected_meshes_list.
  destruct (connected_components_spec (graph_df mesh_df_slice))
    as (Hclosed & Hpw & Hcover).
  assert (Hrow : ∀ r, r ∈ mesh_df_slice →
            ∃ c, c ∈ connected_components (graph_df mesh_df_slice)
                 ∧ ∀ u, u ∈ row_vertex_ids r → u ∈ c).
  { intros r Hr.
    destruct (Hcover _ (row_v1_node mesh_df_slice r Hr)) as (c & Hc & Hv).
    exists c. split; [exact Hc|]. intros u Hu.
    destruct (Hclosed c Hc) as (Hcl & _).
    apply (all_vertices_in_elem c r); [|exact Hu].
    eapply all_vertices_in_closed; [exact Hcl | exact Hr | left; exact Hv]. }
  split; [exact Hpw|]. split; [|split; [|split; [exact Hrow|]]].
  - intros c u Hc Hu. destruct (Hclosed c Hc) as (Hcl & v & Hv & Hvc & Hreach).
    split.
    + assert (Hnode : u ∈ node_order (graph_df mesh_df_slice)).
      { apply Hreach in Hu. destruct Hu as [|x w _ Hj]; [exact Hv|].
        eapply joined_node_order. exact Hj. }
      destruct (graph_df_node mesh_df_slice u Hnode) as (r & Hr & Hur).
      exists r. split; [exact Hr|]. unfold row_vertex_ids.
      destruct Hur as [-> | [-> | ->]]; [left | right; left | right; right; left].
    + intros w. rewrite Hreach. apply Hreach in Hu. split; intros H.
      * eapply reachable_trans; [apply reachable_sym; exact Hu | exact H].
      * eapply reachable_trans; [exact Hu | exact H].
  - intros c Hc. destruct (Hclosed c Hc) as (_ & v & _ & Hvc & _).
    intros ->. set_solver.
  - split.
    + intros Hnil. destruct mesh_df_slice as [|r l]; [reflexivity|]. exfalso.
      destruct (Hrow r (list_elem_of_here _ _)) as (c & Hc & _).
      rewrite Hnil in Hc. inversion Hc.
    + intros ->. reflexivity.
Qed.

End ConnectedMeshes.

(** ** The overall ratio *)

Section OverallWWR.

Import Nx Segmented MeshUtils.

Local Open Scope Q_scope.

(** X19. When every window component is non-empty with its nodes in the
    vertex table and the wall area is not zero, [wwr] raises nothing and
    returns the finite quotient of a non-negative windows area, the sum of the
    areas of the window components, by the wall area. *)
Theorem wwr_is_finite (model : Segmented3DModel) :
  (∀ c, c ∈ _window_graphs model →
        c ≠ ∅ ∧ ∀ n, n ∈ c → (n < length (_points model))%nat) →
  ¬ _get_all_wall_area (_mesh_df model) == 0 →
  ∃ windows_area,
    _get_all_window_area (_points model) (_window_graphs model) = Ok windows_area
    ∧ 0 <= windows_area
    ∧ wwr model = Ok (Finite (windows_area / _get_all_wall_area (_mesh_df model))).
Proof.
  intros Hgraphs Hwall. unfold wwr, _get_all_window_area.
  destruct (mapM_Forall2 (_get_window_area_from_component_graph (_points model))
              (fun _ a => 0 <= a) (_window_graphs model)) as (areas & -> & Hall).
  { intros c Hc. destruct (Hgraphs c Hc) as [Hne Hin].
    destruct (window_area_Ok (_points model) c Hne Hin)
      as (locs & mins & maxs & _ & Hlne & Hmin & Hmax & Harea).
    eexists. split; [exact Harea|]. eapply largest_face_nonneg; eassumption. }
  cbn [Py.bind]. exists (np_sum areas). split; [reflexivity|]. split.
  - apply np_sum_nonneg. intros a Ha.
    destruct (Forall2_elem_of_r _ _ _ _ Hall Ha) as (_ & _ & H). exact H.
  - unfold np_divide.
    destruct (Qeq_bool (_get_all_wall_area (_mesh_df model)) 0) eqn:E; [|reflexivity].
    apply Qeq_bool_iff in E. contradiction.
Qed.

Lemma wwr_is_finite_witness :
  ∃ windows_area,
    _get_all_window_area (_points scene_model) (_window_graphs scene_model)
    = Ok windows_area
    ∧ 0 <= windows_area
    ∧ wwr scene_model
      = Ok (Finite (windows_area / _get_all_wall_area (_mesh_df scene_model))).
Proof.
  apply wwr_is_finite.
  - intros c Hc. cbn [scene_model _window_graphs] in Hc.
    apply list_elem_of_singleton in Hc as ->. split.
    + apply (bool_decide_unpack _). vm_compute. exact I.
    + intros n Hn. unfold scene_window in Hn.
      apply elem_of_union in Hn as [Hn|Hn]; [apply elem_of_union in Hn as [Hn|Hn]|];
        apply elem_of_singleton in Hn; subst n; vm_compute; lia.
  - vm_compute. discriminate.
Defined.

End OverallWWR.

(** ** Reading the segmentation mapping *)

Section ReadSegmentation.

Import Dataset.

Local Open Scope Q_scope.

Lemma loop_body_Return (st st' : state) (key : string) (val_dict : json) :
  loop_body st (key, val_dict) = Return st' ↔
  ∃ entry, well_formed val_dict entry ∧ st' = add_class st key entry.
Proof.
  split.
  - unfold loop_body, getitem.
    destruct val_dict as [| | | | |l|d]; try discriminate.
    destruct (dict_get d "ID") as [class_id|] eqn:Eid; [|discriminate].
    destruct (dict_get d "RGB") as [class_rgb|] eqn:Ergb; [|discriminate].
    cbn [and_then]. unfold assert at 1.
    destruct (isinstance_int class_id) eqn:Eint; [|discriminate]. cbn [and_then].
    destruct class_rgb as [| | | | |l|d']; try discriminate.
    cbn [isinstance_list assert and_then list_of].
    destruct l as [|r [|g [|b [|x l]]]]; try discriminate.
    cbn [length Nat.eqb assert and_then assert_channels].
    unfold assert.
    destruct (isinstance_int r) eqn:Er; [|discriminate]. cbn [and_then].
    destruct (isinstance_int g) eqn:Eg; [|discriminate]. cbn [and_then].
    destruct (isinstance_int b) eqn:Eb; [|discriminate]. cbn [and_then].
    intros H; injection H as <-.
    exists (MkClassEntry class_id (normalised [r; g; b])). split; [|reflexivity].
    exists d, class_id, r, g, b. repeat split; assumption.
  - intros (entry & (d & class_id & r & g & b & -> & Eid & Eint & Ergb & Er & Eg & Eb & ->)
              & ->).
    unfold loop_body, getitem. rewrite Eid, Ergb. cbn [and_then].
    unfold assert at 1. rewrite Eint. cbn [and_then].
    cbn [isinstance_list assert and_then list_of length Nat.eqb assert_channels].
    unfold assert. rewrite Er, Eg, Eb. reflexivity.
Qed.

Lemma loop_Return (items : list (string * json)) (st st' : state) :
  loop items st = Return st' ↔
  ∃ entries,
    Forall2 (fun item entry => well_formed (snd item) entry) items entries
    ∧ st' = fold_left (fun st ke => add_class st (fst ke) (snd ke))
                      (zip (map fst items) entries) st.
Proof.
  revert st. induction items as [|[key val_dict] items IH]; intros st; cbn [loop].
  - split.
    + intros H; injection H as <-. exists []. split; [constructor | reflexivity].
    + intros (entries & Hall & ->). inversion Hall; subst. reflexivity.
  - split.
    + destruct (loop_body st (key, val_dict)) as [st1|e] eqn:Ebody; [|discriminate].
      cbn [and_then]. intros Hrest.
      apply loop_body_Return in Ebody as (entry & Hwf & ->).
      apply IH in Hrest as (entries & Hall & ->).
      exists (entry :: entries). split; [constructor; assumption | reflexivity].
    + intros (entries & Hall & ->).
      inversion Hall as [|item entry items' entries' Hwf Hall']; subst.
      cbn [snd] in Hwf.
      rewrite (proj2 (loop_body_Return st _ key val_dict)
                 (ex_intro _ entry (conj Hwf eq_refl))).
      cbn [and_then]. apply IH. exists entries'. split; [exact Hall' | reflexivity].
Qed.

Lemma dict_set_fresh {V : Type} (d : list (string * V)) (key : string) (value : V) :
  key ∉ map fst d → dict_set d key value = d ++ [(key, value)].
Proof.
  induction d as [|[k v] d IH]; intros Hfresh; [reflexivity|].
  cbn [dict_set]. destruct (String.eqb_spec k key) as [->|Hne].
  - exfalso. apply Hfresh. left.
  - cbn [app]. f_equal. apply IH. intros Hin. apply Hfresh. right. exact Hin.
Qed.

(** The state at the end of the loop, when the classes have distinct
    names. *)
Lemma fold_add_class (keys : list string) (entries : list ClassEntry) (st : state) :
  length keys = length entries →
  NoDup (map fst (return_mapping st) ++ keys) →
  fold_left (fun st ke => add_class st (fst ke) (snd ke)) (zip keys entries) st
  = MkState (return_mapping st ++ zip keys entries)
            (id_set st ∪ list_to_set (map (fun e => int_value (entry_ID e)) entries))
            (total_num_ids st + length entries).
Proof.
  revert entries st. induction keys as [|k keys IH]; intros [|e entries] st Hlen Hnd;
    try discriminate.
  - cbn. rewrite app_nil_r, Nat.add_0_r. destruct st as [rm ids n]. cbn. f_equal.
    set_solver.
  - cbn [zip zip_with fold_left fst snd].
    assert (Hfresh : k ∉ map fst (return_mapping st)).
    { apply NoDup_app in Hnd as (_ & Hdisj & _). intros Hin.
      apply (Hdisj k Hin). left. }
    rewrite IH.
    + unfold add_class. cbn [return_mapping id_set total_num_ids].
      rewrite dict_set_fresh by exact Hfresh. rewrite <- app_assoc. cbn [app map length].
      f_equal; [|lia].
      rewrite list_to_set_cons. set_solver.
    + cbn [length] in Hlen. lia.
    + unfold add_class. cbn [return_mapping].
      rewrite dict_set_fresh by exact Hfresh.
      rewrite map_app. cbn [map fst]. rewrite <- app_assoc. exact Hnd.
Qed.

Lemma size_list_to_set_NoDup (l : list Z) :
  size (list_to_set l : gset Z) = length l ↔ NoDup l.
Proof.
  split; [|apply size_list_to_set].
  assert (Hle : ∀ l : list Z, (size (list_to_set l : gset Z) ≤ length l)%nat).
  { intros l'. induction l' as [|x l' IH]; [rewrite list_to_set_nil, size_empty; cbn; lia|].
    rewrite list_to_set_cons. cbn [length].
    pose proof (size_union_alt ({[x]} : gset Z) (list_to_set l')) as Hsz.
    pose proof (subseteq_size (list_to_set l' ∖ {[x]}) (list_to_set l' : gset Z)) as Hsub.
    rewrite Hsz, size_singleton. assert (list_to_set l' ∖ {[x]} ⊆ (list_to_set l' : gset Z))
      by set_solver. specialize (Hsub H). lia. }
  induction l as [|x l IH]; intros Hsize; [constructor|].
  rewrite list_to_set_cons in Hsize. cbn [length] in Hsize.
  destruct (decide (x ∈ l)) as [Hin|Hnin].
  - exfalso.
    assert (Heq : ({[x]} ∪ list_to_set l : gset Z) = list_to_set l).
    { apply leibniz_equiv.
      assert (x ∈ (list_to_set l : gset Z)) by (apply elem_of_list_to_set; exact Hin).
      set_solver. }
    rewrite Heq in Hsize. specialize (Hle l). lia.
  - apply NoDup_cons. split; [exact Hnin|]. apply IH.
    rewrite size_union, size_singleton in Hsize by set_solver. lia.
Qed.

Lemma well_formed_zip (items : list (string * json)) (entries : list ClassEntry) :
  Forall2 (fun item entry => well_formed (snd item) entry) items entries →
  Forall2 (fun item km => fst km = fst item ∧ well_formed (snd item) (snd km))
          items (zip (map fst items) entries).
Proof.
  induction 1 as [|item entry items entries Hwf _ IH]; [constructor|].
  cbn [map zip zip_with]. constructor; [split; [reflexivity | exact Hwf] | exact IH].
Qed.

Lemma well_formed_unzip (items : list (string * json)) (m : list (string * ClassEntry)) :
  Forall2 (fun item km => fst km = fst item ∧ well_formed (snd item) (snd km)) items m →
  Forall2 (fun item entry => well_formed (snd item) entry) items (map snd m)
  ∧ m = zip (map fst items) (map snd m).
Proof.
  induction 1 as [|item [k e] items m [Hk Hwf] _ [IH1 IH2]]; [split; [constructor | reflexivity]|].
  cbn [fst snd] in Hk, Hwf. subst k. split.
  - cbn [map snd]. constructor; assumption.
  - cbn [map zip zip_with fst snd]. f_equal. exact IH2.
Qed.

(** The outcome of the function when every class is well formed. *)
Lemma _read_segmentation_info_well_formed (seg_mapping : list (string * json))
    (entries : list ClassEntry) :
  NoDup (map fst seg_mapping) →
  Forall2 (fun item entry => well_formed (snd item) entry) seg_mapping entries →
  _read_segmentation_info seg_mapping
  = if (size (list_to_set (map (fun e => int_value (entry_ID e)) entries) : gset Z)
        =? length entries)%nat
    then Return (zip (map fst seg_mapping) entries)
    else Fail (AssertionError "Invalid class IDs. All classes must have unique IDs.").
Proof.
  intros Hnd Hall. unfold _read_segmentation_info.
  rewrite (proj2 (loop_Return seg_mapping (MkState [] ∅ 0) _)
             (ex_intro _ entries (conj Hall eq_refl))).
  cbn [and_then]. rewrite fold_add_class.
  - cbn [id_set total_num_ids return_mapping app Nat.add].
    rewrite (left_id_L ∅ (∪)).
    destruct (_ =? _)%nat; reflexivity.
  - rewrite length_map. eapply Forall2_length; exact Hall.
  - exact Hnd.
Qed.

(** X20. On a mapping with distinct class names [_read_segmentation_info]
    returns a mapping exactly when every class is a dict whose ["ID"] is an
    integer and whose ["RGB"] is a list of three integers and the IDs are
    pairwise different as integers; the returned mapping has the classes in
    their order, each with its ID and its three channels divided by 255. *)
Theorem _read_segmentation_info_valid (seg_mapping : list (string * json))
    (m : list (string * ClassEntry)) :
  NoDup (map fst seg_mapping) →
  _read_segmentation_info seg_mapping = Return m ↔
  Forall2 (fun item km => fst km = fst item ∧ well_formed (snd item) (snd km))
          seg_mapping m
  ∧ NoDup (map (fun km => int_value (entry_ID (snd km))) m).
Proof.
  intros Hnd. split.
  - intros Hret.
    assert (Hloop : ∃ st, loop seg_mapping (MkState [] ∅ 0) = Return st).
    { unfold _read_segmentation_info in Hret.
      destruct (loop seg_mapping _) as [st|e]; [eexists; reflexivity | discriminate]. }
    destruct Hloop as [st Hloop]. apply loop_Return in Hloop as (entries & Hall & _).
    rewrite (_read_segmentation_info_well_formed _ entries Hnd Hall) in Hret.
    destruct (_ =? _)%nat eqn:E; [|discriminate]. injection Hret as <-.
    split; [apply well_formed_zip; exact Hall|].
    apply Nat.eqb_eq in E.
    rewrite <- (length_map (fun e => int_value (entry_ID e)) entries) in E.
    apply size_list_to_set_NoDup in E.
    rewrite <- (map_map snd (fun e => int_value (entry_ID e))).
    rewrite snd_zip; [exact E|].
    rewrite length_map. apply Nat.eq_le_incl. symmetry.
    eapply Forall2_length; exact Hall.
  - intros [Hall Hids]. apply well_formed_unzip in Hall as [Hall Hm].
    rewrite (_read_segmentation_info_well_formed _ _ Hnd Hall).
    rewrite <- (map_map snd (fun e => int_value (entry_ID e))) in Hids.
    apply size_list_to_set_NoDup in Hids. rewrite length_map in Hids.
    rewrite Hids, Nat.eqb_refl, <- Hm.
    reflexivity.
Qed.

Lemma _read_segmentation_info_valid_witness :
  _read_segmentation_info mock_segmentation_mapping
  = Return
      [ ("background", MkClassEntry (JInt 0) (0 / 255, 0 / 255, 0 / 255));
        ("wall", MkClassEntry (JInt 1) (0 / 255, 255 / 255, 255 / 255));
        ("window", MkClassEntry (JInt 2) (50 / 255, 10 / 255, 75 / 255));
        ("roof", MkClassEntry (JInt 3) (125 / 255, 200 / 255, 20 / 255));
        ("other_class", MkClassEntry (JInt 4) (255 / 255, 0 / 255, 0 / 255)) ].
Proof.
  apply _read_segmentation_info_valid.
  - apply (bool_decide_unpack _). vm_compute. exact I.
  - split.
    + unfold mock_segmentation_mapping.
      repeat (constructor;
              [split; [reflexivity|]; cbn [snd];
               eexists _, _, _, _, _; repeat split; reflexivity|]).
      constructor.
    + apply (bool_decide_unpack _). vm_compute. exact I.
Defined.

(** X21. When every class is well formed but two IDs are equal as integers
    ([True] and [1] are), [_read_segmentation_info] fails with the assertion
    on unique IDs, after the whole mapping has been read. *)
Theorem _read_segmentation_info_duplicate_ids (seg_mapping : list (string * json))
    (entries : list ClassEntry) :
  NoDup (map fst seg_mapping) →
  Forall2 (fun item entry => well_formed (snd item) entry) seg_mapping entries →
  ¬ NoDup (map (fun e => int_value (entry_ID e)) entries) →
  _read_segmentation_info seg_mapping
  = Fail (AssertionError "Invalid class IDs. All classes must have unique IDs.").
Proof.
  intros Hnd Hall Hdup.
  rewrite (_read_segmentation_info_well_formed _ entries Hnd Hall).
  destruct (_ =? _)%nat eqn:E; [|reflexivity].
  exfalso. apply Hdup. apply size_list_to_set_NoDup.
  rewrite length_map. apply Nat.eqb_eq, E.
Qed.

Lemma _read_segmentation_info_duplicate_ids_witness :
  _read_segmentation_info clashing_segmentation_mapping
  = Fail (AssertionError "Invalid class IDs. All classes must have unique IDs.").
Proof.
  apply (_read_segmentation_info_duplicate_ids _
           [ MkClassEntry (JBool true) (0 / 255, 255 / 255, 255 / 255);
             MkClassEntry (JInt 1) (50 / 255, 10 / 255, 75 / 255) ]).
  - apply (bool_decide_unpack _). vm_compute. exact I.
  - unfold clashing_segmentation_mapping.
    repeat (constructor;
            [cbn [snd]; eexists _, _, _, _, _; repeat split; reflexivity|]).
    constructor.
  - intros H. apply (bool_decide_pack _) in H. vm_compute in H. exact H.
Defined.

End ReadSegmentation.

(** ** Images that cannot be quantized *)

Section QuantizationImageErrors.

Import PostProcess.

Lemma concat_nonempty {A : Type} (rows : list (list A)) :
  (∃ row, row ∈ rows ∧ row ≠ []) → ∃ x, x ∈ concat rows.
Proof.
  intros (row & Hrow & Hne). destruct row as [|x row]; [congruence|].
  exists x. apply list_elem_of_In, in_concat. exists (x :: row).
  split; [apply list_elem_of_In; exact Hrow | left; reflexivity].
Qed.

(** X22. [color_quantization_img] raises [ValueError] on an image that has
    a pixel and fewer than three channels (the reshape to three columns
    fails), and on an image that has a pixel when the palette is empty. *)
Theorem color_quantization_img_errors (img : image) (mc : list color) :
  (∀ c, (c < 3)%nat →
        (∀ row pixel, row ∈ img → pixel ∈ row → length pixel = c) →
        (∃ row, row ∈ img ∧ row ≠ []) →
        ∃ msg, color_quantization_img img mc = Raise (ValueError msg))
  ∧ ((∀ row pixel, row ∈ img → pixel ∈ row → (3 ≤ length pixel)%nat) →
     (∃ row, row ∈ img ∧ row ≠ []) →
     ∃ msg, color_quantization_img img [] = Raise (ValueError msg)).
Proof.
  split.
  - intros c Hc Hch Hne. unfold color_quantization_img, reshape_to_pixels.
    assert (Hpx : ∃ pixel, pixel ∈ concat (keep_rgb_channels img)).
    { apply concat_nonempty. destruct Hne as (row & Hrow & Hne).
      exists (map (take 3) row). split.
      - unfold keep_rgb_channels. apply list_elem_of_fmap.
        exists row. split; [reflexivity | exact Hrow].
      - destruct row; [congruence | discriminate]. }
    destruct Hpx as (pixel & Hpixel).
    assert (Hfail : ∀ px, px ∈ concat (keep_rgb_channels img) →
              pixel_color px = Raise (ValueError "cannot reshape array")).
    { intros px Hin. apply list_elem_of_In, in_concat in Hin as (krow & Hkrow & Hin).
      unfold keep_rgb_channels in Hkrow.
      apply in_map_iff in Hkrow as (row & <- & Hrow).
      apply in_map_iff in Hin as (px0 & <- & Hpx0).
      pose proof (Hch row px0 (proj2 (list_elem_of_In _ _) Hrow)
                    (proj2 (list_elem_of_In _ _) Hpx0)) as Hlen.
      destruct px0 as [|r [|g [|b rest]]]; cbn [length] in Hlen; try reflexivity.
      lia. }
    destruct (mapM_Raise pixel_color _ pixel Hpixel) as (y & e & Hy & Hfy & ->).
    { eexists. apply Hfail. exact Hpixel. }
    rewrite (Hfail y Hy) in Hfy. injection Hfy as <-.
    cbn [Py.bind]. eexists. reflexivity.
  - intros Hch Hne. unfold color_quantization_img.
    rewrite reshape_to_pixels_Ok by exact Hch. cbn [Py.bind].
    assert (Harr : concat (map (map rgb_of_pixel) img) ≠ []).
    { destruct (concat_nonempty (map (map rgb_of_pixel) img)) as (x & Hx).
      - destruct Hne as (row & Hrow & Hne). exists (map rgb_of_pixel row). split.
        + apply list_elem_of_fmap. exists row. split; [reflexivity | exact Hrow].
        + destruct row; [congruence | discriminate].
      - intros Hnil. rewrite Hnil in Hx. inversion Hx. }
    unfold color_quantization.
    destruct (assign_loop_empty_palette
                (pixel_dict_loop 0 (concat (map (map rgb_of_pixel) img)) [])
                (concat (map (map rgb_of_pixel) img))) as (msg & ->).
    + apply pixel_dict_loop_nonempty. left. exact Harr.
    + cbn [Py.bind]. eexists. reflexivity.
Qed.

End QuantizationImageErrors.

(** ** The record of the walls *)

Section WallReportSpec.

Import MeshUtils Segmented WallReport.

Lemma is_digit_pretty_N_char (x : N) : is_digit (pretty_N_char x) = true.
Proof. unfold pretty_N_char. repeat case_match; reflexivity. Qed.

Lemma pretty_N_go_digits (x : N) (s : string) :
  all_digits s = true → all_digits (pretty_N_go x s) = true.
Proof.
  revert s. induction (N.lt_wf_0 x) as [x _ IH]; intros s Hs.
  destruct (decide (x = 0)%N) as [->|Hx]; [rewrite pretty_N_go_0; exact Hs|].
  rewrite pretty_N_go_step by lia. apply IH.
  - apply N.div_lt; lia.
  - cbn [all_digits]. rewrite is_digit_pretty_N_char. exact Hs.
Qed.

Lemma pretty_nat_digits (n : nat) : all_digits (pretty n) = true.
Proof.
  unfold pretty, pretty_nat, pretty, pretty_N.
  destruct (decide (N.of_nat n = 0)%N); [reflexivity|].
  apply pretty_N_go_digits. reflexivity.
Qed.

Lemma pretty_nat_ne_overall (n : nat) : pretty n ≠ "overall".
Proof.
  intros H. pose proof (pretty_nat_digits n) as Hd. rewrite H in Hd. discriminate.
Qed.

Lemma wall_items_keys (i : nat) (walls : list BuildingWall) (ratios : list npfloat) :
  length walls = length ratios →
  map fst (wall_items i walls ratios) = map pretty (seq i (length walls)).
Proof.
  revert i ratios. induction walls as [|w walls IH]; intros i [|r ratios] Hlen;
    try discriminate; [reflexivity|].
  cbn [wall_items map fst length seq]. f_equal. apply IH.
  cbn [length] in Hlen. lia.
Qed.

(** The loop adds the items of the walls behind the items that are there. *)
Lemma report_walls_items (walls : list BuildingWall) (ratios : list npfloat) (i : nat)
    (json_dict : list (string * report_entry)) :
  map wall_wwr walls = map Some ratios →
  (∀ j, (i ≤ j)%nat → pretty j ∉ map fst json_dict) →
  report_walls i walls json_dict = inr (json_dict ++ wall_items i walls ratios).
Proof.
  revert ratios i json_dict.
  induction walls as [|w walls IH]; intros [|r ratios] i d Hw Hfresh; try discriminate.
  - cbn [report_walls wall_items]. rewrite app_nil_r. reflexivity.
  - cbn [map] in Hw. injection Hw as Hr Hw.
    cbn [report_walls wall_items]. unfold wall_entry. rewrite Hr.
    rewrite dict_set_fresh by (apply Hfresh; lia).
    rewrite (IH ratios (S i)); [rewrite <- app_assoc; reflexivity | exact Hw|].
    intros j Hj. rewrite map_app. cbn [map fst]. intros Hin.
    apply elem_of_app in Hin as [Hin|Hin]; [apply (Hfresh j); [lia | exact Hin]|].
    apply list_elem_of_singleton in Hin. apply (inj pretty) in Hin. lia.
Qed.

(** X23. For a model whose ratio is computed and whose walls all have their
    ratio set, the record that [write_out_building_wall_wwr] dumps holds the
    item "overall" first and then one item per wall, in the order of the
    walls, keyed by the decimal index of the wall and holding its center,
    direction, domain, ratio and area; the keys are pairwise different, so no
    item overwrites another. *)
Theorem json_dict_of_items (model : Segmented3DModel) (ratio : npfloat)
    (ratios : list npfloat) :
  wwr model = Ok ratio →
  map wall_wwr (_building_walls model) = map Some ratios →
  write_out_json_dict model
  = inr (("overall", Overall ratio) :: wall_items 0 (_building_walls model) ratios)
  ∧ map fst (wall_items 0 (_building_walls model) ratios)
    = map pretty (seq 0 (length (_building_walls model)))
  ∧ NoDup ("overall" :: map fst (wall_items 0 (_building_walls model) ratios)).
Proof.
  intros Hwwr Hratios.
  assert (Hlen : length (_building_walls model) = length ratios).
  { rewrite <- (length_map wall_wwr), Hratios, length_map. reflexivity. }
  split; [|split].
  - unfold write_out_json_dict. rewrite Hwwr. cbn [Dataset.dict_set].
    rewrite (report_walls_items _ ratios); [reflexivity | exact Hratios|].
    intros j _ Hin. cbn [map fst] in Hin.
    apply list_elem_of_singleton in Hin. exact (pretty_nat_ne_overall j Hin).
  - apply wall_items_keys. exact Hlen.
  - rewrite wall_items_keys by exact Hlen. apply NoDup_cons. split.
    + intros Hin. apply list_elem_of_fmap in Hin as (j & Hj & _).
      symmetry in Hj. exact (pretty_nat_ne_overall j Hj).
    + apply NoDup_fmap_2; [apply _ | apply NoDup_seq].
Qed.

(** X24. The record is not built when the ratio of the model raises, and
    the first wall whose ratio has not been set raises [AttributeError]. *)
Theorem json_dict_of_errors (model : Segmented3DModel) :
  (∀ e, wwr model = Raise e → write_out_json_dict model = inl (ModelError e))
  ∧ (∀ ratio, wwr model = Ok ratio →
       (∃ wall, wall ∈ _building_walls model ∧ wall_wwr wall = None) →
       ∃ msg, write_out_json_dict model = inl (AttributeError msg)).
Proof.
  split.
  - intros e He. unfold write_out_json_dict. rewrite He. reflexivity.
  - intros ratio Hratio Hwall. unfold write_out_json_dict. rewrite Hratio.
    generalize (Dataset.dict_set [] "overall" (Overall ratio)). generalize 0%nat.
    induction (_building_walls model) as [|w walls IH]; intros i d.
    + destruct Hwall as (wall & Hin & _). inversion Hin.
    + cbn [report_walls]. unfold wall_entry at 1.
      destruct (wall_wwr w) as [r|] eqn:Ew; [|eexists; reflexivity].
      apply IH. destruct Hwall as (wall & Hin & Hnone).
      apply elem_of_cons in Hin as [->|Hin]; [congruence|].
      exists wall. split; assumption.
Qed.

Lemma json_dict_of_items_witness :
  write_out_json_dict scene_built_model
  = inr (("overall", Overall (Finite (320 # 6400)))
         :: wall_items 0 (_building_walls scene_built_model)
                       [Finite (320 # 3200); Finite (320 # 3200)])
  ∧ map fst (wall_items 0 (_building_walls scene_built_model)
                        [Finite (320 # 3200); Finite (320 # 3200)])
    = map pretty (seq 0 (length (_building_walls scene_built_model)))
  ∧ NoDup ("overall"
           :: map fst (wall_items 0 (_building_walls scene_built_model)
                                  [Finite (320 # 3200); Finite (320 # 3200)])).
Proof.
  apply json_dict_of_items.
  - vm_compute. reflexivity.
  - vm_compute. reflexivity.
Defined.

End WallReportSpec.

(** ** The face normals of the face table *)

Section MeshFaceNormals.

Import MeshUtils Segmented.

Local Open Scope Q_scope.

Lemma cross_orthogonal (a b : vec3) :
  dot (cross a b) a == 0 ∧ dot (cross a b) b == 0
  ∧ dot (cross a b) (cross a b) == dot a a * dot b b - dot a b * dot a b.
Proof. unfold dot, cross. cbn [vx vy vz]. repeat split; ring. Qed.

Lemma vscale_orthogonal (n a : vec3) : dot n a == 0 → dot (vscale (-1) n) a == 0.
Proof. intros H. rewrite dot_vscale_l, H. ring. Qed.

Lemma vscale_norm (n : vec3) : dot (vscale (-1) n) (vscale (-1) n) == dot n n.
Proof. unfold dot, vscale. cbn [vx vy vz]. ring. Qed.

(** X25. When no face of the table has vertex normals strictly on both
    sides of its plane, the face normals that [_add_triangle_face_normals]
    obtains from [triangle_face_normals] are one per face, in order; each is
    orthogonal to the three edges of its face, its squared length is
    |AB|^2 |AC|^2 - (AB . AC)^2 (four times the squared area of the face), and
    it is not more than 90 degrees from any of the three vertex normals. *)
Theorem mesh_face_normals_are_orthogonal (mesh_df : list MeshInfo) :
  (∀ row, row ∈ mesh_df → ¬ vertex_normals_disagree (triangle_of_row row)) →
  ∃ normals,
    face_normals_of_mesh_df mesh_df = Ok normals
    ∧ Forall2
        (fun row n =>
           let ab := vsub (vpos (v2 row)) (vpos (v1 row)) in
           let ac := vsub (vpos (v3 row)) (vpos (v1 row)) in
           let bc := vsub (vpos (v3 row)) (vpos (v2 row)) in
           dot n ab == 0 ∧ dot n ac == 0 ∧ dot n bc == 0
           ∧ dot n n == dot ab ab * dot ac ac - dot ab ac * dot ab ac
           ∧ 0 <= dot n (vnormal (v1 row))
           ∧ 0 <= dot n (vnormal (v2 row))
           ∧ 0 <= dot n (vnormal (v3 row)))
        mesh_df normals.
Proof.
  intros Hall. unfold face_normals_of_mesh_df.
  exists (map face_flipped (map triangle_of_row mesh_df)). split.
  - apply triangle_face_normals_Ok. intros t Ht.
    apply list_elem_of_fmap in Ht as (row & -> & Hrow). apply Hall; exact Hrow.
  - rewrite map_map. apply Forall2_fmap_r, Forall_Forall2_diag, Forall_forall.
    intros row Hrow. cbv zeta.
    set (t := triangle_of_row row).
    assert (Hdots : 0 <= dot (face_flipped t) (A_normal t)
                    ∧ 0 <= dot (face_flipped t) (B_normal t)
                    ∧ 0 <= dot (face_flipped t) (C_normal t)).
    { apply any_row_false_iff. fold (face_row_after t).
      destruct (any_row (face_row_after t)) eqn:E; [|reflexivity].
      exfalso. apply (Hall row Hrow), face_row_after_disagree, E. }
    destruct (cross_orthogonal (AB t) (AC t)) as (Hab & Hac & Hnorm).
    assert (Hbc : ∀ n, dot n (AB t) == 0 → dot n (AC t) == 0 →
                  dot n (vsub (vpos (v3 row)) (vpos (v2 row))) == 0).
    { intros n H1 H2.
      assert (Hsub : dot n (vsub (vpos (v3 row)) (vpos (v2 row)))
                     == dot n (AC t) - dot n (AB t)).
      { unfold t, triangle_of_row, dot, vsub. cbn [AB AC vx vy vz]. ring. }
      rewrite Hsub, H1, H2. ring. }
    change (vsub (vpos (v2 row)) (vpos (v1 row))) with (AB t).
    change (vsub (vpos (v3 row)) (vpos (v1 row))) with (AC t).
    change (vnormal (v1 row)) with (A_normal t).
    change (vnormal (v2 row)) with (B_normal t).
    change (vnormal (v3 row)) with (C_normal t).
    assert (Hflip : dot (face_flipped t) (AB t) == 0
                    ∧ dot (face_flipped t) (AC t) == 0
                    ∧ dot (face_flipped t) (face_flipped t)
                      == dot (AB t) (AB t) * dot (AC t) (AC t)
                         - dot (AB t) (AC t) * dot (AB t) (AC t)).
    { unfold face_flipped. destruct (any_row (face_row_before t)).
      - split; [apply vscale_orthogonal; exact Hab|].
        split; [apply vscale_orthogonal; exact Hac|].
        rewrite vscale_norm. exact Hnorm.
      - split; [exact Hab|]. split; [exact Hac | exact Hnorm]. }
    destruct Hflip as (Fab & Fac & Fnorm).
    split; [exact Fab|]. split; [exact Fac|].
    split; [apply Hbc; assumption|]. split; [exact Fnorm | exact Hdots].
Qed.

Lemma mesh_face_normals_are_orthogonal_witness :
  ∃ normals,
    face_normals_of_mesh_df (map info scene_mesh_df) = Ok normals
    ∧ Forall2
        (fun row n =>
           let ab := vsub (vpos (v2 row)) (vpos (v1 row)) in
           let ac := vsub (vpos (v3 row)) (vpos (v1 row)) in
           let bc := vsub (vpos (v3 row)) (vpos (v2 row)) in
           dot n ab == 0 ∧ dot n ac == 0 ∧ dot n bc == 0
           ∧ dot n n == dot ab ab * dot ac ac - dot ab ac * dot ab ac
           ∧ 0 <= dot n (vnormal (v1 row))
           ∧ 0 <= dot n (vnormal (v2 row))
           ∧ 0 <= dot n (vnormal (v3 row)))
        (map info scene_mesh_df) normals.
Proof.
  apply mesh_face_normals_are_orthogonal.
  intros row Hrow. apply list_elem_of_In in Hrow. vm_compute in Hrow.
  repeat (destruct Hrow as [<-|Hrow];
          [intros [H1 H2]; vm_compute in H1, H2; intuition discriminate|]).
  destruct Hrow.
Defined.

End MeshFaceNormals.
